(** * WordCount for Hadoop streaming: mapper.py and reducer.py

    A shallow embedding of the two streaming scripts
    [src/python/mapper.py] and [src/python/reducer.py], and the
    properties of the tokenizer, of the sorted-group aggregator and of
    their composition.

    Text is modelled the way Python 3 has it: a [str] is a sequence of
    Unicode code points.  The built-ins the scripts call ([str.strip],
    [str.lower], [str.split], [re.findall], [int], [print] and the
    formatting of an integer) are modelled after CPython; the part of
    the Unicode character database they consult that does not matter to
    the scripts is kept abstract in the class [UnicodeData].  Integers
    are Python's unbounded integers, that is [Z].  CPython's limit on
    the number of digits of a conversion between an integer and its
    decimal text is a setting of the interpreter: the module [Reducer]
    is the reducer run with the limit off, the module [Limited] is the
    reducer under any setting of the limit (4300 digits when nothing is
    set), and the two are related in [LimitedMore].

    Standard input is the list of lines that [for line in sys.stdin]
    yields, standard output the list of lines written by [print]. *)

From Stdlib Require Import List NArith ZArith Bool Lia Permutation.
From Stdlib Require Decimal DecimalFacts DecimalPos DecimalZ.
From Stdlib Require Ascii String.
Import ListNotations.

Set Implicit Arguments.

(** ** Text *)

(** A character is a Unicode code point. *)
Definition char := N.

(** A Python [str]. *)
Definition str := list char.

Definition TAB : char := 9%N.
Definition LF : char := 10%N.

Import String.StringSyntax.
Delimit Scope string_scope with string.

(** ASCII literals, to write examples. *)
Definition lit (s : String.string) : str :=
  map Ascii.N_of_ascii (String.list_ascii_of_string s).

Arguments lit _%_string.

Definition is_empty (s : str) : bool :=
  match s with [] => true | _ :: _ => false end.

Fixpoint str_eqb (a b : str) : bool :=
  match a, b with
  | [], [] => true
  | x :: a', y :: b' => N.eqb x y && str_eqb a' b'
  | _, _ => false
  end.

(** ** The Python built-ins used by the scripts *)

Module Py.

Local Open Scope N_scope.

(** [str.isspace] on one character: the white space of the Unicode
    character database (bidirectional type WS, B or S, or category Zs). *)
Definition isspace (c : char) : bool :=
  ((9 <=? c) && (c <=? 13)) || ((28 <=? c) && (c <=? 32))
  || (c =? 0x85) || (c =? 0xA0) || (c =? 0x1680)
  || ((0x2000 <=? c) && (c <=? 0x200A))
  || (c =? 0x2028) || (c =? 0x2029) || (c =? 0x202F) || (c =? 0x205F)
  || (c =? 0x3000).

(** White space of the C locale ([Py_ISSPACE]), used by the integer parser. *)
Definition c_isspace (c : char) : bool :=
  (c =? 32) || ((9 <=? c) && (c <=? 13)).

Definition is_ascii_upper (c : char) : bool := (65 <=? c) && (c <=? 90).
Definition is_ascii_lower (c : char) : bool := (97 <=? c) && (c <=? 122).
Definition is_ascii_digit (c : char) : bool := (48 <=? c) && (c <=? 57).

(** Lower-casing restricted to ASCII. *)
Definition ascii_tolower (c : char) : char :=
  if is_ascii_upper c then c + 32 else c.

(** The part of the Unicode character database that [str.lower] and
    [int] consult.  Only what the scripts depend on is fixed: the
    lower-case mapping of ASCII, that white space has no case, and that
    the decimal digits of ASCII are the ten usual ones. *)
Class UnicodeData := {
  (** full lower-case mapping of one code point (one to three code points) *)
  tolower_full : char -> str;
  (** whether a capital sigma stands in final position, given the text
      before it and the text after it *)
  final_sigma : str -> str -> bool;
  (** value of a decimal digit (category Nd), [None] for other characters *)
  todecimal : char -> option N;
  tolower_full_ascii :
    forall c, c < 128 -> tolower_full c = [ascii_tolower c];
  tolower_full_space :
    forall c, isspace c = true -> tolower_full c = [c];
  todecimal_ascii :
    forall c, c < 128 ->
      todecimal c = if is_ascii_digit c then Some (c - 48) else None;
  todecimal_digit :
    forall c d, todecimal c = Some d -> d < 10
}.

(** Exceptions: a computation returns a value or raises. *)
Inductive exn : Set := ValueError.

Inductive result (A : Type) : Type :=
| Ok (a : A)
| Raise (e : exn).

Arguments Ok {A} a.
Arguments Raise {A} e.

Definition bind {A B : Type} (r : result A) (k : A -> result B) : result B :=
  match r with
  | Ok a => k a
  | Raise e => Raise e
  end.

Notation "x <- c1 ;; c2" := (bind c1 (fun x => c2))
  (at level 61, c1 at next level, right associativity).

Section Builtins.

Context {ucd : UnicodeData}.

(** *** [str.strip()] *)

Fixpoint lstrip (s : str) : str :=
  match s with
  | [] => []
  | c :: s' => if isspace c then lstrip s' else s
  end.

Definition rstrip (s : str) : str := rev (lstrip (rev s)).

Definition strip (s : str) : str := rstrip (lstrip s).

(** *** [str.lower()] *)

(** One character in its context: capital sigma becomes final or medial
    small sigma, every other character takes its full lower-case mapping. *)
Definition lower_ucs4 (before : str) (c : char) (after : str) : str :=
  if c =? 0x3A3
  then [if final_sigma before after then 0x3C2 else 0x3C3]
  else tolower_full c.

Fixpoint do_lower (before s : str) : str :=
  match s with
  | [] => []
  | c :: after => lower_ucs4 before c after ++ do_lower (before ++ [c]) after
  end.

Definition lower (s : str) : str := do_lower [] s.

(** *** [str.split(sep)] for a one-character separator *)

Fixpoint split (sep : char) (s : str) : list str :=
  match s with
  | [] => [[]]
  | c :: s' =>
      if c =? sep then [] :: split sep s'
      else match split sep s' with
           | f :: fs => (c :: f) :: fs
           | [] => [[c]]
           end
  end.

(** *** [re.findall(r'[a-zA-Z0-9]+', s)] *)

(** The character class [[a-zA-Z0-9]]. *)
Definition word_class (c : char) : bool :=
  is_ascii_lower c || is_ascii_upper c || is_ascii_digit c.

(** The scan of the regular-expression engine for [[a-zA-Z0-9]+]: [cur]
    is the match in progress.  A character of the class extends it (the
    repetition is greedy); any other character ends it, and the search
    resumes after that character. *)
Fixpoint scan (cur s : str) : list str :=
  match s with
  | [] => if is_empty cur then [] else [cur]
  | c :: s' =>
      if word_class c then scan (cur ++ [c]) s'
      else (if is_empty cur then [] else [cur]) ++ scan [] s'
  end.

Definition findall (s : str) : list str := scan [] s.

(** *** [int(s)] and [str(n)] *)

(** The two conversions as an interpreter with no limit on the number of
    digits makes them; [Limited] has them under a limit. *)

Definition is_ascii (s : str) : bool := forallb (fun c => c <? 128) s.

(** [int] first maps its argument to ASCII.  An ASCII text stays as it
    is.  In another text, characters below 127 stay, Unicode white space
    becomes a space, a Unicode decimal digit becomes the ASCII digit of
    its value, and the text is cut after the first character that is
    none of these, replaced by a question mark. *)
Fixpoint transform_chars (s : str) : str :=
  match s with
  | [] => []
  | c :: s' =>
      if c <? 127 then c :: transform_chars s'
      else if isspace c then 32 :: transform_chars s'
      else match todecimal c with
           | Some d => (48 + d) :: transform_chars s'
           | None => [63]
           end
  end.

Definition transform_decimal_and_space (s : str) : str :=
  if is_ascii s then s else transform_chars s.

Fixpoint skip_space (s : str) : str :=
  match s with
  | [] => []
  | c :: s' => if c_isspace c then skip_space s' else s
  end.

(** The digits of a decimal literal: digits, with single underscores
    allowed between two digits.  [prev_us] tells whether the previous
    character was an underscore; [acc] is the value read so far and [n]
    the number of digits read.  [None] is a misplaced underscore. *)
Fixpoint scan_digits (prev_us : bool) (acc : Z) (n : nat) (s : str)
  : option (Z * nat * str) :=
  match s with
  | [] => if prev_us then None else Some (acc, n, [])
  | c :: s' =>
      if is_ascii_digit c
      then scan_digits false (10 * acc + Z.of_N (c - 48))%Z (S n) s'
      else if c =? 95
           then if prev_us then None else scan_digits true acc n s'
           else if prev_us then None else Some (acc, n, s)
  end.

(** The optional sign of a literal. *)
Definition read_sign (s : str) : Z * str :=
  match s with
  | c :: r =>
      if c =? 43 then (1%Z, r)
      else if c =? 45 then ((-1)%Z, r)
      else (1%Z, s)
  | [] => (1%Z, s)
  end.

Definition starts_with (c : char) (s : str) : bool :=
  match s with
  | d :: _ => d =? c
  | [] => false
  end.

(** The literal after its sign: digits (not led by an underscore, at
    least one), optional white space, end of text. *)
Definition digits_to_long (sign : Z) (s : str) : result Z :=
  if starts_with 95 s then Raise ValueError
  else
    match scan_digits false 0%Z 0%nat s with
    | None => Raise ValueError
    | Some (v, n, rest) =>
        match n with
        | O => Raise ValueError
        | S _ => if is_empty (skip_space rest) then Ok (sign * v)%Z
                 else Raise ValueError
        end
    end.

(** [PyLong_FromString] in base 10: optional white space, optional sign,
    then the digits. *)
Definition long_from_string (s : str) : result Z :=
  let '(sign, s) := read_sign (skip_space s) in
  digits_to_long sign s.

Definition int (s : str) : result Z :=
  long_from_string (transform_decimal_and_space s).

Fixpoint chars_of_uint (u : Decimal.uint) : str :=
  match u with
  | Decimal.Nil => []
  | Decimal.D0 u' => 48 :: chars_of_uint u'
  | Decimal.D1 u' => 49 :: chars_of_uint u'
  | Decimal.D2 u' => 50 :: chars_of_uint u'
  | Decimal.D3 u' => 51 :: chars_of_uint u'
  | Decimal.D4 u' => 52 :: chars_of_uint u'
  | Decimal.D5 u' => 53 :: chars_of_uint u'
  | Decimal.D6 u' => 54 :: chars_of_uint u'
  | Decimal.D7 u' => 55 :: chars_of_uint u'
  | Decimal.D8 u' => 56 :: chars_of_uint u'
  | Decimal.D9 u' => 57 :: chars_of_uint u'
  end.

(** [str(n)], which is also how an f-string renders an integer. *)
Definition str_of_int (n : Z) : str :=
  match Z.to_int n with
  | Decimal.Pos u => chars_of_uint u
  | Decimal.Neg u => 45 :: chars_of_uint u
  end.

(** *** [print(s)]: the text and a line break. *)
Definition print (s : str) : str := s ++ [LF].

End Builtins.

End Py.

(** ** mapper.py *)

Module Mapper.

Import Py.

Section Mapper.

Context {ucd : UnicodeData}.

(** The body of [for word in words]: the guard and the [print]. *)
Definition emit (word : str) : list str :=
  if (0 <? length word)%nat
  then [print (word ++ [TAB] ++ lit "1")]
  else [].

(** The body of [for line in sys.stdin]: what one line adds to the output. *)
Definition map_line (line : str) : list str :=
  let line := lower (strip line) in
  if is_empty line then []
  else
    let words := findall line in
    flat_map emit words.

Definition main (stdin : list str) : list str := flat_map map_line stdin.

(** The loop body without the guard [len(word) > 0]. *)
Definition map_line_unguarded (line : str) : list str :=
  let line := lower (strip line) in
  if is_empty line then []
  else map (fun word => print (word ++ [TAB] ++ lit "1")) (findall line).

End Mapper.

End Mapper.

(** ** reducer.py *)

(** The script as an interpreter with no limit on the digits of an
    integer runs it: no conversion fails for the size of a number, and
    [main] always returns. *)
Module Reducer.

Import Py.

(** The variables of [main], and what it has printed. [current_word] is
    [None] until the first record. *)
Record state : Type := State {
  current_word : option str;
  current_count : Z;
  stdout : list str
}.

Definition init : state :=
  {| current_word := None; current_count := 0%Z; stdout := [] |}.

(** [current_word == word], where [current_word] may be [None]. *)
Definition same_word (current_word : option str) (word : str) : bool :=
  match current_word with
  | None => false
  | Some w => str_eqb w word
  end.

(** [f"{current_word}\t{current_count}"] *)
Definition format (word : str) (count : Z) : str :=
  word ++ [TAB] ++ str_of_int count.

(** [if current_word is not None: print(...)] *)
Definition flush (st : state) : list str :=
  match current_word st with
  | Some w => stdout st ++ [print (format w (current_count st))]
  | None => stdout st
  end.

Section Reducer.

Context {ucd : UnicodeData}.

(** [word, count = line.split('\t')]: exactly two fields, or [ValueError]. *)
Definition unpack2 (fields : list str) : result (str * str) :=
  match fields with
  | [word; count] => Ok (word, count)
  | _ => Raise ValueError
  end.

(** The [try] block. *)
Definition parse (line : str) : result (str * Z) :=
  p <- unpack2 (split TAB line) ;;
  count <- int (snd p) ;;
  Ok (fst p, count).

(** The body of [for line in sys.stdin]. *)
Definition step (st : state) (line : str) : state :=
  let line := strip line in
  if is_empty line then st
  else
    match parse line with
    | Raise ValueError => st
    | Ok (word, count) =>
        if same_word (current_word st) word
        then {| current_word := current_word st;
                current_count := current_count st + count;
                stdout := stdout st |}
        else {| current_word := Some word;
                current_count := count;
                stdout := flush st |}
    end.

Definition run (stdin : list str) : state := fold_left step stdin init.

Definition main (stdin : list str) : list str := flush (run stdin).

End Reducer.

End Reducer.

(** ** reducer.py under the limit on the digits of an integer *)

(** CPython bounds the number of digits of a conversion between [int]
    and [str] in base 10.  The bound is part of the state of the
    interpreter ([sys.get_int_max_str_digits()]): 4300 unless it is set
    otherwise, 0 for no bound, and never a value between 1 and 639.  A
    conversion of more digits raises [ValueError]; one of 640 digits or
    fewer is never looked at.

    [Py.int] and [Py.str_of_int] are the two conversions with the bound
    at 0, and [Reducer] is the script run that way.  This module is the
    script under any bound.  The [int] of the [try] block then rejects a
    count with too many digits, and the line is skipped like any
    malformed line; the f-string of a [print] raises outside the [try]
    block, and the script dies with a traceback, after what it has
    printed so far. *)
Module Limited.

Import Py.
Import Reducer.

Local Open Scope N_scope.

(** [sys.int_info.str_digits_check_threshold] *)
Definition str_digits_check_threshold : N := 640.

(** [sys.int_info.default_max_str_digits] *)
Definition default_max_str_digits : N := 4300.

(** The interpreter's setting.  [sys.set_int_max_str_digits], the [-X]
    option and the environment variable accept 0 and the values from the
    threshold on, no other. *)
Class Interpreter := {
  int_max_str_digits : N;
  int_max_str_digits_valid :
    int_max_str_digits = 0
    \/ str_digits_check_threshold <= int_max_str_digits
}.

Lemma default_max_str_digits_valid :
  default_max_str_digits = 0
  \/ str_digits_check_threshold <= default_max_str_digits.
Proof. right. discriminate. Qed.

(** The interpreter as it starts, and with the limit switched off. *)
Definition default_interpreter : Interpreter :=
  {| int_max_str_digits := default_max_str_digits;
     int_max_str_digits_valid := default_max_str_digits_valid |}.

Definition unlimited_interpreter : Interpreter :=
  {| int_max_str_digits := 0;
     int_max_str_digits_valid := or_introl eq_refl |}.

(** How a run of the script ends: [main] returns, or an exception that
    no [try] catches ends the run with a traceback. *)
Inductive ending : Set :=
| Returns
| Dies (e : exn).

Section Limited.

Context {ucd : UnicodeData} {interp : Interpreter}.

(** *** [int(s)] *)

(** The literal after its sign, as in [Py.digits_to_long]; the digits
    are counted while they are scanned (underscores and the sign do not
    count, leading zeros do), and the count is checked before the
    value is used. *)
Definition digits_to_long (sign : Z) (s : str) : result Z :=
  if starts_with 95 s then Raise ValueError
  else
    match scan_digits false 0%Z 0%nat s with
    | None => Raise ValueError
    | Some (v, n, rest) =>
        let digits := N.of_nat n in
        if (str_digits_check_threshold <? digits)
           && (0 <? int_max_str_digits)
           && (int_max_str_digits <? digits)
        then Raise ValueError
        else
          match n with
          | O => Raise ValueError
          | S _ => if is_empty (skip_space rest) then Ok (sign * v)%Z
                   else Raise ValueError
          end
    end.

Definition long_from_string (s : str) : result Z :=
  let '(sign, s) := read_sign (skip_space s) in
  digits_to_long sign s.

Definition int (s : str) : result Z :=
  long_from_string (transform_decimal_and_space s).

(** *** [str(n)], and an integer in an f-string *)

(** The decimal text is made, its length is known, and it is refused
    when it is too long: [strlen] counts the sign, [strlen_nosign] does
    not.  (The test CPython makes on the size of the integer before it
    converts refuses no integer that this one lets through.) *)
Definition str_of_int (n : Z) : result str :=
  let s := Py.str_of_int n in
  let strlen := N.of_nat (length s) in
  let strlen_nosign := if (n <? 0)%Z then strlen - 1 else strlen in
  if (str_digits_check_threshold <? strlen)
     && (0 <? int_max_str_digits)
     && (int_max_str_digits <? strlen_nosign)
  then Raise ValueError
  else Ok s.

(** *** The script *)

(** [f"{current_word}\t{current_count}"] *)
Definition format (word : str) (count : Z) : result str :=
  digits <- str_of_int count ;;
  Ok (word ++ [TAB] ++ digits).

(** [if current_word is not None: print(...)]: the standard output
    after it. *)
Definition flush (st : state) : result (list str) :=
  match current_word st with
  | Some w =>
      text <- format w (current_count st) ;;
      Ok (stdout st ++ [print text])
  | None => Ok (stdout st)
  end.

(** The [try] block. *)
Definition parse (line : str) : result (str * Z) :=
  p <- unpack2 (split TAB line) ;;
  count <- int (snd p) ;;
  Ok (fst p, count).

(** The body of [for line in sys.stdin].  The [print] comes before the
    two assignments: when it raises, the variables are as they were. *)
Definition step (st : state) (line : str) : result state :=
  let line := strip line in
  if is_empty line then Ok st
  else
    match parse line with
    | Raise ValueError => Ok st
    | Ok (word, count) =>
        if same_word (current_word st) word
        then Ok {| current_word := current_word st;
                   current_count := (current_count st + count)%Z;
                   stdout := stdout st |}
        else
          out <- flush st ;;
          Ok {| current_word := Some word;
                current_count := count;
                stdout := out |}
    end.

(** The loop, from the state [st]: the state it is left in, with what
    has been printed, and whether it was left by an exception. *)
Fixpoint loop (st : state) (stdin : list str) : state * ending :=
  match stdin with
  | [] => (st, Returns)
  | line :: rest =>
      match step st line with
      | Ok st' => loop st' rest
      | Raise e => (st, Dies e)
      end
  end.

Definition run (stdin : list str) : state * ending := loop init stdin.

(** [main()]: what is on standard output when the run is over, and how
    the run ended. *)
Definition main (stdin : list str) : list str * ending :=
  match run stdin with
  | (st, Dies e) => (stdout st, Dies e)
  | (st, Returns) =>
      match flush st with
      | Ok out => (out, Returns)
      | Raise e => (stdout st, Dies e)
      end
  end.

(** *** Records *)

(** The record the script reads from a line, [None] for a line it
    skips. *)
Definition record_of (line : str) : option (str * Z) :=
  let line := strip line in
  if is_empty line then None
  else match parse line with
       | Ok r => Some r
       | Raise _ => None
       end.

Definition well_formed (line : str) : Prop := record_of line <> None.

(** The well-formed records of an input, in order. *)
Definition records (stdin : list str) : list (str * Z) :=
  flat_map (fun line => match record_of line with
                        | Some r => [r]
                        | None => []
                        end) stdin.

End Limited.

End Limited.

(** ** Specification vocabulary *)

Module Spec.

Import Py.

(** *** Tokens of a line *)

(** A token is a non-empty run of characters of the class. *)
Definition is_token (t : str) : Prop :=
  t <> [] /\ Forall (fun c => word_class c = true) t.

(** A separator is a run of characters outside the class. *)
Definition is_gap (g : str) : Prop :=
  Forall (fun c => word_class c = false) g.

(** A text cut into a leading separator and tokens, each followed by a
    separator. *)
Definition weave (sep0 : str) (runs : list (str * str)) : str :=
  sep0 ++ flat_map (fun p => fst p ++ snd p) runs.

(** The tokens of [runs] are maximal: a separator between two tokens is
    not empty (the one after the last token may be). *)
Inductive maximal_tokens : list (str * str) -> Prop :=
| mt_nil : maximal_tokens []
| mt_last t g : is_token t -> is_gap g -> maximal_tokens [(t, g)]
| mt_cons t g runs :
    is_token t -> is_gap g -> g <> [] -> runs <> [] ->
    maximal_tokens runs -> maximal_tokens ((t, g) :: runs).

(** The line the mapper prints for a token. *)
Definition pair_line (token : str) : str :=
  token ++ [TAB] ++ lit "1" ++ [LF].

(** *** Records and key runs of the reducer's input *)

Definition sum (cs : list Z) : Z := fold_right Z.add 0%Z cs.

(** A key run: a key and the counts of its consecutive records. *)
Definition key_run : Type := str * list Z.

(** The records a list of key runs stands for. *)
Definition expand (runs : list key_run) : list (str * Z) :=
  flat_map (fun r => map (pair (fst r)) (snd r)) runs.

(** The runs are maximal: none is empty and two neighbours differ in key. *)
Inductive maximal_runs : list key_run -> Prop :=
| mr_nil : maximal_runs []
| mr_last k cs : cs <> [] -> maximal_runs [(k, cs)]
| mr_cons k cs k' cs' runs :
    cs <> [] -> k <> k' -> maximal_runs ((k', cs') :: runs) ->
    maximal_runs ((k, cs) :: (k', cs') :: runs).

(** The key runs of a list of records, computed. *)
Fixpoint group (recs : list (str * Z)) : list key_run :=
  match recs with
  | [] => []
  | (k, c) :: recs' =>
      match group recs' with
      | (k', cs) :: runs =>
          if str_eqb k k' then (k, c :: cs) :: runs
          else (k, [c]) :: (k', cs) :: runs
      | [] => [(k, [c])]
      end
  end.

(** The line the reducer prints for a key and a total. *)
Definition total_line (k : str) (total : Z) : str :=
  k ++ [TAB] ++ str_of_int total ++ [LF].

Definition run_line (r : key_run) : str := total_line (fst r) (sum (snd r)).

(** A key as the reducer can read one: not empty, no tab in it, and no
    white space in front. *)
Definition key_ok (k : str) : Prop :=
  ~ In TAB k /\ exists c k', k = c :: k' /\ isspace c = false.

(** *** The sort between the stages *)

(** Hadoop sorts the mapper's lines before the reducer reads them; it is
    no part of the two scripts.  It is modelled as a stable insertion
    sort of the lines by code points, the order of [sort] in the C
    locale. *)
Fixpoint str_leb (a b : str) : bool :=
  match a, b with
  | [], _ => true
  | _ :: _, [] => false
  | x :: a', y :: b' => N.ltb x y || (N.eqb x y && str_leb a' b')
  end.

Fixpoint insert_line (l : str) (sorted : list str) : list str :=
  match sorted with
  | [] => [l]
  | m :: sorted' =>
      if str_leb l m then l :: sorted else m :: insert_line l sorted'
  end.

Definition sort_barrier (lines : list str) : list str :=
  fold_right insert_line [] lines.

Section Records.

Context {ucd : UnicodeData}.

(** The record the reducer reads from a line, [None] for a line it skips. *)
Definition record_of (line : str) : option (str * Z) :=
  let line := strip line in
  if is_empty line then None
  else match Reducer.parse line with
       | Ok r => Some r
       | Raise _ => None
       end.

Definition well_formed (line : str) : Prop := record_of line <> None.

Definition malformed (line : str) : Prop := record_of line = None.

(** The well-formed records of an input, in order. *)
Definition records (stdin : list str) : list (str * Z) :=
  flat_map (fun line => match record_of line with
                        | Some r => [r]
                        | None => []
                        end) stdin.

End Records.

End Spec.

(** ** Facts about text and the built-ins *)

Module TextFacts.

Import Py Spec.

Lemma str_eqb_eq (a b : str) : str_eqb a b = true <-> a = b.
Proof.
  revert b; induction a as [|x a IH]; intros [|y b]; simpl; split; intro H;
    try reflexivity; try discriminate.
  - apply andb_true_iff in H as [Hx Hr].
    apply N.eqb_eq in Hx. apply IH in Hr. congruence.
  - injection H as -> ->. rewrite N.eqb_refl. simpl. now apply IH.
Qed.

Lemma str_eqb_refl (a : str) : str_eqb a a = true.
Proof. now apply str_eqb_eq. Qed.

Lemma str_eqb_neq (a b : str) : str_eqb a b = false <-> a <> b.
Proof.
  split.
  - intros H E. apply str_eqb_eq in E. congruence.
  - intro H. destruct (str_eqb a b) eqn:E; [|reflexivity].
    apply str_eqb_eq in E. contradiction.
Qed.

Lemma is_empty_true (s : str) : is_empty s = true <-> s = [].
Proof. destruct s; simpl; split; congruence. Qed.

Lemma is_empty_false (s : str) : is_empty s = false <-> s <> [].
Proof. destruct s; simpl; split; congruence. Qed.

(** Unfolding the range tests of a character predicate into arithmetic. *)
Ltac ranges :=
  repeat match goal with
  | H : _ || _ = true |- _ => apply orb_true_iff in H; destruct H as [H|H]
  | H : _ && _ = true |- _ => apply andb_true_iff in H; destruct H
  | H : _ || _ = false |- _ => apply orb_false_iff in H; destruct H
  | H : _ && _ = false |- _ => apply andb_false_iff in H; destruct H as [H|H]
  | H : (_ <=? _)%N = true |- _ => apply N.leb_le in H
  | H : (_ <=? _)%N = false |- _ => apply N.leb_gt in H
  | H : (_ <? _)%N = true |- _ => apply N.ltb_lt in H
  | H : (_ <? _)%N = false |- _ => apply N.ltb_ge in H
  | H : (_ =? _)%N = true |- _ => apply N.eqb_eq in H
  | H : (_ =? _)%N = false |- _ => apply N.eqb_neq in H
  end.

Lemma space_not_word (c : char) : isspace c = true -> word_class c = false.
Proof.
  intro H. destruct (word_class c) eqn:W; [exfalso|reflexivity].
  unfold isspace in H.
  unfold word_class, is_ascii_lower, is_ascii_upper, is_ascii_digit in W.
  ranges; lia.
Qed.

Lemma word_not_space (c : char) : word_class c = true -> isspace c = false.
Proof.
  intro W. destruct (isspace c) eqn:H; [|reflexivity].
  apply space_not_word in H. congruence.
Qed.

Lemma word_is_ascii (c : char) : word_class c = true -> (c < 127)%N.
Proof.
  unfold word_class, is_ascii_lower, is_ascii_upper, is_ascii_digit.
  intro W. ranges; lia.
Qed.

Lemma word_not_tab (c : char) : word_class c = true -> c <> TAB.
Proof.
  intros W ->. discriminate W.
Qed.

(** *** [strip] *)

Lemma lstrip_split (s : str) :
  exists ws, s = ws ++ lstrip s /\ Forall (fun c => isspace c = true) ws.
Proof.
  induction s as [|c s (ws & E & F)]; simpl.
  - exists []. now split.
  - destruct (isspace c) eqn:Hc.
    + exists (c :: ws). split; [simpl; congruence | now constructor].
    + exists []. now split.
Qed.

Lemma lstrip_head (s : str) c s' : lstrip s = c :: s' -> isspace c = false.
Proof.
  induction s as [|x s IH]; simpl; [discriminate|].
  destruct (isspace x) eqn:Hx; [exact IH|].
  intros [= -> _]. exact Hx.
Qed.

Lemma lstrip_spaces (ws s : str) :
  Forall (fun c => isspace c = true) ws -> lstrip (ws ++ s) = lstrip s.
Proof.
  induction 1 as [|c ws Hc _ IH]; simpl; [reflexivity|].
  now rewrite Hc.
Qed.

Lemma lstrip_id (s : str) :
  (forall c s', s = c :: s' -> isspace c = false) -> lstrip s = s.
Proof.
  destruct s as [|c s]; simpl; [reflexivity|].
  intro H. now rewrite (H c s eq_refl).
Qed.

Lemma lstrip_all_space (ws : str) :
  Forall (fun c => isspace c = true) ws -> lstrip ws = [].
Proof.
  intro F. rewrite <- (app_nil_r ws). now rewrite lstrip_spaces.
Qed.

Lemma rstrip_split (s : str) :
  exists ws, s = rstrip s ++ ws /\ Forall (fun c => isspace c = true) ws.
Proof.
  unfold rstrip. destruct (lstrip_split (rev s)) as (ws & E & F).
  exists (rev ws). split.
  - rewrite <- rev_app_distr, <- E. symmetry. apply rev_involutive.
  - now apply Forall_rev.
Qed.

Lemma rstrip_last (s : str) s' c : rstrip s = s' ++ [c] -> isspace c = false.
Proof.
  unfold rstrip. intro E.
  apply (f_equal (@rev char)) in E.
  rewrite rev_involutive, rev_app_distr in E. simpl in E.
  now apply lstrip_head in E.
Qed.

Lemma rstrip_spaces (s ws : str) :
  Forall (fun c => isspace c = true) ws -> rstrip (s ++ ws) = rstrip s.
Proof.
  intro F. unfold rstrip. rewrite rev_app_distr.
  rewrite lstrip_spaces; [reflexivity | now apply Forall_rev].
Qed.

Lemma rstrip_id (s : str) :
  (forall s' c, s = s' ++ [c] -> isspace c = false) -> rstrip s = s.
Proof.
  intro H. unfold rstrip. rewrite lstrip_id; [apply rev_involutive|].
  intros c s' E. apply (H (rev s') c).
  rewrite <- (rev_involutive s), E. reflexivity.
Qed.

Lemma rstrip_head (s : str) c s' :
  rstrip s = c :: s' -> exists s'', s = c :: s''.
Proof.
  intro E. destruct (rstrip_split s) as (ws & Es & _).
  rewrite E in Es. simpl in Es. eauto.
Qed.

Lemma strip_split (s : str) :
  exists ws1 ws2,
    s = ws1 ++ strip s ++ ws2
    /\ Forall (fun c => isspace c = true) ws1
    /\ Forall (fun c => isspace c = true) ws2.
Proof.
  destruct (lstrip_split s) as (ws1 & E1 & F1).
  destruct (rstrip_split (lstrip s)) as (ws2 & E2 & F2).
  exists ws1, ws2. unfold strip. repeat split; try assumption.
  now rewrite <- E2.
Qed.

Lemma strip_head (s : str) c s' : strip s = c :: s' -> isspace c = false.
Proof.
  unfold strip. intro E. apply rstrip_head in E as (s'' & E).
  now apply lstrip_head in E.
Qed.

Lemma strip_last (s : str) s' c : strip s = s' ++ [c] -> isspace c = false.
Proof. apply rstrip_last. Qed.

(** A text with no white space at either end, padded with white space,
    strips to itself. *)
Lemma strip_padded (ws1 m ws2 : str) :
  Forall (fun c => isspace c = true) ws1 ->
  Forall (fun c => isspace c = true) ws2 ->
  (forall c s', m = c :: s' -> isspace c = false) ->
  (forall s' c, m = s' ++ [c] -> isspace c = false) ->
  strip (ws1 ++ m ++ ws2) = m.
Proof.
  intros F1 F2 Hh Hl. unfold strip.
  rewrite lstrip_spaces by assumption.
  destruct m as [|c m].
  - simpl. rewrite (lstrip_all_space F2). reflexivity.
  - rewrite lstrip_id.
    + rewrite rstrip_spaces by assumption. now apply rstrip_id.
    + intros c' s' E. simpl in E. injection E as <- _. now apply (Hh c m).
Qed.

End TextFacts.

(** ** Facts about the token scan *)

Module ScanFacts.

Import Py Spec TextFacts.

(** What the scan emits when the match in progress ends. *)
Definition close (cur : str) : list str :=
  if is_empty cur then [] else [cur].

Lemma scan_nil cur : scan cur [] = close cur.
Proof. reflexivity. Qed.

Lemma scan_word cur c s :
  word_class c = true -> scan cur (c :: s) = scan (cur ++ [c]) s.
Proof. intro W. simpl. now rewrite W. Qed.

Lemma scan_other cur c s :
  word_class c = false -> scan cur (c :: s) = close cur ++ scan [] s.
Proof. intro W. simpl. now rewrite W. Qed.

Lemma scan_token cur t s :
  Forall (fun c => word_class c = true) t ->
  scan cur (t ++ s) = scan (cur ++ t) s.
Proof.
  intro F. revert cur. induction F as [|c t Hc _ IH]; intro cur; simpl.
  - now rewrite app_nil_r.
  - rewrite Hc, IH, <- app_assoc. reflexivity.
Qed.

Lemma scan_gap_nil g s : is_gap g -> scan [] (g ++ s) = scan [] s.
Proof.
  induction 1 as [|c g Hc _ IH]; simpl; [reflexivity|].
  now rewrite Hc.
Qed.

Lemma scan_gap cur g s :
  is_gap g -> g <> [] -> scan cur (g ++ s) = close cur ++ scan [] s.
Proof.
  intros G Hne. destruct G as [|c g Hc G]; [contradiction|].
  simpl. rewrite Hc. f_equal. now apply scan_gap_nil.
Qed.

Lemma scan_only_gap cur g : is_gap g -> scan cur g = close cur.
Proof.
  intro G. destruct g as [|c g]; [reflexivity|].
  rewrite <- (app_nil_r (c :: g)), scan_gap by (assumption || discriminate).
  simpl. apply app_nil_r.
Qed.

Lemma scan_app_gap cur s g : is_gap g -> scan cur (s ++ g) = scan cur s.
Proof.
  intro G. revert cur. induction s as [|c s IH]; intro cur; simpl.
  - now apply scan_only_gap.
  - destruct (word_class c); now rewrite IH.
Qed.

Lemma close_token t : is_token t -> close t = [t].
Proof. intros [Hne _]. destruct t; [contradiction|reflexivity]. Qed.

(** The scan of a text cut into maximal tokens yields these tokens. *)
Lemma scan_weave runs :
  maximal_tokens runs ->
  scan [] (flat_map (fun p => fst p ++ snd p) runs) = map fst runs.
Proof.
  induction 1 as [|t g Ht Hg|t g runs Ht Hg Hne Hr _ IH]; simpl.
  - reflexivity.
  - rewrite app_nil_r, scan_token by apply Ht. simpl.
    rewrite scan_only_gap by assumption. now apply close_token.
  - rewrite <- app_assoc, scan_token by apply Ht. simpl.
    rewrite scan_gap by assumption. rewrite close_token by assumption.
    simpl. now rewrite IH.
Qed.

Lemma findall_weave sep0 runs :
  is_gap sep0 -> maximal_tokens runs ->
  findall (weave sep0 runs) = map fst runs.
Proof.
  intros G M. unfold findall, weave.
  rewrite scan_gap_nil by assumption. now apply scan_weave.
Qed.

Lemma is_token_cons c t :
  word_class c = true -> Forall (fun c => word_class c = true) t ->
  is_token (c :: t).
Proof. intros W F. split; [discriminate | now constructor]. Qed.

(** Every text is cut this way. *)
Lemma weave_exists (s : str) :
  exists sep0 runs, s = weave sep0 runs /\ is_gap sep0 /\ maximal_tokens runs.
Proof.
  induction s as [|c s (sep0 & runs & E & G & M)].
  - exists [], []. split; [reflexivity | split; constructor].
  - destruct (word_class c) eqn:W.
    + destruct sep0 as [|d sep0].
      * destruct M as [|t g Ht Hg|t g runs Ht Hg Hne Hr M].
        -- exists [], [([c], [])]. subst s.
           split; [reflexivity | split; [constructor|]].
           constructor; [now apply is_token_cons | constructor].
        -- exists [], [(c :: t, g)]. subst s.
           split; [reflexivity | split; [constructor|]].
           constructor; [apply is_token_cons; [assumption | apply Ht] | assumption].
        -- exists [], ((c :: t, g) :: runs). subst s.
           split; [reflexivity | split; [constructor|]].
           constructor; try assumption.
           apply is_token_cons; [assumption | apply Ht].
      * exists [], (([c], d :: sep0) :: runs). subst s.
        split; [reflexivity | split; [constructor|]].
        destruct runs as [|r runs].
        -- constructor; [now apply is_token_cons | assumption].
        -- constructor; try assumption; try discriminate.
           now apply is_token_cons.
    + exists (c :: sep0), runs. subst s.
      split; [reflexivity | split; [now constructor | assumption]].
Qed.

(** The scan emits no empty token, only characters of the class, and all
    of them in order: every other character is dropped. *)
Lemma scan_nonempty cur s : Forall (fun t => t <> []) (scan cur s).
Proof.
  revert cur. induction s as [|c s IH]; intro cur; simpl.
  - destruct cur; simpl; repeat constructor. discriminate.
  - destruct (word_class c); [apply IH|].
    apply Forall_app. split; [|apply IH].
    destruct cur; simpl; repeat constructor. discriminate.
Qed.

Lemma scan_concat cur s :
  concat (scan cur s) = cur ++ filter word_class s.
Proof.
  revert cur. induction s as [|c s IH]; intro cur; simpl.
  - destruct cur; simpl; [reflexivity | now rewrite app_nil_r].
  - destruct (word_class c) eqn:W.
    + rewrite IH, <- app_assoc. reflexivity.
    + rewrite concat_app, IH. simpl.
      destruct cur; simpl; [reflexivity | now rewrite app_nil_r].
Qed.

Lemma scan_in_class cur s :
  Forall (fun c => word_class c = true) cur ->
  Forall (Forall (fun c => word_class c = true)) (scan cur s).
Proof.
  revert cur. induction s as [|c s IH]; intros cur F; simpl.
  - destruct cur; simpl; repeat constructor; inversion F; assumption.
  - destruct (word_class c) eqn:W.
    + apply IH. apply Forall_app. split; [assumption | now repeat constructor].
    + apply Forall_app. split; [|apply IH; constructor].
      destruct cur; simpl; repeat constructor; inversion F; assumption.
Qed.

Lemma findall_tokens s : Forall is_token (findall s).
Proof.
  unfold findall.
  pose proof (scan_nonempty [] s) as N.
  pose proof (@scan_in_class [] s (Forall_nil _)) as C.
  rewrite Forall_forall in *. intros t Ht. split; auto.
Qed.

(** The scan reads a text only through its characters of the class:
    two texts that agree on them, position by position, scan alike. *)
Definition shape (s : str) : list (option char) :=
  map (fun c => if word_class c then Some c else None) s.

Lemma scan_shape s1 s2 cur : shape s1 = shape s2 -> scan cur s1 = scan cur s2.
Proof.
  revert s2 cur. induction s1 as [|c s1 IH]; intros [|d s2] cur E;
    try discriminate; [reflexivity|].
  simpl in E. injection E as Ec Es. simpl.
  destruct (word_class c), (word_class d); try discriminate.
  - injection Ec as ->. now apply IH.
  - f_equal. now apply IH.
Qed.

Lemma shape_app s1 s2 : shape (s1 ++ s2) = shape s1 ++ shape s2.
Proof. apply map_app. Qed.

End ScanFacts.

(** ** Facts about lower-casing *)

Module LowerFacts.

Import Py Spec TextFacts ScanFacts.

Section Lower.

Context {ucd : UnicodeData}.

(** Lower-casing with the context of every character forgotten. *)
Definition lower0 (s : str) : str := flat_map (fun c => lower_ucs4 [] c []) s.

(** The context decides between two small sigmas only, and neither is in
    the class. *)
Lemma shape_lower_ucs4 b c a :
  shape (lower_ucs4 b c a) = shape (lower_ucs4 [] c []).
Proof.
  unfold lower_ucs4. destruct (c =? 931)%N; [|reflexivity].
  destruct (final_sigma b a), (final_sigma [] []); reflexivity.
Qed.

Lemma shape_do_lower b s : shape (do_lower b s) = shape (lower0 s).
Proof.
  revert b. induction s as [|c s IH]; intro b; simpl; [reflexivity|].
  now rewrite !shape_app, shape_lower_ucs4, IH.
Qed.

Lemma scan_lower cur s : scan cur (lower s) = scan cur (lower0 s).
Proof. apply scan_shape, shape_do_lower. Qed.

Lemma lower0_app s1 s2 : lower0 (s1 ++ s2) = lower0 s1 ++ lower0 s2.
Proof. apply flat_map_app. Qed.

Lemma lower0_spaces ws :
  Forall (fun c => isspace c = true) ws -> lower0 ws = ws.
Proof.
  induction 1 as [|c ws Hc _ IH]; simpl; [reflexivity|].
  rewrite IH. unfold lower_ucs4.
  destruct (c =? 931)%N eqn:E.
  - apply N.eqb_eq in E. subst c. discriminate Hc.
  - now rewrite tolower_full_space.
Qed.

Lemma spaces_gap ws : Forall (fun c => isspace c = true) ws -> is_gap ws.
Proof.
  unfold is_gap. rewrite !Forall_forall. intros H c Hc.
  apply space_not_word. auto.
Qed.

(** [strip] before [lower] changes no token. *)
Lemma findall_lower_strip s : findall (lower (strip s)) = findall (lower s).
Proof.
  destruct (strip_split s) as (ws1 & ws2 & E & F1 & F2).
  unfold findall. rewrite !scan_lower.
  rewrite E at 2.
  rewrite !lower0_app, (lower0_spaces F1), (lower0_spaces F2).
  rewrite scan_gap_nil by now apply spaces_gap.
  rewrite scan_app_gap by now apply spaces_gap.
  reflexivity.
Qed.

Lemma do_lower_ascii b s :
  Forall (fun c => (c < 128)%N) s -> do_lower b s = map ascii_tolower s.
Proof.
  intro F. revert b. induction F as [|c s Hc _ IH]; intro b; simpl.
  - reflexivity.
  - rewrite IH. unfold lower_ucs4.
    destruct (c =? 931)%N eqn:E.
    + apply N.eqb_eq in E. lia.
    + now rewrite tolower_full_ascii.
Qed.

Lemma lower_ascii s :
  Forall (fun c => (c < 128)%N) s -> lower s = map ascii_tolower s.
Proof. apply do_lower_ascii. Qed.

End Lower.

End LowerFacts.

(** ** The tokenizer *)

Module MapperFacts.

Import Py Spec TextFacts ScanFacts LowerFacts.

Section Mapper.

Context {ucd : UnicodeData}.

Lemma print_pair t : print (t ++ [TAB] ++ lit "1") = pair_line t.
Proof. unfold print, pair_line. now rewrite <- !app_assoc. Qed.

Lemma emit_token t : t <> [] -> Mapper.emit t = [pair_line t].
Proof.
  intro H. unfold Mapper.emit. destruct t; [contradiction|].
  simpl Nat.ltb. cbv iota. now rewrite print_pair.
Qed.

Lemma emit_tokens ts :
  Forall (fun t => t <> []) ts -> flat_map Mapper.emit ts = map pair_line ts.
Proof.
  induction 1 as [|t ts Ht _ IH]; simpl; [reflexivity|].
  now rewrite emit_token, IH.
Qed.

Lemma findall_nonempty s : Forall (fun t => t <> []) (findall s).
Proof. apply scan_nonempty. Qed.

(** What one line adds to the output: a pair line per token of the
    lower-cased line. *)
Lemma map_line_spec line :
  Mapper.map_line line = map pair_line (findall (lower line)).
Proof.
  unfold Mapper.map_line. cbv zeta.
  rewrite <- (findall_lower_strip line).
  destruct (is_empty (lower (strip line))) eqn:E.
  - apply is_empty_true in E. now rewrite E.
  - apply emit_tokens, findall_nonempty.
Qed.

Lemma map_line_unguarded_spec line :
  Mapper.map_line_unguarded line = map pair_line (findall (lower line)).
Proof.
  unfold Mapper.map_line_unguarded. cbv zeta.
  rewrite <- (findall_lower_strip line).
  destruct (is_empty (lower (strip line))) eqn:E.
  - apply is_empty_true in E. now rewrite E.
  - apply map_ext. intro t. apply print_pair.
Qed.

Lemma main_app a b : Mapper.main (a ++ b) = Mapper.main a ++ Mapper.main b.
Proof. apply flat_map_app. Qed.

Lemma tolower_word c : word_class c = true -> word_class (ascii_tolower c) = true.
Proof.
  unfold ascii_tolower, word_class, is_ascii_lower, is_ascii_upper,
    is_ascii_digit.
  intro W.
  destruct ((65 <=? c)%N && (c <=? 90)%N) eqn:U; [|now rewrite U].
  apply orb_true_iff. left. apply orb_true_iff. left.
  ranges; apply andb_true_iff; split; apply N.leb_le; lia.
Qed.

Lemma findall_word w :
  w <> [] -> Forall (fun c => word_class c = true) w -> findall w = [w].
Proof.
  intros Hne F. unfold findall.
  rewrite <- (app_nil_r w) at 1. rewrite scan_token by assumption.
  simpl. destruct w; [contradiction|reflexivity].
Qed.

Lemma map_line_word w :
  w <> [] -> Forall (fun c => word_class c = true) w ->
  Mapper.map_line w = [pair_line (map ascii_tolower w)].
Proof.
  intros Hne F. rewrite map_line_spec, lower_ascii.
  - rewrite findall_word; [reflexivity| |].
    + destruct w; [contradiction|discriminate].
    + apply Forall_map. revert F. apply Forall_impl. apply tolower_word.
  - revert F. apply Forall_impl. intros c W. apply word_is_ascii in W. lia.
Qed.

Lemma pair_line_ascii t :
  Forall (fun c => word_class c = true) t ->
  Forall (fun c => (c < 128)%N) (pair_line t).
Proof.
  intro F. unfold pair_line. apply Forall_app. split.
  - revert F. apply Forall_impl. intros c W. apply word_is_ascii in W. lia.
  - repeat constructor.
Qed.

End Mapper.

(** C3: the tokenizer lower-cases the line and emits one pair
    [(token, 1)] for each maximal run of ASCII letters or digits of the
    lower-cased line, left to right, every other character being a
    separator: however the lower-cased line is cut into separators and
    maximal tokens (and it always is), the lines printed are those of
    its tokens in order.  A line whose lower case has no character of
    the class, so an empty, white-space-only or ASCII-punctuation-only
    line, emits nothing; lines with the same lower case emit the same
    pairs, and an ASCII word in any capitalisation emits its lower case. *)
Theorem tokenizer_emits_maximal_runs (ucd : UnicodeData) :
  (forall line, exists sep0 runs,
      lower line = weave sep0 runs /\ is_gap sep0 /\ maximal_tokens runs
      /\ Mapper.map_line line = map pair_line (map fst runs))
  /\ (forall line sep0 runs,
      lower line = weave sep0 runs -> is_gap sep0 -> maximal_tokens runs ->
      Mapper.map_line line = map pair_line (map fst runs))
  /\ (forall stdin,
      Mapper.main stdin
      = flat_map (fun line => map pair_line (findall (lower line))) stdin)
  /\ (forall line, is_gap (lower line) -> Mapper.map_line line = [])
  /\ (forall line,
      Forall (fun c => isspace c = true) line -> Mapper.map_line line = [])
  /\ (forall line,
      Forall (fun c => (c < 128)%N /\ word_class c = false) line ->
      Mapper.map_line line = [])
  /\ (forall w1 w2, lower w1 = lower w2 -> Mapper.map_line w1 = Mapper.map_line w2)
  /\ (forall w, w <> [] -> Forall (fun c => word_class c = true) w ->
      Mapper.map_line w = [pair_line (map ascii_tolower w)]).
Proof.
  assert (U : forall line sep0 runs,
      lower line = weave sep0 runs -> is_gap sep0 -> maximal_tokens runs ->
      Mapper.map_line line = map pair_line (map fst runs)).
  { intros line sep0 runs E G M.
    now rewrite map_line_spec, E, findall_weave. }
  assert (G0 : forall line, is_gap (lower line) -> Mapper.map_line line = []).
  { intros line G. apply (U line (lower line) []); [|assumption|constructor].
    unfold weave. simpl. now rewrite app_nil_r. }
  repeat apply conj.
  - intro line. destruct (weave_exists (lower line)) as (sep0 & runs & E & G & M).
    exists sep0, runs. eauto.
  - exact U.
  - intro stdin. unfold Mapper.main. apply flat_map_ext. intro line.
    apply map_line_spec.
  - exact G0.
  - intros line F. apply G0. unfold lower.
    rewrite <- (lower0_spaces F). unfold is_gap.
    assert (S : shape (do_lower [] line) = shape (lower0 line))
      by apply shape_do_lower.
    rewrite (lower0_spaces F) in *.
    apply spaces_gap in F. unfold is_gap in F.
    revert S F. generalize (do_lower [] line).
    induction line as [|c line IH]; intros [|d l] S F; try discriminate;
      constructor.
    + inversion F; subst. simpl in S. injection S as S _.
      destruct (word_class d), (word_class c); congruence.
    + inversion F; subst. simpl in S. injection S as _ S. now apply IH.
  - intros line F. apply G0. rewrite lower_ascii.
    + apply Forall_map. revert F. apply Forall_impl. intros c [Hc W].
      unfold ascii_tolower. destruct (is_ascii_upper c) eqn:Up; [|exact W].
      unfold word_class in W. rewrite Up in W.
      rewrite orb_true_r in W. discriminate.
    + revert F. apply Forall_impl. tauto.
  - intros w1 w2 E. now rewrite !map_line_spec, E.
  - intros w Hne F. now apply map_line_word.
Qed.

(** C7: the guard [len(word) > 0] never filters: every token found is
    not empty, so the loop body with the guard and the one without it
    print the same lines, for a line and for a whole input; a
    single-character token is emitted like any other. *)
Theorem length_guard_never_filters (ucd : UnicodeData) :
  (forall s, Forall (fun word => (0 <? length word)%nat = true) (findall s))
  /\ (forall line, Mapper.map_line line = Mapper.map_line_unguarded line)
  /\ (forall stdin,
      Mapper.main stdin = flat_map Mapper.map_line_unguarded stdin)
  /\ (forall c, word_class c = true ->
      Mapper.map_line [c] = [pair_line [ascii_tolower c]]).
Proof.
  repeat apply conj.
  - intro s. generalize (findall_nonempty s). apply Forall_impl.
    intros [|c t] H; [contradiction|reflexivity].
  - intro line. now rewrite map_line_spec, map_line_unguarded_spec.
  - intro stdin. unfold Mapper.main. apply flat_map_ext. intro line.
    now rewrite map_line_spec, map_line_unguarded_spec.
  - intros c W. apply (map_line_word (w := [c])); [discriminate|].
    now constructor.
Qed.

(** C8: the tokenizer has a result on every line and every input: the
    lines printed for a line are pair lines of tokens which, put end to
    end, are the characters of the lower-cased line that belong to the
    class, the others being dropped; a line anywhere in the input
    contributes its own pairs and disturbs no other line; and nothing but
    ASCII is ever printed. *)
Theorem tokenizer_never_fails (ucd : UnicodeData) :
  (forall line, exists tokens,
      Mapper.map_line line = map pair_line tokens
      /\ Forall is_token tokens
      /\ concat tokens = filter word_class (lower line))
  /\ (forall before line after,
      Mapper.main (before ++ line :: after)
      = Mapper.main before ++ Mapper.map_line line ++ Mapper.main after)
  /\ (forall stdin,
      Forall (Forall (fun c => (c < 128)%N)) (Mapper.main stdin)).
Proof.
  repeat apply conj.
  - intro line. exists (findall (lower line)).
    repeat apply conj.
    + apply map_line_spec.
    + apply findall_tokens.
    + apply (scan_concat [] (lower line)).
  - intros before line after. now rewrite main_app.
  - intro stdin. unfold Mapper.main. apply Forall_flat_map.
    apply Forall_forall. intros line _. rewrite map_line_spec.
    apply Forall_map. generalize (findall_tokens (lower line)).
    apply Forall_impl. intros t [_ F]. now apply pair_line_ascii.
Qed.

End MapperFacts.

(** ** Facts about [int] and the rendering of integers *)

Module IntFacts.

Import Py Spec TextFacts.

(** The value of a decimal numeral read left to right from [acc]. *)
Fixpoint uint_value (u : Decimal.uint) (acc : Z) : Z :=
  match u with
  | Decimal.Nil => acc
  | Decimal.D0 u' => uint_value u' (10 * acc + 0)
  | Decimal.D1 u' => uint_value u' (10 * acc + 1)
  | Decimal.D2 u' => uint_value u' (10 * acc + 2)
  | Decimal.D3 u' => uint_value u' (10 * acc + 3)
  | Decimal.D4 u' => uint_value u' (10 * acc + 4)
  | Decimal.D5 u' => uint_value u' (10 * acc + 5)
  | Decimal.D6 u' => uint_value u' (10 * acc + 6)
  | Decimal.D7 u' => uint_value u' (10 * acc + 7)
  | Decimal.D8 u' => uint_value u' (10 * acc + 8)
  | Decimal.D9 u' => uint_value u' (10 * acc + 9)
  end%Z.

Lemma of_uint_acc_value u acc :
  Z.pos (Pos.of_uint_acc u acc) = uint_value u (Z.pos acc).
Proof.
  revert acc. induction u; intro acc; cbn [Pos.of_uint_acc uint_value];
    try reflexivity; rewrite IHu; f_equal; lia.
Qed.

Lemma of_uint_value u : Z.of_N (Pos.of_uint u) = uint_value u 0.
Proof.
  induction u; cbn [Pos.of_uint uint_value]; try reflexivity;
    try exact IHu; cbn [Z.of_N]; now rewrite of_uint_acc_value.
Qed.

Lemma to_uint_value p : uint_value (Pos.to_uint p) 0 = Z.pos p.
Proof.
  rewrite <- of_uint_value, DecimalPos.Unsigned.of_to. reflexivity.
Qed.

Lemma chars_of_uint_digits u :
  Forall (fun c => is_ascii_digit c = true) (chars_of_uint u).
Proof. induction u; simpl; constructor; auto. Qed.

Lemma chars_of_uint_nonnil u : u <> Decimal.Nil -> chars_of_uint u <> [].
Proof. destruct u; simpl; congruence. Qed.

Lemma digit_props c :
  is_ascii_digit c = true ->
  (c < 127)%N /\ isspace c = false /\ c_isspace c = false /\ c <> TAB
  /\ c <> 95%N /\ c <> 43%N /\ c <> 45%N.
Proof.
  unfold is_ascii_digit. intro D. ranges.
  assert (S1 : isspace c = false).
  { destruct (isspace c) eqn:S1; [|reflexivity].
    unfold isspace in S1. ranges; lia. }
  assert (S2 : c_isspace c = false).
  { destruct (c_isspace c) eqn:S2; [|reflexivity].
    unfold c_isspace in S2. ranges; lia. }
  unfold TAB. repeat split; try assumption; lia.
Qed.

(** Reading the characters of a numeral gives its value. *)
Lemma scan_digits_uint u acc n rest :
  (forall c r, rest = c :: r -> is_ascii_digit c = false /\ c <> 95%N) ->
  scan_digits false acc n (chars_of_uint u ++ rest)
  = Some (uint_value u acc, (n + Decimal.nb_digits u)%nat, rest).
Proof.
  intro R. revert acc n.
  induction u; intros acc n;
    cbn [chars_of_uint Decimal.nb_digits uint_value app scan_digits];
    try (match goal with
         | |- context [is_ascii_digit ?c] =>
             change (is_ascii_digit c) with true
         end;
         cbv iota; rewrite IHu, <- plus_n_Sm; reflexivity).
  rewrite Nat.add_0_r. destruct rest as [|c r]; [reflexivity|].
  destruct (R c r eq_refl) as [D U]. cbn [scan_digits]. rewrite D.
  apply N.eqb_neq in U. now rewrite U.
Qed.

Lemma skip_space_spaces sp s :
  Forall (fun c => c_isspace c = true) sp -> skip_space (sp ++ s) = skip_space s.
Proof.
  induction 1 as [|c sp Hc _ IH]; simpl; [reflexivity|]. now rewrite Hc.
Qed.

Lemma skip_space_all sp :
  Forall (fun c => c_isspace c = true) sp -> skip_space sp = [].
Proof.
  intro F. rewrite <- (app_nil_r sp). now rewrite skip_space_spaces.
Qed.

Lemma nb_digits_pos u : u <> Decimal.Nil -> exists m, Decimal.nb_digits u = S m.
Proof. destruct u; simpl; try congruence; eauto. Qed.

Lemma uint_first_digit u :
  u <> Decimal.Nil ->
  exists d ds, chars_of_uint u = d :: ds /\ is_ascii_digit d = true.
Proof.
  intro Hu. pose proof (chars_of_uint_digits u) as F.
  destruct (chars_of_uint u) as [|d ds] eqn:Eu.
  - now apply chars_of_uint_nonnil in Eu.
  - inversion F; subst. eauto.
Qed.

(** A numeral followed by optional spaces reads as its value. *)
Lemma digits_to_long_uint sign u trail :
  Forall (fun c => c_isspace c = true) trail ->
  u <> Decimal.Nil ->
  digits_to_long sign (chars_of_uint u ++ trail) = Ok (sign * uint_value u 0)%Z.
Proof.
  intros Ft Hu. unfold digits_to_long.
  assert (Sc : scan_digits false 0 0 (chars_of_uint u ++ trail)
               = Some (uint_value u 0, Decimal.nb_digits u, trail)).
  { rewrite scan_digits_uint; [reflexivity|].
    intros c r ->. inversion Ft; subst.
    unfold c_isspace, is_ascii_digit in *. split.
    - destruct ((48 <=? c)%N && (c <=? 57)%N) eqn:D; [|reflexivity].
      ranges; lia.
    - ranges; lia. }
  rewrite Sc.
  destruct (uint_first_digit Hu) as (d & ds & Eu & Hd).
  destruct (digit_props d Hd) as (_ & _ & _ & _ & U & _ & _).
  destruct (nb_digits_pos Hu) as (m & Em).
  rewrite Eu, Em, (skip_space_all Ft). simpl.
  apply N.eqb_neq in U. now rewrite U.
Qed.

Lemma long_from_string_uint sp u trail :
  Forall (fun c => c_isspace c = true) sp ->
  Forall (fun c => c_isspace c = true) trail ->
  u <> Decimal.Nil ->
  long_from_string (sp ++ chars_of_uint u ++ trail) = Ok (uint_value u 0).
Proof.
  intros Fs Ft Hu. unfold long_from_string.
  rewrite skip_space_spaces by assumption.
  destruct (uint_first_digit Hu) as (d & ds & Eu & Hd).
  destruct (digit_props d Hd) as (_ & _ & Sd & _ & _ & P & M).
  apply N.eqb_neq in P, M.
  assert (E : read_sign (skip_space (chars_of_uint u ++ trail))
              = (1%Z, chars_of_uint u ++ trail)).
  { rewrite Eu. simpl. rewrite Sd. simpl. now rewrite P, M. }
  rewrite E, digits_to_long_uint by assumption.
  f_equal. apply Z.mul_1_l.
Qed.

Lemma long_from_string_signed sp (sg : bool) u trail :
  Forall (fun c => c_isspace c = true) sp ->
  Forall (fun c => c_isspace c = true) trail ->
  u <> Decimal.Nil ->
  long_from_string (sp ++ [if sg then 45%N else 43%N] ++ chars_of_uint u ++ trail)
  = Ok (if sg then - uint_value u 0 else uint_value u 0)%Z.
Proof.
  intros Fs Ft Hu. unfold long_from_string.
  rewrite skip_space_spaces by assumption.
  destruct sg; simpl; rewrite digits_to_long_uint by assumption; f_equal;
    destruct (uint_value u 0); reflexivity.
Qed.

Section Int.

Context {ucd : UnicodeData}.

Lemma transform_ascii s :
  Forall (fun c => (c < 127)%N) s -> transform_decimal_and_space s = s.
Proof.
  intro F. unfold transform_decimal_and_space.
  assert (A : is_ascii s = true).
  { apply forallb_forall. rewrite Forall_forall in F.
    intros c Hc. apply N.ltb_lt. specialize (F c Hc). lia. }
  now rewrite A.
Qed.

Lemma c_space_ascii sp :
  Forall (fun c => c_isspace c = true) sp -> Forall (fun c => (c < 127)%N) sp.
Proof.
  apply Forall_impl. intros c H. unfold c_isspace in H. ranges; lia.
Qed.

Lemma uint_ascii u : Forall (fun c => (c < 127)%N) (chars_of_uint u).
Proof.
  generalize (chars_of_uint_digits u). apply Forall_impl.
  intros c H. now apply digit_props in H.
Qed.

Lemma int_uint sp u trail :
  Forall (fun c => c_isspace c = true) sp ->
  Forall (fun c => c_isspace c = true) trail ->
  u <> Decimal.Nil ->
  int (sp ++ chars_of_uint u ++ trail) = Ok (uint_value u 0).
Proof.
  intros Fs Ft Hu. unfold int. rewrite transform_ascii.
  - now apply long_from_string_uint.
  - repeat (apply Forall_app; split); auto using c_space_ascii, uint_ascii.
Qed.

Lemma int_signed sp (sg : bool) u trail :
  Forall (fun c => c_isspace c = true) sp ->
  Forall (fun c => c_isspace c = true) trail ->
  u <> Decimal.Nil ->
  int (sp ++ [if sg then 45%N else 43%N] ++ chars_of_uint u ++ trail)
  = Ok (if sg then - uint_value u 0 else uint_value u 0)%Z.
Proof.
  intros Fs Ft Hu. unfold int. rewrite transform_ascii.
  - now apply long_from_string_signed.
  - repeat (apply Forall_app; split); auto using c_space_ascii, uint_ascii.
    constructor; [destruct sg; reflexivity | constructor].
Qed.

(** The numeral of a non-negative integer. *)
Definition numeral (n : Z) : Decimal.uint :=
  match n with
  | Z.pos p => Pos.to_uint p
  | _ => Decimal.D0 Decimal.Nil
  end.

Lemma numeral_nonnil n : numeral n <> Decimal.Nil.
Proof.
  destruct n; simpl; try discriminate. apply DecimalPos.Unsigned.to_uint_nonnil.
Qed.

Lemma numeral_value n : (0 <= n)%Z -> uint_value (numeral n) 0 = n.
Proof.
  destruct n; simpl; intro H; [reflexivity | apply to_uint_value | lia].
Qed.

Lemma str_of_int_nonneg n :
  (0 <= n)%Z -> str_of_int n = chars_of_uint (numeral n).
Proof. destruct n; simpl; intro H; [reflexivity | reflexivity | lia]. Qed.

Lemma str_of_int_neg n :
  (n < 0)%Z -> str_of_int n = 45%N :: chars_of_uint (numeral (- n)).
Proof. destruct n; simpl; intro H; [lia | lia | reflexivity]. Qed.

(** Reading back a rendered integer, with optional spaces around it. *)
Lemma int_str_of_int_padded sp n trail :
  Forall (fun c => c_isspace c = true) sp ->
  Forall (fun c => c_isspace c = true) trail ->
  int (sp ++ str_of_int n ++ trail) = Ok n.
Proof.
  intros Fs Ft. destruct (Z.lt_ge_cases n 0) as [Hn|Hn].
  - rewrite str_of_int_neg by assumption.
    etransitivity;
      [apply (@int_signed sp true (numeral (- n)) trail Fs Ft
                (numeral_nonnil _))|].
    rewrite numeral_value by lia. f_equal. lia.
  - rewrite str_of_int_nonneg by assumption.
    etransitivity;
      [apply (@int_uint sp (numeral n) trail Fs Ft (numeral_nonnil _))|].
    now rewrite numeral_value.
Qed.

Lemma int_str_of_int n : int (str_of_int n) = Ok n.
Proof.
  pose proof (@int_str_of_int_padded [] n [] (Forall_nil _) (Forall_nil _)) as H.
  simpl in H. now rewrite app_nil_r in H.
Qed.

(** A non-negative integer written with a plus sign. *)
Lemma int_plus sp n trail :
  Forall (fun c => c_isspace c = true) sp ->
  Forall (fun c => c_isspace c = true) trail ->
  (0 <= n)%Z ->
  int (sp ++ [43%N] ++ str_of_int n ++ trail) = Ok n.
Proof.
  intros Fs Ft Hn. rewrite str_of_int_nonneg by assumption.
  etransitivity;
    [apply (@int_signed sp false (numeral n) trail Fs Ft (numeral_nonnil _))|].
  now rewrite numeral_value.
Qed.

(** The rendering of an integer is not empty and has neither white
    space nor a tab. *)
Lemma str_of_int_chars n :
  str_of_int n <> []
  /\ Forall (fun c => isspace c = false /\ c <> TAB) (str_of_int n).
Proof.
  assert (D : forall u, Forall (fun c => isspace c = false /\ c <> TAB)
                               (chars_of_uint u)).
  { intro u. generalize (chars_of_uint_digits u). apply Forall_impl.
    intros c H. apply digit_props in H. tauto. }
  destruct (Z.lt_ge_cases n 0) as [Hn|Hn].
  - rewrite str_of_int_neg by assumption. split; [discriminate|].
    constructor; [split; [reflexivity | discriminate] | apply D].
  - rewrite str_of_int_nonneg by assumption. split; [|apply D].
    apply chars_of_uint_nonnil, numeral_nonnil.
Qed.

End Int.

End IntFacts.

(** ** Reading a record *)

Module RecordFacts.

Import Py Spec TextFacts IntFacts.

Lemma split_nonempty sep s : split sep s <> [].
Proof.
  destruct s as [|x s]; simpl; [discriminate|].
  destruct (x =? sep)%N; [discriminate|].
  destruct (split sep s); discriminate.
Qed.

Lemma split_one sep s c : split sep s = [c] -> s = c /\ ~ In sep c.
Proof.
  revert c. induction s as [|x s IH]; intros c; simpl.
  - intros [= <-]. auto.
  - destruct (x =? sep)%N eqn:E.
    + intros [= _ Hs]. now apply split_nonempty in Hs.
    + destruct (split sep s) as [|f fs] eqn:Es.
      * now apply split_nonempty in Es.
      * intros [= <- ->]. destruct (IH f eq_refl) as [-> Hn].
        split; [reflexivity|]. intros [->|H]; [|contradiction].
        now rewrite N.eqb_refl in E.
Qed.

Lemma split_two sep s w c :
  split sep s = [w; c] -> s = w ++ sep :: c /\ ~ In sep w /\ ~ In sep c.
Proof.
  revert w. induction s as [|x s IH]; intros w; simpl; [discriminate|].
  destruct (x =? sep)%N eqn:E.
  - intros [= <- Hs]. apply N.eqb_eq in E. subst x.
    apply split_one in Hs as [-> Hn]. auto.
  - destruct (split sep s) as [|f fs] eqn:Es; [discriminate|].
    intros [= <- ->]. destruct (IH f eq_refl) as (-> & Hw & Hc).
    repeat split; try assumption.
    intros [->|H]; [|contradiction]. now rewrite N.eqb_refl in E.
Qed.

Lemma split_no_sep sep s : ~ In sep s -> split sep s = [s].
Proof.
  induction s as [|x s IH]; simpl; intro H; [reflexivity|].
  destruct (x =? sep)%N eqn:E.
  - apply N.eqb_eq in E. subst. tauto.
  - rewrite IH by tauto. reflexivity.
Qed.

Lemma split_at sep w r :
  ~ In sep w -> split sep (w ++ sep :: r) = w :: split sep r.
Proof.
  induction w as [|x w IH]; simpl; intro H.
  - now rewrite N.eqb_refl.
  - destruct (x =? sep)%N eqn:E.
    + apply N.eqb_eq in E. subst. tauto.
    + rewrite IH by tauto. reflexivity.
Qed.


(** A text with a single tab is cut at it in one way only. *)
Lemma cut_unique (w c w' c' : str) :
  w ++ TAB :: c = w' ++ TAB :: c' -> ~ In TAB w' -> ~ In TAB c' ->
  w = w' /\ c = c'.
Proof.
  revert w'. induction w as [|a w IH]; intros [|x w'] E Hw Hc; simpl in *.
  - injection E as ->. auto.
  - injection E as <- _. tauto.
  - injection E as -> <-. exfalso. apply Hc. apply in_or_app. right. now left.
  - injection E as -> E. destruct (IH w' E) as [-> ->]; tauto.
Qed.

Section Records.

Context {ucd : UnicodeData}.

(** A line is a record exactly when, stripped, it is a key, one tab and
    a count that [int] accepts. *)
Lemma record_of_some line k n :
  record_of line = Some (k, n)
  <-> exists cs, strip line = k ++ TAB :: cs
                 /\ ~ In TAB k /\ ~ In TAB cs /\ int cs = Ok n.
Proof.
  unfold record_of, Reducer.parse, Reducer.unpack2. split.
  - destruct (is_empty (strip line)); [discriminate|].
    destruct (split TAB (strip line)) as [|w [|c [|x fs]]] eqn:Es;
      simpl; try discriminate.
    destruct (int c) as [m|e] eqn:Ei; simpl; [|discriminate].
    intros [= <- <-]. apply split_two in Es as (E & Hw & Hc).
    exists c. auto.
  - intros (cs & E & Hk & Hc & Hi). rewrite E.
    rewrite split_at, split_no_sep by assumption.
    destruct (k ++ TAB :: cs) eqn:Ek; [now destruct k|].
    simpl. now rewrite Hi.
Qed.

(** The key of a record is a key as [key_ok] has it. *)
Lemma record_key_ok line k n : record_of line = Some (k, n) -> key_ok k.
Proof.
  intro H. apply record_of_some in H as (cs & E & Hk & _).
  split; [assumption|].
  destruct k as [|c k'].
  - simpl in E. apply strip_head in E. discriminate.
  - exists c, k'. split; [reflexivity|]. now apply strip_head in E.
Qed.

(** A key, a tab, optional spaces, a rendered integer, between white
    space: the record of the key and the integer. *)
Lemma record_of_padded ws1 k sp n ws2 :
  key_ok k ->
  Forall (fun c => isspace c = true) ws1 ->
  Forall (fun c => isspace c = true) ws2 ->
  Forall (fun c => c_isspace c = true /\ c <> TAB) sp ->
  record_of (ws1 ++ (k ++ [TAB] ++ sp ++ str_of_int n) ++ ws2) = Some (k, n).
Proof.
  intros (Hk & c & k' & -> & Hc) F1 F2 Fs.
  destruct (str_of_int_chars n) as [Hne Fn].
  apply record_of_some. exists (sp ++ str_of_int n).
  repeat apply conj.
  - rewrite strip_padded; try assumption.
    + reflexivity.
    + intros d s' E. simpl in E. now injection E as <- _.
    + intros s' d E.
      destruct (exists_last Hne) as (ds & d' & Ed).
      rewrite Ed in E, Fn. rewrite !app_assoc in E.
      apply app_inj_tail in E as [_ <-].
      apply Forall_app in Fn as [_ Fd]. inversion Fd; subst. tauto.
  - assumption.
  - intro H. apply in_app_or in H as [H|H].
    + rewrite Forall_forall in Fs. apply Fs in H. tauto.
    + rewrite Forall_forall in Fn. apply Fn in H. tauto.
  - rewrite <- (app_nil_r (sp ++ str_of_int n)), <- app_assoc.
    apply int_str_of_int_padded; [|constructor].
    revert Fs. apply Forall_impl. tauto.
Qed.

(** The same with an explicit plus sign. *)
Lemma record_of_plus ws1 k sp n ws2 :
  key_ok k ->
  Forall (fun c => isspace c = true) ws1 ->
  Forall (fun c => isspace c = true) ws2 ->
  Forall (fun c => c_isspace c = true /\ c <> TAB) sp ->
  (0 <= n)%Z ->
  record_of (ws1 ++ (k ++ [TAB] ++ sp ++ [43%N] ++ str_of_int n) ++ ws2)
  = Some (k, n).
Proof.
  intros (Hk & c & k' & -> & Hc) F1 F2 Fs Hn.
  destruct (str_of_int_chars n) as [Hne Fn].
  apply record_of_some. exists (sp ++ [43%N] ++ str_of_int n).
  repeat apply conj.
  - rewrite strip_padded; try assumption.
    + reflexivity.
    + intros d s' E. simpl in E. now injection E as <- _.
    + intros s' d E.
      destruct (exists_last Hne) as (ds & d' & Ed).
      rewrite Ed in E, Fn.
      change (((c :: k') ++ [TAB] ++ sp ++ [43%N] ++ ds ++ [d']))
        with ((c :: k') ++ [TAB] ++ sp ++ [43%N] ++ ds ++ [d']) in E.
      rewrite !app_assoc in E.
      apply app_inj_tail in E as [_ <-].
      apply Forall_app in Fn as [_ Fd]. inversion Fd; subst. tauto.
  - assumption.
  - intro H. apply in_app_or in H as [H|H].
    + rewrite Forall_forall in Fs. apply Fs in H. tauto.
    + destruct H as [H|H]; [discriminate H|].
      rewrite Forall_forall in Fn. apply Fn in H. tauto.
  - rewrite <- (app_nil_r (str_of_int n)).
    apply int_plus; [|constructor|assumption].
    revert Fs. apply Forall_impl. tauto.
Qed.

(** A line the reducer prints reads back as the key and the total. *)
Lemma record_of_total_line k n :
  key_ok k -> record_of (total_line k n) = Some (k, n).
Proof.
  intro Hk.
  pose proof (@record_of_padded [] k [] n [LF] Hk) as H.
  unfold total_line. simpl in *. rewrite <- !app_assoc in H.
  apply H; repeat constructor.
Qed.

End Records.

End RecordFacts.

(** ** The aggregator *)

Module ReducerFacts.

Import Py Spec TextFacts IntFacts RecordFacts.
Import Reducer.

(** What the loop body does with a record it has read. *)
Definition feed (st : state) (r : str * Z) : state :=
  if same_word (current_word st) (fst r)
  then {| current_word := current_word st;
          current_count := current_count st + snd r;
          stdout := stdout st |}
  else {| current_word := Some (fst r);
          current_count := snd r;
          stdout := flush st |}.

(** The first of the runs to come does not continue the current group. *)
Definition fresh (st : state) (runs : list key_run) : Prop :=
  match runs with
  | [] => True
  | r :: _ => current_word st <> Some (fst r)
  end.



Lemma same_word_true cw w : same_word cw w = true <-> cw = Some w.
Proof.
  destruct cw as [k|]; simpl.
  - rewrite str_eqb_eq. split; congruence.
  - split; discriminate.
Qed.

Lemma same_word_false cw w : same_word cw w = false <-> cw <> Some w.
Proof.
  rewrite <- same_word_true. destruct (same_word cw w); split; congruence.
Qed.

Lemma print_format k n : print (format k n) = total_line k n.
Proof. unfold print, format, total_line. now rewrite <- !app_assoc. Qed.

Lemma flush_some st k :
  current_word st = Some k ->
  flush st = stdout st ++ [total_line k (current_count st)].
Proof. intro H. unfold flush. now rewrite H, print_format. Qed.


Lemma sum_app cs ds : sum (cs ++ ds) = (sum cs + sum ds)%Z.
Proof. induction cs as [|c cs IH]; simpl; [reflexivity|]. rewrite IH. lia. Qed.

Lemma feed_same st k c :
  current_word st = Some k ->
  feed st (k, c)
  = {| current_word := Some k;
       current_count := current_count st + c;
       stdout := stdout st |}.
Proof.
  intro H. unfold feed. simpl.
  rewrite (proj2 (same_word_true _ _) H). now rewrite H.
Qed.

Lemma feed_new st k c :
  current_word st <> Some k ->
  feed st (k, c)
  = {| current_word := Some k; current_count := c; stdout := flush st |}.
Proof.
  intro H. unfold feed. simpl.
  now rewrite (proj2 (same_word_false _ _) H).
Qed.

(** A run of records of the current word adds up. *)
Lemma feed_run_same cs st k :
  current_word st = Some k ->
  fold_left feed (map (pair k) cs) st
  = {| current_word := Some k;
       current_count := current_count st + sum cs;
       stdout := stdout st |}.
Proof.
  revert st. induction cs as [|c cs IH]; intros st H; simpl.
  - rewrite Z.add_0_r. destruct st; simpl in *. now subst.
  - rewrite feed_same by assumption. rewrite IH by reflexivity.
    simpl. f_equal. lia.
Qed.

(** A run of records of another word flushes the current group and
    ends with the sum of the run. *)
Lemma feed_run_new cs st k :
  cs <> [] -> current_word st <> Some k ->
  fold_left feed (map (pair k) cs) st
  = {| current_word := Some k;
       current_count := sum cs;
       stdout := flush st |}.
Proof.
  intros Hne H. destruct cs as [|c cs]; [contradiction|]. simpl.
  rewrite feed_new by assumption. now rewrite feed_run_same.
Qed.

Lemma maximal_runs_head k cs runs :
  maximal_runs ((k, cs) :: runs) -> cs <> [].
Proof. intro M. inversion M; assumption. Qed.

Lemma maximal_runs_tail r runs : maximal_runs (r :: runs) -> maximal_runs runs.
Proof. intro M. inversion M; subst; [constructor | assumption]. Qed.

Lemma maximal_runs_next k cs r runs :
  maximal_runs ((k, cs) :: r :: runs) -> k <> fst r.
Proof. intro M. inversion M; subst. assumption. Qed.

(** The state after a list of maximal runs: the last run is the current
    group, and the runs before it have been printed, in order. *)
Lemma feed_runs runs k cs st :
  maximal_runs (runs ++ [(k, cs)]) -> fresh st (runs ++ [(k, cs)]) ->
  fold_left feed (expand (runs ++ [(k, cs)])) st
  = {| current_word := Some k;
       current_count := sum cs;
       stdout := flush st ++ map run_line runs |}.
Proof.
  revert st. induction runs as [|[k0 cs0] runs IH]; intros st M F.
  - simpl in *. rewrite !app_nil_r. apply maximal_runs_head in M.
    now apply feed_run_new.
  - simpl app in *. unfold expand in *. simpl flat_map.
    rewrite fold_left_app.
    rewrite (@feed_run_new cs0 st k0 (maximal_runs_head M) F).
    rewrite IH.
    + f_equal. erewrite flush_some by reflexivity.
      cbn [stdout current_count map]. now rewrite <- app_assoc.
    + now apply maximal_runs_tail in M.
    + destruct (runs ++ [(k, cs)]) as [|r rest] eqn:E; [exact I|].
      apply maximal_runs_next in M. simpl. congruence.
Qed.

Lemma maximal_runs_group recs : maximal_runs (group recs).
Proof.
  induction recs as [|[k c] recs IH]; simpl; [constructor|].
  destruct (group recs) as [|[k' cs] runs].
  - constructor. discriminate.
  - destruct (str_eqb k k') eqn:E.
    + inversion IH; subst; constructor; try discriminate; try assumption.
      apply str_eqb_eq in E. now subst.
    + constructor; [discriminate | now apply str_eqb_neq | assumption].
Qed.

Lemma expand_group recs : expand (group recs) = recs.
Proof.
  induction recs as [|[k c] recs IH]; simpl; [reflexivity|].
  destruct (group recs) as [|[k' cs] runs].
  - simpl in *. now rewrite <- IH.
  - destruct (str_eqb k k') eqn:E.
    + apply str_eqb_eq in E. subst k'. unfold expand in *. simpl in *.
      now rewrite IH.
    + unfold expand in *. simpl in *. now rewrite IH.
Qed.

Lemma expand_nil runs : maximal_runs runs -> expand runs = [] -> runs = [].
Proof.
  intros M E. destruct M as [|k cs H|k cs k' cs' runs H _ _];
    [reflexivity| |]; destruct cs; try contradiction; discriminate.
Qed.

(** The sum of the totals of the runs is the sum of all counts. *)
Lemma sum_runs runs :
  sum (map (fun r => sum (snd r)) runs) = sum (map snd (expand runs)).
Proof.
  induction runs as [|[k cs] runs IH]; simpl; [reflexivity|].
  unfold expand in *. simpl. rewrite map_app, sum_app, IH. f_equal.
  rewrite map_map. simpl. now rewrite map_id.
Qed.

Section Reducer.

Context {ucd : UnicodeData}.

(** The loop body: a line that is no record changes nothing, a record
    is fed. *)
Lemma step_record st line :
  step st line = match record_of line with
                 | Some r => feed st r
                 | None => st
                 end.
Proof.
  unfold step, record_of. destruct (is_empty (strip line)); [reflexivity|].
  destruct (parse (strip line)) as [[w c]|[]]; reflexivity.
Qed.

Lemma records_app a b : records (a ++ b) = records a ++ records b.
Proof. apply flat_map_app. Qed.

Lemma records_one line :
  records [line] = match record_of line with Some r => [r] | None => [] end.
Proof. unfold records. simpl. apply app_nil_r. Qed.

Lemma fold_step stdin st :
  fold_left step stdin st = fold_left feed (records stdin) st.
Proof.
  revert st. induction stdin as [|line stdin IH]; intro st; [reflexivity|].
  change (line :: stdin) with ([line] ++ stdin) at 2.
  rewrite records_app, fold_left_app, records_one. simpl.
  rewrite IH, step_record. now destruct (record_of line).
Qed.

Lemma run_records stdin : run stdin = fold_left feed (records stdin) init.
Proof. apply fold_step. Qed.

(** The reducer on any input: the state it ends in and what it prints,
    from the maximal runs of the records of the input. *)
Lemma run_runs stdin runs k cs :
  expand (runs ++ [(k, cs)]) = records stdin ->
  maximal_runs (runs ++ [(k, cs)]) ->
  run stdin = {| current_word := Some k;
                 current_count := sum cs;
                 stdout := map run_line runs |}.
Proof.
  intros E M. rewrite run_records, <- E, feed_runs; try assumption.
  - reflexivity.
  - destruct runs; simpl; discriminate.
Qed.

Lemma run_no_record stdin : records stdin = [] -> run stdin = init.
Proof. intro E. now rewrite run_records, E. Qed.

Lemma main_no_record stdin : records stdin = [] -> main stdin = [].
Proof. intro E. unfold main. now rewrite run_no_record. Qed.

(** What the reducer prints, on any input: the lines of the maximal
    runs of its records, in order. *)
Lemma main_runs stdin runs :
  expand runs = records stdin -> maximal_runs runs ->
  main stdin = map run_line runs.
Proof.
  intros E M. destruct runs as [|r0 runs0] eqn:Er.
  - now apply main_no_record.
  - rewrite <- Er in *.
    destruct (@exists_last _ runs) as (runs' & [k cs] & ->); [congruence|].
    unfold main. rewrite (run_runs _ _ _ _ E M).
    erewrite flush_some by reflexivity. now rewrite map_app.
Qed.

Lemma main_group stdin : main stdin = map run_line (group (records stdin)).
Proof. apply main_runs; [apply expand_group | apply maximal_runs_group]. Qed.

Lemma records_well_formed stdin recs :
  Forall2 (fun line r => record_of line = Some r) stdin recs ->
  records stdin = recs.
Proof.
  induction 1 as [|line r stdin recs H _ IH]; [reflexivity|].
  unfold records in *. simpl. now rewrite H, IH.
Qed.

Lemma records_malformed a line b :
  malformed line -> records (a ++ line :: b) = records (a ++ b).
Proof.
  intro H. change (line :: b) with ([line] ++ b).
  rewrite !records_app, records_one, H. reflexivity.
Qed.



End Reducer.



(** *** Exact totals and lenient records *)

(** The wire format between the two stages, read as widely as its
    description allows: a key, one tab, one or more ASCII digits, a line
    break. *)
Definition wire_format (line : str) : Prop :=
  exists k ds,
    key_ok k /\ ds <> [] /\ Forall (fun c => is_ascii_digit c = true) ds
    /\ line = k ++ [TAB] ++ ds ++ [LF].

Lemma digits_uint ds :
  Forall (fun c => is_ascii_digit c = true) ds ->
  exists u, chars_of_uint u = ds /\ (ds <> [] -> u <> Decimal.Nil).
Proof.
  induction 1 as [|c ds Hc _ (u & E & _)].
  - exists Decimal.Nil. split; [reflexivity | congruence].
  - unfold is_ascii_digit in Hc. ranges.
    assert (D : (c = 48 \/ c = 49 \/ c = 50 \/ c = 51 \/ c = 52 \/ c = 53
                 \/ c = 54 \/ c = 55 \/ c = 56 \/ c = 57)%N) by lia.
    destruct D as [->|[->|[->|[->|[->|[->|[->|[->|[->| ->]]]]]]]]];
      [exists (Decimal.D0 u) | exists (Decimal.D1 u) | exists (Decimal.D2 u)
      | exists (Decimal.D3 u) | exists (Decimal.D4 u) | exists (Decimal.D5 u)
      | exists (Decimal.D6 u) | exists (Decimal.D7 u) | exists (Decimal.D8 u)
      | exists (Decimal.D9 u)];
      (split; [simpl; now rewrite E | discriminate]).
Qed.

Lemma key_ok_word : key_ok (lit "word").
Proof.
  split.
  - simpl. unfold TAB. intuition discriminate.
  - eexists _, _. split; reflexivity.
Qed.

Section Lenient.

Context {ucd : UnicodeData}.

Lemma wire_format_well_formed line : wire_format line -> well_formed line.
Proof.
  intros (k & ds & Hk & Hne & Fd & ->).
  destruct (digits_uint Fd) as (u & <- & Hu). specialize (Hu Hne).
  assert (R : record_of (k ++ [TAB] ++ chars_of_uint u ++ [LF])
              = Some (k, uint_value u 0)).
  { destruct Hk as (Hk & c & k' & -> & Hc).
    apply record_of_some. exists (chars_of_uint u). repeat apply conj.
    - pose proof (@strip_padded [] ((c :: k') ++ [TAB] ++ chars_of_uint u) [LF])
        as S.
      simpl in S. rewrite <- app_assoc in S. simpl in S. simpl.
      apply S; try (repeat constructor).
      + now intros d s' [= <- _].
      + intros s' d E.
        destruct (@exists_last _ (chars_of_uint u) Hne) as (ds & d' & Ed).
        rewrite Ed in E, Fd.
        change (c :: k' ++ TAB :: ds ++ [d'])
          with ((c :: k') ++ [TAB] ++ ds ++ [d']) in E.
        rewrite !app_assoc in E. apply app_inj_tail in E as [_ <-].
        apply Forall_app in Fd as [_ Fd]. inversion Fd; subst.
        now apply digit_props.
    - assumption.
    - intro H. pose proof (chars_of_uint_digits u) as F.
      rewrite Forall_forall in F. apply F in H. now apply digit_props in H.
    - pose proof (@int_uint _ [] u [] (Forall_nil _) (Forall_nil _) Hu) as I.
      simpl in I. now rewrite app_nil_r in I. }
  unfold well_formed. now rewrite R.
Qed.

End Lenient.

End ReducerFacts.

(** ** The pipeline: tokenizer, sort, aggregator *)

Module PipelineFacts.

Import Py Spec TextFacts ScanFacts LowerFacts IntFacts RecordFacts.
Import MapperFacts ReducerFacts.

Lemma token_key_ok t : is_token t -> key_ok t.
Proof.
  intros [Hne F]. split.
  - intro H. rewrite Forall_forall in F. apply F in H. discriminate H.
  - destruct t as [|c t]; [contradiction|]. exists c, t.
    split; [reflexivity|]. inversion F; subst. now apply word_not_space.
Qed.

Lemma insert_line_perm l sorted : Permutation (l :: sorted) (insert_line l sorted).
Proof.
  induction sorted as [|m sorted IH]; simpl; [reflexivity|].
  destruct (str_leb l m); [reflexivity|].
  rewrite perm_swap. now constructor.
Qed.

Lemma sort_barrier_perm lines : Permutation lines (sort_barrier lines).
Proof.
  induction lines as [|l lines IH]; simpl; [constructor|].
  rewrite <- insert_line_perm. now constructor.
Qed.

Lemma sum_perm a b : Permutation a b -> sum a = sum b.
Proof. induction 1; simpl; lia. Qed.

Lemma sum_ones (tokens : list str) :
  sum (map snd (map (fun t => (t, 1%Z)) tokens)) = Z.of_nat (length tokens).
Proof.
  induction tokens as [|t ts IH]; [reflexivity|].
  cbn [map snd sum fold_right length]. unfold sum in IH. rewrite IH. lia.
Qed.

Lemma group_keys recs (P : str -> Prop) :
  Forall (fun r => P (fst r)) recs -> Forall (fun r => P (fst r)) (group recs).
Proof.
  induction 1 as [|[k c] recs Hk _ IH]; simpl; [constructor|].
  destruct (group recs) as [|[k' cs] runs].
  - constructor; [assumption | constructor].
  - destruct (str_eqb k k'); inversion IH; subst.
    + constructor; assumption.
    + constructor; [assumption|]. constructor; assumption.
Qed.

Section Pipeline.

Context {ucd : UnicodeData}.

Lemma record_of_pair_line t : is_token t -> record_of (pair_line t) = Some (t, 1%Z).
Proof.
  intro H. apply (record_of_total_line 1 (token_key_ok H)).
Qed.

Lemma records_pair_lines tokens :
  Forall is_token tokens ->
  records (map pair_line tokens) = map (fun t => (t, 1%Z)) tokens.
Proof.
  induction 1 as [|t ts Ht _ IH]; [reflexivity|].
  unfold records in *. simpl. now rewrite record_of_pair_line, IH.
Qed.

(** The output of the tokenizer is the pair lines of the tokens of its
    input. *)
Lemma mapper_tokens text :
  exists tokens, Mapper.main text = map pair_line tokens /\ Forall is_token tokens.
Proof.
  exists (flat_map (fun line => findall (lower line)) text). split.
  - unfold Mapper.main. induction text as [|line text IH]; [reflexivity|].
    simpl. now rewrite map_app, map_line_spec, IH.
  - apply Forall_flat_map. apply Forall_forall. intros line _.
    apply findall_tokens.
Qed.

Lemma records_perm a b : Permutation a b -> Permutation (records a) (records b).
Proof. apply Permutation_flat_map. Qed.

Lemma records_keys stdin : Forall (fun r => key_ok (fst r)) (records stdin).
Proof.
  unfold records. apply Forall_flat_map. apply Forall_forall. intros line _.
  destruct (record_of line) as [[k n]|] eqn:E; [|constructor].
  constructor; [|constructor]. simpl. now apply record_key_ok in E.
Qed.

(** The output of the aggregator reads back as the totals of the runs. *)
Lemma records_main stdin :
  records (Reducer.main stdin)
  = map (fun r => (fst r, sum (snd r))) (group (records stdin)).
Proof.
  rewrite main_group.
  pose proof (group_keys key_ok (records_keys stdin)) as K.
  induction K as [|[k cs] runs Hk _ IH]; [reflexivity|].
  unfold records in *. simpl. unfold run_line at 1. simpl.
  now rewrite record_of_total_line, IH.
Qed.

End Pipeline.

(** C2: conservation of the total count.  Feed the aggregator the pairs
    the tokenizer emits for a text, reordered in any way (sorted by key,
    as the sort between the stages does, or otherwise): the lines it
    prints are total lines whose counts add up to the number of pairs
    the tokenizer emitted. *)
Theorem pipeline_conserves_count (ucd : UnicodeData) text shuffled :
  Permutation (Mapper.main text) shuffled ->
  exists totals,
    Reducer.main shuffled = map (fun p => total_line (fst p) (snd p)) totals
    /\ records (Reducer.main shuffled) = totals
    /\ sum (map snd totals) = Z.of_nat (length (Mapper.main text)).
Proof.
  intro P.
  exists (map (fun r => (fst r, sum (snd r))) (group (records shuffled))).
  repeat apply conj.
  - rewrite main_group, map_map. reflexivity.
  - apply records_main.
  - rewrite map_map. simpl.
    rewrite sum_runs, expand_group.
    apply records_perm in P.
    rewrite <- (sum_perm (Permutation_map snd P)).
    destruct (mapper_tokens text) as (tokens & -> & F).
    rewrite records_pair_lines by assumption.
    now rewrite sum_ones, length_map.
Qed.

End PipelineFacts.

(** ** A concrete character database, examples and instances *)

Module Samples.

Import Py Spec TextFacts ScanFacts LowerFacts IntFacts RecordFacts.
Import MapperFacts ReducerFacts PipelineFacts.
Import Reducer.

Local Open Scope N_scope.

(** A small character database to run the scripts on: ASCII and Latin-1
    letters, the two code points whose lower case falls in ASCII (capital
    I with dot above, and the Kelvin sign), the Angstrom sign, and the
    ASCII, Arabic-Indic and full-width digits.  On ASCII text it is the
    Unicode character database. *)
Definition basic_tolower_full (c : char) : str :=
  if c <? 128 then [ascii_tolower c]
  else if (0xC0 <=? c) && (c <=? 0xDE) && negb (c =? 0xD7) then [c + 32]
  else if c =? 0x130 then [0x69; 0x307]
  else if c =? 0x212A then [0x6B]
  else if c =? 0x212B then [0xE5]
  else [c].

Definition basic_letter (c : char) : bool :=
  is_ascii_lower c || is_ascii_upper c
  || ((0xC0 <=? c) && (c <=? 0xFF)) || ((0x370 <=? c) && (c <=? 0x3FF)).

Definition basic_final_sigma (before after : str) : bool :=
  match rev before with
  | [] => false
  | p :: _ =>
      basic_letter p
      && match after with
         | [] => true
         | n :: _ => negb (basic_letter n)
         end
  end.

Definition basic_todecimal (c : char) : option N :=
  if (0x30 <=? c) && (c <=? 0x39) then Some (c - 0x30)
  else if (0x660 <=? c) && (c <=? 0x669) then Some (c - 0x660)
  else if (0xFF10 <=? c) && (c <=? 0xFF19) then Some (c - 0xFF10)
  else None.

Lemma basic_tolower_full_ascii c :
  c < 128 -> basic_tolower_full c = [ascii_tolower c].
Proof.
  intro H. unfold basic_tolower_full. apply N.ltb_lt in H. now rewrite H.
Qed.

Lemma basic_tolower_full_space c :
  isspace c = true -> basic_tolower_full c = [c].
Proof.
  intro H. unfold basic_tolower_full, ascii_tolower, is_ascii_upper.
  unfold isspace in H.
  destruct (c <? 128) eqn:A.
  - destruct ((65 <=? c) && (c <=? 90)) eqn:U; [|reflexivity].
    exfalso. ranges; lia.
  - destruct ((0xC0 <=? c) && (c <=? 0xDE) && negb (c =? 0xD7)) eqn:L.
    + exfalso. apply andb_true_iff in L as [L _]. ranges; lia.
    + destruct (c =? 0x130) eqn:E1; [exfalso; ranges; lia|].
      destruct (c =? 0x212A) eqn:E2; [exfalso; ranges; lia|].
      destruct (c =? 0x212B) eqn:E3; [exfalso; ranges; lia|].
      reflexivity.
Qed.

Lemma basic_todecimal_ascii c :
  c < 128 ->
  basic_todecimal c = if is_ascii_digit c then Some (c - 48) else None.
Proof.
  intro H. unfold basic_todecimal, is_ascii_digit.
  destruct ((48 <=? c) && (c <=? 57)); [reflexivity|].
  destruct ((0x660 <=? c) && (c <=? 0x669)) eqn:A; [exfalso; ranges; lia|].
  destruct ((0xFF10 <=? c) && (c <=? 0xFF19)) eqn:F; [exfalso; ranges; lia|].
  reflexivity.
Qed.

Lemma basic_todecimal_digit c d : basic_todecimal c = Some d -> d < 10.
Proof.
  unfold basic_todecimal.
  destruct ((0x30 <=? c) && (c <=? 0x39)) eqn:D;
    [intros [= <-]; ranges; lia|].
  destruct ((0x660 <=? c) && (c <=? 0x669)) eqn:A;
    [intros [= <-]; ranges; lia|].
  destruct ((0xFF10 <=? c) && (c <=? 0xFF19)) eqn:F;
    [intros [= <-]; ranges; lia | discriminate].
Qed.

#[export] Instance basic_ucd : UnicodeData :=
  {| tolower_full := basic_tolower_full;
     final_sigma := basic_final_sigma;
     todecimal := basic_todecimal;
     tolower_full_ascii := basic_tolower_full_ascii;
     tolower_full_space := basic_tolower_full_space;
     todecimal_ascii := basic_todecimal_ascii;
     todecimal_digit := basic_todecimal_digit |}.

(** *** The examples of the specification *)

Definition record_line (k : String.string) (count : String.string) : str :=
  lit k ++ [TAB] ++ lit count ++ [LF].

Arguments record_line k%_string count%_string.

Definition sample_text : list str :=
  [lit "The THE the" ++ [LF];
   lit "hello, world! hello-world" ++ [LF];
   lit "   " ++ [LF];
   [LF]].

Definition sample_sorted : list str :=
  [record_line "apple" "1"; record_line "apple" "1";
   record_line "banana" "1"; record_line "banana" "1";
   record_line "banana" "1"; record_line "cherry" "1"].

Example tokenize_case :
  Mapper.main [lit "The THE the" ++ [LF]]
  = [record_line "the" "1"; record_line "the" "1"; record_line "the" "1"].
Proof. reflexivity. Qed.

Example tokenize_separators :
  Mapper.main [lit "hello, world! hello-world" ++ [LF]]
  = [record_line "hello" "1"; record_line "world" "1";
     record_line "hello" "1"; record_line "world" "1"].
Proof. reflexivity. Qed.

Example tokenize_blank : Mapper.main [lit "   " ++ [LF]; [LF]; []] = [].
Proof. reflexivity. Qed.

(** The Kelvin sign is not ASCII, its lower case is: it ends up in a token. *)
Example tokenize_kelvin :
  Mapper.main [[50; 55; 51; 0x212A] ++ [LF]] = [record_line "273k" "1"].
Proof. reflexivity. Qed.

Example aggregate_sorted :
  Reducer.main sample_sorted
  = [record_line "apple" "2"; record_line "banana" "3";
     record_line "cherry" "1"].
Proof. reflexivity. Qed.

Example aggregate_with_malformed :
  Reducer.main [record_line "apple" "1"; lit "oops" ++ [LF];
                record_line "word" "NaN"; record_line "apple" "1";
                record_line "banana" "1"]
  = [record_line "apple" "2"; record_line "banana" "1"].
Proof. reflexivity. Qed.

Example aggregate_unsorted :
  Reducer.main [record_line "apple" "1"; record_line "banana" "1";
                record_line "apple" "1"]
  = [record_line "apple" "1"; record_line "banana" "1";
     record_line "apple" "1"].
Proof. reflexivity. Qed.

Example pipeline_sample :
  Reducer.main (sort_barrier (Mapper.main sample_text))
  = [record_line "hello" "2"; record_line "the" "3"; record_line "world" "2"].
Proof. reflexivity. Qed.

Example int_examples :
  int (lit " +1_000 ") = Ok 1000%Z
  /\ int (lit "007") = Ok 7%Z
  /\ int (lit "-3") = Ok (-3)%Z
  /\ int [0x663] = Ok 3%Z
  /\ int (lit "1__0") = Raise ValueError
  /\ int (lit "_1") = Raise ValueError
  /\ int (lit "- 1") = Raise ValueError
  /\ int (lit "1.0") = Raise ValueError
  /\ int (lit "NaN") = Raise ValueError
  /\ int (lit "") = Raise ValueError.
Proof. repeat split. Qed.

(** *** The theorems at concrete inputs *)

Lemma lit_neq (a b : String.string) : str_eqb (lit a) (lit b) = false -> lit a <> lit b.
Proof. apply str_eqb_neq. Defined.

(** The pairs of the sample text, sorted: seven pairs in, totals adding
    up to seven out. *)
Lemma pipeline_conserves_count_witness :
  Permutation (Mapper.main sample_text) (sort_barrier (Mapper.main sample_text))
  /\ exists totals,
       Reducer.main (sort_barrier (Mapper.main sample_text))
       = map (fun p => total_line (fst p) (snd p)) totals
       /\ records (Reducer.main (sort_barrier (Mapper.main sample_text)))
          = totals
       /\ sum (map snd totals) = Z.of_nat (length (Mapper.main sample_text)).
Proof.
  split.
  - apply sort_barrier_perm.
  - apply (pipeline_conserves_count basic_ucd sample_text
             (sort_barrier_perm (Mapper.main sample_text))).
Defined.

(** A line cut by hand into separators and maximal tokens. *)
Lemma tokenizer_emits_maximal_runs_witness :
  lower (lit "Hello, World!")
  = weave [] [(lit "hello", lit ", "); (lit "world", lit "!")]
  /\ Mapper.map_line (lit "Hello, World!")
     = map pair_line [lit "hello"; lit "world"].
Proof.
  split; [reflexivity|].
  apply (proj1 (proj2 (tokenizer_emits_maximal_runs basic_ucd))
           (lit "Hello, World!") []
           [(lit "hello", lit ", "); (lit "world", lit "!")]).
  - reflexivity.
  - constructor.
  - constructor.
    + split; [discriminate | repeat constructor].
    + repeat constructor.
    + discriminate.
    + discriminate.
    + constructor; [split; [discriminate | repeat constructor]
                   | repeat constructor].
Defined.



(** A one-letter line. *)
Lemma length_guard_never_filters_witness :
  word_class 65 = true
  /\ Mapper.map_line [65] = [pair_line [ascii_tolower 65]].
Proof.
  split; [reflexivity|].
  apply (proj2 (proj2 (proj2 (length_guard_never_filters basic_ucd)))).
  reflexivity.
Defined.

End Samples.

(** ** More on the aggregator: totals per key, grouping, combining *)

Module ReducerMore.

Import Py Spec TextFacts IntFacts RecordFacts ReducerFacts PipelineFacts.

(** The records the reducer's output stands for: a key and a total for
    each key run of the records read. *)
Definition totals (recs : list (str * Z)) : list (str * Z) :=
  map (fun r => (fst r, sum (snd r))) (group recs).

(** A record put in front of a list of totals: added to the first total
    when the key is the same, a total of its own otherwise. *)
Definition combine (r : str * Z) (g : list (str * Z)) : list (str * Z) :=
  match g with
  | [] => [r]
  | (k', t) :: g' =>
      if str_eqb (fst r) k' then (fst r, (snd r + t)%Z) :: g' else r :: g
  end.

(** The sum of the counts of the records of key [k]. *)
Definition count_of (k : str) (recs : list (str * Z)) : Z :=
  sum (map snd (filter (fun r => str_eqb (fst r) k) recs)).

(** The keys come grouped: between two occurrences of a key there is
    nothing but that key.  This is what the sort before the reducer is
    there to give. *)
Definition grouped (ks : list str) : Prop :=
  forall a k b c, ks = a ++ k :: b ++ k :: c -> Forall (eq k) b.

(** A test for [grouped]: once the run of the first key is over, the key
    does not come back, and so on down the list. *)
Fixpoint skip_key (k : str) (ks : list str) : list str :=
  match ks with
  | [] => []
  | k' :: ks' => if str_eqb k k' then skip_key k ks' else ks
  end.

Fixpoint groupedb (ks : list str) : bool :=
  match ks with
  | [] => true
  | k :: ks' => negb (existsb (str_eqb k) (skip_key k ks')) && groupedb ks'
  end.

Lemma totals_cons r recs : totals (r :: recs) = combine r (totals recs).
Proof.
  destruct r as [k c]. unfold totals. simpl.
  destruct (group recs) as [|[k' cs] runs]; simpl.
  - now rewrite Z.add_0_r.
  - destruct (str_eqb k k'); simpl; [reflexivity|].
    now rewrite Z.add_0_r.
Qed.

Lemma combine_twice k c t g :
  combine (k, c) (combine (k, t) g) = combine (k, (c + t)%Z) g.
Proof.
  destruct g as [|[k2 t2] g]; simpl.
  - now rewrite str_eqb_refl.
  - destruct (str_eqb k k2) eqn:E; simpl.
    + rewrite str_eqb_refl. simpl. now rewrite Z.add_assoc.
    + now rewrite str_eqb_refl.
Qed.

Lemma totals_combine_app r g y :
  totals (combine r g ++ y) = combine r (totals (g ++ y)).
Proof.
  destruct r as [k c]. destruct g as [|[k' t] g]; simpl.
  - apply totals_cons.
  - destruct (str_eqb k k') eqn:E.
    + apply str_eqb_eq in E. subst k'. simpl.
      now rewrite !totals_cons, combine_twice.
    + simpl. now rewrite !totals_cons.
Qed.

Lemma totals_totals_app x y : totals (totals x ++ y) = totals (x ++ y).
Proof.
  induction x as [|r x IH]; [reflexivity|].
  simpl app. now rewrite !totals_cons, totals_combine_app, IH.
Qed.

Lemma totals_idem x : totals (totals x) = totals x.
Proof.
  pose proof (totals_totals_app x []) as H. now rewrite !app_nil_r in H.
Qed.

Lemma totals_app_totals x y : totals (x ++ totals y) = totals (x ++ y).
Proof.
  induction x as [|r x IH]; simpl; [apply totals_idem|].
  now rewrite !totals_cons, IH.
Qed.

Lemma count_of_cons k r recs :
  count_of k (r :: recs)
  = ((if str_eqb (fst r) k then snd r else 0) + count_of k recs)%Z.
Proof.
  unfold count_of. simpl. destruct (str_eqb (fst r) k); reflexivity.
Qed.

Lemma count_of_combine k r g : count_of k (combine r g) = count_of k (r :: g).
Proof.
  destruct r as [k0 c]. destruct g as [|[k' t] g]; [reflexivity|].
  simpl. destruct (str_eqb k0 k') eqn:E; [|reflexivity].
  apply str_eqb_eq in E. subst k'. rewrite !count_of_cons. simpl.
  destruct (str_eqb k0 k); lia.
Qed.

Lemma count_of_totals k recs : count_of k (totals recs) = count_of k recs.
Proof.
  induction recs as [|r recs IH]; [reflexivity|].
  now rewrite totals_cons, count_of_combine, !count_of_cons, IH.
Qed.

Lemma count_of_perm k a b : Permutation a b -> count_of k a = count_of k b.
Proof.
  intro P. unfold count_of. apply sum_perm, Permutation_map.
  induction P; simpl.
  - constructor.
  - destruct (str_eqb (fst x) k); [now constructor | assumption].
  - destruct (str_eqb (fst x) k), (str_eqb (fst y) k);
      try reflexivity. apply perm_swap.
  - now transitivity (filter (fun r => str_eqb (fst r) k) l').
Qed.

Lemma combine_head r g : exists t g', combine r g = (fst r, t) :: g'.
Proof.
  destruct r as [k c]. destruct g as [|[k' t] g]; simpl; [eauto|].
  destruct (str_eqb k k'); eauto.
Qed.

Lemma combine_keys r g k :
  In k (map fst (combine r g)) <-> In k (map fst (r :: g)).
Proof.
  destruct r as [k0 c]. destruct g as [|[k' t] g]; simpl; [reflexivity|].
  destruct (str_eqb k0 k') eqn:E; simpl; [|reflexivity].
  apply str_eqb_eq in E. subst k'. tauto.
Qed.

Lemma totals_keys recs k : In k (map fst (totals recs)) <-> In k (map fst recs).
Proof.
  induction recs as [|r recs IH]; [reflexivity|].
  rewrite totals_cons, combine_keys. simpl. now rewrite IH.
Qed.

Lemma totals_head r recs : exists t g, totals (r :: recs) = (fst r, t) :: g.
Proof. rewrite totals_cons. apply combine_head. Qed.

Lemma grouped_tail k ks : grouped (k :: ks) -> grouped ks.
Proof.
  intros G a k0 b c E. apply (G (k :: a) k0 b c). simpl. now rewrite E.
Qed.

(** With grouped keys, no key gets two totals. *)
Lemma totals_nodup recs :
  grouped (map fst recs) -> NoDup (map fst (totals recs)).
Proof.
  induction recs as [|[k c] recs IH]; intro G; [constructor|].
  specialize (IH (grouped_tail G)).
  rewrite totals_cons. destruct recs as [|r recs].
  - simpl. constructor; [tauto | constructor].
  - destruct (totals_head r recs) as (t & g & E). rewrite E in *.
    simpl combine. destruct (str_eqb k (fst r)) eqn:Ek.
    + apply str_eqb_eq in Ek. simpl in *. now rewrite Ek.
    + apply str_eqb_neq in Ek. simpl. constructor; [|exact IH].
      intros [H|H]; [congruence|].
      assert (Hin : In k (map fst (totals (r :: recs)))).
      { rewrite E. simpl. now right. }
      apply (proj1 (totals_keys (r :: recs) k)) in Hin. simpl in Hin.
      destruct Hin as [Hin|Hin]; [congruence|].
      apply in_split in Hin as (x & y & Exy).
      specialize (G [] k (fst r :: x) y). simpl in G.
      rewrite Exy in G. specialize (G eq_refl).
      inversion G; subst. congruence.
Qed.

Lemma count_of_absent k l : ~ In k (map fst l) -> count_of k l = 0%Z.
Proof.
  induction l as [|[k' t] l IH]; intro H; [reflexivity|].
  rewrite count_of_cons. simpl in *.
  destruct (str_eqb k' k) eqn:E.
  - apply str_eqb_eq in E. tauto.
  - rewrite IH by tauto. reflexivity.
Qed.

Lemma count_of_nodup k t l :
  NoDup (map fst l) -> In (k, t) l -> count_of k l = t.
Proof.
  induction l as [|[k' t'] l IH]; intros N H; [contradiction|].
  simpl in N. inversion N; subst. rewrite count_of_cons. simpl.
  destruct H as [H|H].
  - injection H as -> ->. rewrite str_eqb_refl.
    rewrite count_of_absent by assumption. lia.
  - destruct (str_eqb k' k) eqn:E.
    + apply str_eqb_eq in E. subst k'.
      exfalso. apply H2. apply (in_map fst) in H. exact H.
    + rewrite IH by assumption. reflexivity.
Qed.

Lemma skip_key_spec k ks :
  exists run, ks = run ++ skip_key k ks /\ Forall (eq k) run
              /\ (forall k' r, skip_key k ks = k' :: r -> k <> k').
Proof.
  induction ks as [|k' ks (run & E & F & H)]; simpl.
  - exists []. repeat split; [constructor | discriminate].
  - destruct (str_eqb k k') eqn:Ek.
    + apply str_eqb_eq in Ek. subst k'. exists (k :: run).
      repeat split; [simpl; congruence | now constructor | assumption].
    + apply str_eqb_neq in Ek. exists []. repeat split; [constructor|].
      intros k2 r [= <- _]. assumption.
Qed.

Lemma groupedb_sound ks : groupedb ks = true -> grouped ks.
Proof.
  induction ks as [|k ks IH]; intros H a k0 b c E.
  - destruct a; discriminate.
  - simpl in H. apply andb_true_iff in H as [Hk Hr].
    destruct a as [|x a].
    + simpl in E. injection E as <- E.
      destruct (skip_key_spec k ks) as (run & Er & Fr & Hd).
      apply negb_true_iff in Hk.
      assert (Hn : ~ In k (skip_key k ks)).
      { intro Hin.
        assert (X : existsb (str_eqb k) (skip_key k ks) = true)
          by (apply existsb_exists; exists k; split;
              [assumption | apply str_eqb_refl]).
        congruence. }
      rewrite E in Er at 1.
      apply app_eq_app in Er as (l & [[-> El]|[-> _]]).
      * exfalso. apply Hn. rewrite El. apply in_or_app. right. now left.
      * now apply Forall_app in Fr as [Fb _].
    + simpl in E. injection E as <- E. now apply (IH Hr a k0 b c).
Qed.

Lemma count_of_ones (dec : forall a b : str, {a = b} + {a <> b}) w tokens :
  count_of w (map (fun t => (t, 1%Z)) tokens)
  = Z.of_nat (count_occ dec tokens w).
Proof.
  induction tokens as [|t tokens IH]; [reflexivity|].
  simpl map. rewrite count_of_cons, IH. simpl fst. simpl snd.
  simpl count_occ. destruct (dec t w) as [->|Hn].
  - rewrite str_eqb_refl. lia.
  - apply str_eqb_neq in Hn. rewrite Hn. lia.
Qed.

Lemma maximal_runs_adjacent runs :
  maximal_runs runs ->
  forall a r r' b, runs = a ++ r :: r' :: b -> fst r <> fst r'.
Proof.
  induction 1 as [|k cs H|k cs k' cs' runs H Hk M IH]; intros a r r' b E.
  - destruct a; discriminate.
  - destruct a as [|x [|y a]]; discriminate.
  - destruct a as [|x a].
    + simpl in E. injection E as <- <- _. exact Hk.
    + simpl in E. injection E as _ E. exact (IH a r r' b E).
Qed.


Lemma sum_nonneg cs : Forall (fun c => (0 <= c)%Z) cs -> (0 <= sum cs)%Z.
Proof. induction 1; simpl; lia. Qed.

Lemma group_counts recs (P : Z -> Prop) :
  Forall (fun r => P (snd r)) recs ->
  Forall (fun r => Forall P (snd r)) (group recs).
Proof.
  induction 1 as [|[k c] recs Hc _ IH]; simpl; [constructor|].
  destruct (group recs) as [|[k' cs] runs].
  - repeat constructor. exact Hc.
  - destruct (str_eqb k k'); inversion IH; subst.
    + constructor; [|assumption]. simpl. now constructor.
    + constructor; [simpl; now repeat constructor|]. now constructor.
Qed.

Section More.

Context {ucd : UnicodeData}.

Lemma main_totals stdin :
  Reducer.main stdin
  = map (fun p => total_line (fst p) (snd p)) (totals (records stdin)).
Proof. rewrite main_group. unfold totals. now rewrite map_map. Qed.

Lemma records_main_totals stdin :
  records (Reducer.main stdin) = totals (records stdin).
Proof. apply records_main. Qed.


(** The tokens of a text, line by line. *)
Definition tokens_of (text : list str) : list str :=
  flat_map (fun line => findall (lower line)) text.

Lemma mapper_main_tokens text :
  Mapper.main text = map pair_line (tokens_of text).
Proof.
  unfold Mapper.main, tokens_of.
  induction text as [|line text IH]; [reflexivity|].
  simpl. now rewrite map_app, MapperFacts.map_line_spec, IH.
Qed.

Lemma tokens_of_tokens text : Forall is_token (tokens_of text).
Proof.
  apply Forall_flat_map. apply Forall_forall. intros line _.
  apply ScanFacts.findall_tokens.
Qed.


(** The reducer on the pair lines of a list of tokens, reordered so that
    equal keys are grouped: one total per distinct token, the number of
    its occurrences. *)
Lemma word_counts_of_pairs
    (dec : forall a b : str, {a = b} + {a <> b}) words shuffled :
  Forall is_token words ->
  Permutation (map pair_line words) shuffled ->
  grouped (map fst (records shuffled)) ->
  NoDup (map fst (records (Reducer.main shuffled)))
  /\ (forall w,
      In w (map fst (records (Reducer.main shuffled))) <-> In w words)
  /\ (forall w n,
      In (w, n) (records (Reducer.main shuffled)) ->
      n = Z.of_nat (count_occ dec words w)).
Proof.
  intros T P G.
  assert (R : Permutation (map (fun t => (t, 1%Z)) words) (records shuffled)).
  { rewrite <- (records_pair_lines T). now apply records_perm. }
  rewrite records_main_totals. repeat apply conj.
  - now apply totals_nodup.
  - intro w. rewrite totals_keys.
    assert (K : Permutation words (map fst (records shuffled))).
    { rewrite <- (Permutation_map fst R), map_map. simpl.
      now rewrite map_id. }
    split; intro H.
    + apply Permutation_sym in K. exact (Permutation_in _ K H).
    + exact (Permutation_in _ K H).
  - intros w n H.
    rewrite <- (count_of_ones dec), (count_of_perm w R).
    rewrite <- (count_of_totals w (records shuffled)).
    symmetry. apply count_of_nodup; [now apply totals_nodup | assumption].
Qed.

Lemma nonneg_wire_line k n :
  key_ok k -> (0 <= n)%Z -> wire_format (total_line k n).
Proof.
  intros Hk Hn. exists k, (str_of_int n). split; [assumption|].
  unfold total_line. rewrite str_of_int_nonneg by assumption.
  split; [apply chars_of_uint_nonnil, numeral_nonnil|].
  split; [apply chars_of_uint_digits | reflexivity].
Qed.

End More.

(** X4: word count, end to end.  Feed the reducer the mapper's output
    for a text, reordered so that equal keys are grouped: it prints one
    line per distinct token of the text, and the count on the line of a
    token is the number of times the token occurs in the text. *)
Theorem word_count_end_to_end (ucd : UnicodeData)
    (dec : forall a b : str, {a = b} + {a <> b}) text shuffled :
  Permutation (Mapper.main text) shuffled ->
  grouped (map fst (records shuffled)) ->
  Reducer.main shuffled
  = map (fun p => total_line (fst p) (snd p)) (records (Reducer.main shuffled))
  /\ NoDup (map fst (records (Reducer.main shuffled)))
  /\ (forall w,
      In w (map fst (records (Reducer.main shuffled)))
      <-> In w (tokens_of text))
  /\ (forall w n,
      In (w, n) (records (Reducer.main shuffled)) ->
      n = Z.of_nat (count_occ dec (tokens_of text) w)).
Proof.
  intros P G. rewrite mapper_main_tokens in P.
  destruct (word_counts_of_pairs dec (tokens_of_tokens text) P G)
    as (N & K & C).
  repeat apply conj; try assumption.
  rewrite records_main_totals. apply main_totals.
Qed.

(** X5: every line the mapper prints is in the wire format, and the
    reducer reads it as the record of its token with count one: no line
    of the mapper's output is ever skipped by the reducer. *)
Theorem mapper_output_is_wire_format (ucd : UnicodeData) text :
  Forall wire_format (Mapper.main text)
  /\ records (Mapper.main text) = map (fun t => (t, 1%Z)) (tokens_of text)
  /\ length (records (Mapper.main text)) = length (Mapper.main text).
Proof.
  rewrite mapper_main_tokens.
  rewrite (records_pair_lines (tokens_of_tokens text)).
  repeat apply conj.
  - apply Forall_map. generalize (tokens_of_tokens text).
    apply Forall_impl. intros t Ht.
    change (pair_line t) with (total_line t 1).
    apply nonneg_wire_line; [exact (token_key_ok Ht) | lia].
  - reflexivity.
  - now rewrite !length_map.
Qed.



End ReducerMore.

(** ** More on the tokenizer *)

Module MapperMore.

Import Py Spec TextFacts ScanFacts LowerFacts MapperFacts.

Lemma tolower_not_upper c : is_ascii_upper (ascii_tolower c) = false.
Proof.
  unfold ascii_tolower, is_ascii_upper.
  destruct ((65 <=? c)%N && (c <=? 90)%N) eqn:U; [|exact U].
  apply andb_false_iff. ranges. right. apply N.leb_gt. lia.
Qed.

(** The tokens of an ASCII line, computed without the character database. *)
Definition ascii_tokens (line : str) : list str :=
  findall (map ascii_tolower line).

Lemma ascii_tokens_lower line :
  Forall (Forall (fun c => is_ascii_lower c || is_ascii_digit c = true))
         (ascii_tokens line).
Proof.
  unfold ascii_tokens.
  pose proof (scan_concat [] (map ascii_tolower line)) as C.
  pose proof (findall_tokens (map ascii_tolower line)) as T.
  unfold findall in *. simpl in C.
  rewrite Forall_forall in *. intros t Ht.
  rewrite Forall_forall. intros c Hc.
  assert (Hin : In c (filter word_class (map ascii_tolower line))).
  { rewrite <- C. apply in_concat. eauto. }
  apply filter_In in Hin as [Hm W]. apply in_map_iff in Hm as (c0 & <- & _).
  unfold word_class in W. rewrite tolower_not_upper in W.
  now rewrite orb_false_r in W.
Qed.

(** X8: on an ASCII line the tokenizer needs no character database: it
    prints the pair lines of the maximal letter-or-digit runs of the
    line with A to Z replaced by a to z, and every key it prints is
    made of the letters a to z and the digits only. *)
Theorem ascii_line_keys_are_lower_case (ucd : UnicodeData) line :
  Forall (fun c => (c < 128)%N) line ->
  Mapper.map_line line = map pair_line (ascii_tokens line)
  /\ Forall (Forall (fun c => is_ascii_lower c || is_ascii_digit c = true))
            (ascii_tokens line).
Proof.
  intro A. split.
  - now rewrite map_line_spec, lower_ascii.
  - apply ascii_tokens_lower.
Qed.

End MapperMore.

(** ** reducer.py under the limit on digits: the number of digits *)

Module DigitFacts.

Import Py IntFacts.

Local Open Scope Z_scope.

(** The number of decimal digits of an integer, the sign left out. *)
Definition digits (n : Z) : N :=
  N.of_nat (length (str_of_int (Z.abs n))).

Lemma chars_of_uint_length u :
  length (chars_of_uint u) = Decimal.nb_digits u.
Proof. induction u; simpl; congruence. Qed.

Lemma uint_value_acc u acc :
  uint_value u acc
  = acc * 10 ^ Z.of_nat (Decimal.nb_digits u) + uint_value u 0.
Proof.
  revert acc. induction u; intro acc;
    cbn [uint_value Decimal.nb_digits];
    try (rewrite IHu, (IHu (10 * 0 + _)), Nat2Z.inj_succ, Z.pow_succ_r
           by apply Nat2Z.is_nonneg; ring).
  simpl. ring.
Qed.

Lemma uint_value_bound u :
  0 <= uint_value u 0 < 10 ^ Z.of_nat (Decimal.nb_digits u).
Proof.
  induction u; cbn [uint_value Decimal.nb_digits];
    try (rewrite uint_value_acc, Nat2Z.inj_succ, Z.pow_succ_r
           by apply Nat2Z.is_nonneg; lia).
  simpl. lia.
Qed.

(** The numeral of a positive number does not start with a zero. *)
Lemma to_uint_head p : Decimal.nzhead (Pos.to_uint p) = Pos.to_uint p.
Proof.
  pose proof (DecimalPos.Unsigned.to_of (Pos.to_uint p)) as H.
  rewrite DecimalPos.Unsigned.of_to in H. simpl in H.
  pose proof (DecimalPos.Unsigned.to_uint_nonzero p) as Z0.
  rewrite H at 2. symmetry. apply DecimalFacts.unorm_nzhead.
  intro N. apply Z0. rewrite H. apply DecimalFacts.unorm_0. exact N.
Qed.

Lemma uint_value_lower u :
  Decimal.nzhead u = u -> u <> Decimal.Nil ->
  10 ^ (Z.of_nat (Decimal.nb_digits u) - 1) <= uint_value u 0.
Proof.
  intros H Hn. destruct u; try contradiction;
    try (cbn [uint_value Decimal.nb_digits];
         rewrite uint_value_acc, Nat2Z.inj_succ;
         replace (Z.succ (Z.of_nat (Decimal.nb_digits u)) - 1)
           with (Z.of_nat (Decimal.nb_digits u)) by lia;
         pose proof (uint_value_bound u);
         assert (0 < 10 ^ Z.of_nat (Decimal.nb_digits u))
           by (apply Z.pow_pos_nonneg; lia);
         nia).
  exfalso. exact (DecimalFacts.nzhead_nonzero _ _ H).
Qed.

Lemma digits_pos p : digits (Z.pos p) = N.of_nat (Decimal.nb_digits (Pos.to_uint p)).
Proof.
  unfold digits.
  change (str_of_int (Z.abs (Z.pos p))) with (chars_of_uint (Pos.to_uint p)).
  now rewrite chars_of_uint_length.
Qed.

Lemma digits_0 : digits 0 = 1%N.
Proof. reflexivity. Qed.

Lemma digits_opp n : digits (- n) = digits n.
Proof. unfold digits. now rewrite Z.abs_opp. Qed.

Lemma digits_abs n : digits (Z.abs n) = digits n.
Proof. destruct n; reflexivity. Qed.

Lemma digits_ge_1 n : (1 <= digits n)%N.
Proof.
  unfold digits. destruct (str_of_int_chars (Z.abs n)) as [H _].
  destruct (str_of_int (Z.abs n)); [contradiction | simpl; lia].
Qed.

(** A positive integer lies between the powers of ten of its number of
    digits. *)
Lemma digits_bounds n :
  0 < n -> 10 ^ (Z.of_N (digits n) - 1) <= n < 10 ^ Z.of_N (digits n).
Proof.
  destruct n as [|p|p]; try lia. intros _.
  rewrite digits_pos, nat_N_Z.
  pose proof (uint_value_bound (Pos.to_uint p)) as B.
  pose proof (uint_value_lower (to_uint_head p)
                (DecimalPos.Unsigned.to_uint_nonnil p)) as L.
  rewrite to_uint_value in *. lia.
Qed.

Lemma digits_le n d :
  (1 <= d)%N -> Z.abs n < 10 ^ Z.of_N d -> (digits n <= d)%N.
Proof.
  intros Hd H. rewrite <- digits_abs.
  destruct (Z.eq_dec (Z.abs n) 0) as [E|E].
  - rewrite E, digits_0. exact Hd.
  - pose proof (digits_bounds (n := Z.abs n)) as B.
    assert (P : 0 < Z.abs n) by lia. specialize (B P).
    destruct (N.le_gt_cases (digits (Z.abs n)) d) as [L|G]; [exact L|].
    exfalso.
    assert (10 ^ Z.of_N d <= 10 ^ (Z.of_N (digits (Z.abs n)) - 1))
      by (apply Z.pow_le_mono_r; lia).
    lia.
Qed.

Lemma digits_gt n d :
  10 ^ Z.of_N d <= Z.abs n -> (d < digits n)%N.
Proof.
  intro H. rewrite <- digits_abs.
  assert (P0 : 0 < 10 ^ Z.of_N d) by (apply Z.pow_pos_nonneg; lia).
  assert (P : 0 < Z.abs n) by lia.
  pose proof (digits_bounds P) as B.
  destruct (N.lt_ge_cases d (digits (Z.abs n))) as [L|G]; [exact L|].
  exfalso.
  assert (10 ^ Z.of_N (digits (Z.abs n)) <= 10 ^ Z.of_N d)
    by (apply Z.pow_le_mono_r; lia).
  lia.
Qed.

Lemma digits_mono a b : Z.abs a <= Z.abs b -> (digits a <= digits b)%N.
Proof.
  intro H. destruct (Z.eq_dec (Z.abs b) 0) as [E|E].
  - assert (Ea : Z.abs a = 0) by lia.
    rewrite <- (digits_abs a), <- (digits_abs b), E, Ea. reflexivity.
  - apply digits_le; [apply digits_ge_1|].
    assert (P : 0 < Z.abs b) by lia.
    pose proof (digits_bounds P) as B. rewrite digits_abs in B. lia.
Qed.

(** The length of the text of an integer: its digits, and a sign for a
    negative one. *)
Lemma str_of_int_length n :
  N.of_nat (length (str_of_int n))
  = (digits n + if (n <? 0)%Z then 1 else 0)%N.
Proof.
  unfold digits. destruct n as [|p|p].
  - reflexivity.
  - cbn [Z.ltb Z.compare Z.abs]. now rewrite N.add_0_r.
  - cbn [Z.ltb Z.compare Z.abs].
    change (str_of_int (Z.neg p)) with (45%N :: str_of_int (Z.pos p)).
    cbn [length]. lia.
Qed.

End DigitFacts.

(** ** reducer.py under the limit on digits: conversions, records, runs *)

Module LimitedFacts.

Import Py Spec TextFacts IntFacts RecordFacts ReducerFacts DigitFacts.
Import Reducer.

Section Conversions.

Context {ucd : UnicodeData} {interp : Limited.Interpreter}.

(** A number of digits that the interpreter converts. *)
Definition allowed (d : N) : Prop :=
  Limited.int_max_str_digits = 0%N \/ (d <= Limited.int_max_str_digits)%N.

(** An integer that the interpreter prints, and reads back. *)
Definition within_limit (n : Z) : Prop := allowed (digits n).

Lemma allowed_dec d : allowed d \/ ~ allowed d.
Proof.
  unfold allowed.
  destruct (N.eq_dec Limited.int_max_str_digits 0) as [E|E]; [left; now left|].
  destruct (N.le_gt_cases d Limited.int_max_str_digits) as [L|G].
  - left. now right.
  - right. intros [H|H]; [contradiction | lia].
Qed.

(** The test of the two conversions, on a number of digits [d] and a
    length [len] that is [d] or one more. *)
Lemma check_false d len :
  allowed d ->
  (Limited.str_digits_check_threshold <? len)%N
  && (0 <? Limited.int_max_str_digits)%N
  && (Limited.int_max_str_digits <? d)%N = false.
Proof.
  intros [H|H].
  - rewrite H. change (0 <? 0)%N with false.
    now rewrite andb_false_r.
  - apply N.ltb_ge in H. rewrite H. apply andb_false_r.
Qed.

Lemma check_true d len :
  ~ allowed d -> (d <= len)%N ->
  (Limited.str_digits_check_threshold <? len)%N
  && (0 <? Limited.int_max_str_digits)%N
  && (Limited.int_max_str_digits <? d)%N = true.
Proof.
  intros H L. unfold allowed in H.
  destruct Limited.int_max_str_digits_valid as [V|V]; [tauto|].
  assert (G : (Limited.int_max_str_digits < d)%N) by lia.
  rewrite !andb_true_iff, !N.ltb_lt. repeat split; lia.
Qed.

Lemma allowed_small d :
  (d <= Limited.str_digits_check_threshold)%N -> allowed d.
Proof.
  intro H. destruct Limited.int_max_str_digits_valid as [V|V];
    [now left | right; lia].
Qed.

(** *** [str] *)

Lemma nosign_digits n :
  (if (n <? 0)%Z then (N.of_nat (length (str_of_int n)) - 1)%N
   else N.of_nat (length (str_of_int n))) = digits n.
Proof.
  rewrite str_of_int_length. destruct (n <? 0)%Z; lia.
Qed.

Lemma str_of_int_within n :
  within_limit n -> Limited.str_of_int n = Ok (str_of_int n).
Proof.
  intro H. unfold Limited.str_of_int. cbv zeta.
  rewrite nosign_digits. now rewrite check_false.
Qed.

Lemma str_of_int_over n :
  ~ within_limit n -> Limited.str_of_int n = Raise ValueError.
Proof.
  intro H. unfold Limited.str_of_int. cbv zeta.
  rewrite nosign_digits. rewrite check_true; [reflexivity | exact H |].
  rewrite str_of_int_length. lia.
Qed.

Lemma str_of_int_ok n s :
  Limited.str_of_int n = Ok s <-> s = str_of_int n /\ within_limit n.
Proof.
  destruct (allowed_dec (digits n)) as [A|A].
  - rewrite (str_of_int_within A). split.
    + intros [= <-]. auto.
    + intros [-> _]. reflexivity.
  - rewrite (str_of_int_over A). split; [discriminate | tauto].
Qed.

Lemma str_of_int_raise n e :
  Limited.str_of_int n = Raise e <-> ~ within_limit n.
Proof.
  destruct (allowed_dec (digits n)) as [A|A].
  - rewrite (str_of_int_within A). split; [discriminate | tauto].
  - rewrite (str_of_int_over A). destruct e. tauto.
Qed.

(** *** [int] *)

(** The number of digits [int] scans in a text. *)
Definition literal_digits (s : str) : N :=
  match scan_digits false 0%Z 0%nat
          (snd (read_sign (skip_space (transform_decimal_and_space s)))) with
  | Some (_, n, _) => N.of_nat n
  | None => 0%N
  end.

(** [int] under the limit is [int], but for the texts of too many
    digits. *)
Lemma int_limited s :
  Limited.int s
  = if (Limited.str_digits_check_threshold <? literal_digits s)%N
       && (0 <? Limited.int_max_str_digits)%N
       && (Limited.int_max_str_digits <? literal_digits s)%N
    then Raise ValueError
    else int s.
Proof.
  unfold Limited.int, int, Limited.long_from_string, long_from_string,
    literal_digits.
  destruct (read_sign (skip_space (transform_decimal_and_space s)))
    as [sign r]. cbn [snd].
  unfold Limited.digits_to_long, digits_to_long.
  destruct (starts_with 95%N r).
  - now destruct (_ && _).
  - destruct (scan_digits false 0%Z 0%nat r) as [[[v n] rest]|].
    + cbv zeta. now destruct (_ && _).
    + reflexivity.
Qed.

Lemma int_within s n :
  int s = Ok n -> allowed (literal_digits s) -> Limited.int s = Ok n.
Proof.
  intros H A. rewrite int_limited. now rewrite check_false.
Qed.

Lemma int_over s :
  ~ allowed (literal_digits s) -> Limited.int s = Raise ValueError.
Proof.
  intro A. rewrite int_limited. rewrite check_true; [reflexivity | exact A|].
  apply N.le_refl.
Qed.

Lemma int_ok s n :
  Limited.int s = Ok n <-> int s = Ok n /\ allowed (literal_digits s).
Proof.
  destruct (allowed_dec (literal_digits s)) as [A|A].
  - rewrite int_limited, check_false by assumption. tauto.
  - rewrite (int_over s A). split; [discriminate | tauto].
Qed.

End Conversions.

(** The value read from digits lies between the powers of ten of their
    number. *)
Lemma scan_digits_bound s :
  forall us acc k v k' rest,
    scan_digits us acc k s = Some (v, k', rest) -> (0 <= acc)%Z ->
    (k <= k')%nat
    /\ (acc * 10 ^ Z.of_nat (k' - k) <= v
        < (acc + 1) * 10 ^ Z.of_nat (k' - k))%Z.
Proof.
  induction s as [|c s IH]; intros us acc k v k' rest H Hacc.
  - simpl in H. destruct us; [discriminate|]. injection H as <- <- <-.
    rewrite Nat.sub_diag. simpl. lia.
  - cbn [scan_digits] in H.
    destruct (is_ascii_digit c) eqn:D.
    + assert (Hd : (0 <= Z.of_N (c - 48) <= 9)%Z).
      { unfold is_ascii_digit in D. ranges. lia. }
      apply IH in H as [L B]; [|lia].
      split; [lia|].
      replace (k' - k)%nat with (S (k' - S k)) by lia.
      rewrite Nat2Z.inj_succ, Z.pow_succ_r by apply Nat2Z.is_nonneg.
      assert (P : (0 < 10 ^ Z.of_nat (k' - S k))%Z)
        by (apply Z.pow_pos_nonneg; lia).
      nia.
    + destruct (c =? 95)%N.
      * destruct us; [discriminate|]. now apply IH in H.
      * destruct us; [discriminate|]. injection H as <- <- <-.
        rewrite Nat.sub_diag. simpl. lia.
Qed.


Lemma read_sign_sign s : fst (read_sign s) = 1%Z \/ fst (read_sign s) = (-1)%Z.
Proof.
  destruct s as [|c r]; simpl; [now left|].
  destruct (c =? 43)%N; [now left|]. destruct (c =? 45)%N; simpl; auto.
Qed.

Section Literals.

Context {ucd : UnicodeData} {interp : Limited.Interpreter}.

Lemma allowed_le d d' : allowed d -> (d' <= d)%N -> allowed d'.
Proof. intros [H|H] L; [now left | right; lia]. Qed.

(** The integer read has no more digits than the text. *)
Lemma int_digits s n : int s = Ok n -> (digits n <= literal_digits s)%N.
Proof.
  unfold int, long_from_string, literal_digits.
  pose proof (read_sign_sign (skip_space (transform_decimal_and_space s)))
    as Hs.
  destruct (read_sign (skip_space (transform_decimal_and_space s)))
    as [sign r]. cbn [fst snd] in *.
  unfold digits_to_long. destruct (starts_with 95%N r); [discriminate|].
  destruct (scan_digits false 0%Z 0%nat r) as [[[v k] rest]|] eqn:E;
    [|discriminate].
  destruct k as [|k]; [discriminate|].
  destruct (is_empty (skip_space rest)); [|discriminate].
  intros [= <-].
  apply scan_digits_bound in E as [_ B]; [|lia].
  rewrite Nat.sub_0_r, Z.mul_0_l, Z.mul_1_l in B.
  apply digits_le; [lia|]. rewrite nat_N_Z.
  destruct Hs as [-> | ->]; lia.
Qed.

(** What [int] reads under the limit, [str] prints under the limit. *)
Lemma int_ok_within s n : Limited.int s = Ok n -> within_limit n.
Proof.
  intro H. apply int_ok in H as [H A].
  exact (allowed_le A (int_digits _ H)).
Qed.

Lemma space_not_digit c :
  c_isspace c = true -> is_ascii_digit c = false /\ c <> 95%N.
Proof.
  intro H. unfold c_isspace, is_ascii_digit in *. split.
  - destruct ((48 <=? c)%N && (c <=? 57)%N) eqn:D; [|reflexivity].
    ranges; lia.
  - ranges; lia.
Qed.

(** The digits of a numeral, after optional spaces and an optional
    sign, and before optional spaces, are all the digits [int] scans. *)
Lemma literal_digits_numeral sp (sg : str) u trail :
  Forall (fun c => c_isspace c = true) sp ->
  Forall (fun c => c_isspace c = true) trail ->
  sg = [] \/ sg = [43%N] \/ sg = [45%N] ->
  u <> Decimal.Nil ->
  literal_digits (sp ++ sg ++ chars_of_uint u ++ trail)
  = N.of_nat (Decimal.nb_digits u).
Proof.
  intros Fs Ft Hsg Hu. unfold literal_digits.
  assert (A : Forall (fun c => (c < 127)%N)
                (sp ++ sg ++ chars_of_uint u ++ trail)).
  { repeat (apply Forall_app; split); auto using c_space_ascii, uint_ascii.
    destruct Hsg as [->|[->| ->]]; repeat constructor. }
  rewrite (transform_ascii A), skip_space_spaces by assumption.
  destruct (uint_first_digit Hu) as (d & ds & Eu & Hd).
  destruct (digit_props d Hd) as (_ & _ & Sd & _ & _ & P & M).
  apply N.eqb_neq in P, M.
  assert (E : snd (read_sign (skip_space (sg ++ chars_of_uint u ++ trail)))
              = chars_of_uint u ++ trail).
  { destruct Hsg as [->|[->| ->]]; simpl.
    - rewrite Eu. simpl. rewrite Sd. simpl. now rewrite P, M.
    - reflexivity.
    - reflexivity. }
  rewrite E, scan_digits_uint; [reflexivity|].
  intros c r ->. inversion Ft; subst. now apply space_not_digit.
Qed.

Lemma digits_numeral n : digits n = N.of_nat (Decimal.nb_digits (numeral (Z.abs n))).
Proof.
  unfold digits. rewrite str_of_int_nonneg by apply Z.abs_nonneg.
  now rewrite chars_of_uint_length.
Qed.

Lemma literal_digits_str_of_int sp n trail :
  Forall (fun c => c_isspace c = true) sp ->
  Forall (fun c => c_isspace c = true) trail ->
  literal_digits (sp ++ str_of_int n ++ trail) = digits n.
Proof.
  intros Fs Ft. rewrite digits_numeral.
  destruct (Z.lt_ge_cases n 0) as [Hn|Hn].
  - rewrite str_of_int_neg by assumption.
    replace (Z.abs n) with (- n)%Z by lia.
    apply (@literal_digits_numeral sp [45%N] (numeral (- n)) trail);
      auto using numeral_nonnil.
  - rewrite str_of_int_nonneg by assumption.
    replace (Z.abs n) with n by lia.
    apply (@literal_digits_numeral sp [] (numeral n) trail);
      auto using numeral_nonnil.
Qed.

Lemma literal_digits_plus sp n trail :
  Forall (fun c => c_isspace c = true) sp ->
  Forall (fun c => c_isspace c = true) trail ->
  (0 <= n)%Z ->
  literal_digits (sp ++ [43%N] ++ str_of_int n ++ trail) = digits n.
Proof.
  intros Fs Ft Hn. rewrite digits_numeral.
  rewrite str_of_int_nonneg by assumption.
  replace (Z.abs n) with n by lia.
  apply (@literal_digits_numeral sp [43%N] (numeral n) trail);
    auto using numeral_nonnil.
Qed.

(** Reading back a rendered integer under the limit. *)
Lemma int_rendered sp n trail :
  Forall (fun c => c_isspace c = true) sp ->
  Forall (fun c => c_isspace c = true) trail ->
  within_limit n ->
  Limited.int (sp ++ str_of_int n ++ trail) = Ok n.
Proof.
  intros Fs Ft W. apply int_within.
  - now apply int_str_of_int_padded.
  - now rewrite literal_digits_str_of_int.
Qed.

Lemma int_rendered_over sp n trail :
  Forall (fun c => c_isspace c = true) sp ->
  Forall (fun c => c_isspace c = true) trail ->
  ~ within_limit n ->
  Limited.int (sp ++ str_of_int n ++ trail) = Raise ValueError.
Proof.
  intros Fs Ft W. apply int_over.
  now rewrite literal_digits_str_of_int.
Qed.

Lemma int_rendered_plus sp n trail :
  Forall (fun c => c_isspace c = true) sp ->
  Forall (fun c => c_isspace c = true) trail ->
  (0 <= n)%Z -> within_limit n ->
  Limited.int (sp ++ [43%N] ++ str_of_int n ++ trail) = Ok n.
Proof.
  intros Fs Ft Hn W. apply int_within.
  - now apply int_plus.
  - now rewrite literal_digits_plus.
Qed.

End Literals.

Section Records.

Context {ucd : UnicodeData} {interp : Limited.Interpreter}.

(** A line is a record under the limit exactly when, stripped, it is a
    key, one tab and a count that [int] accepts under the limit. *)
Lemma limited_record_of_some line k n :
  Limited.record_of line = Some (k, n)
  <-> exists cs, strip line = k ++ TAB :: cs
                 /\ ~ In TAB k /\ ~ In TAB cs /\ Limited.int cs = Ok n.
Proof.
  unfold Limited.record_of, Limited.parse, Reducer.unpack2. split.
  - destruct (is_empty (strip line)); [discriminate|].
    destruct (split TAB (strip line)) as [|w [|c [|x fs]]] eqn:Es;
      simpl; try discriminate.
    destruct (Limited.int c) as [m|e] eqn:Ei; simpl; [|discriminate].
    intros [= <- <-]. apply split_two in Es as (E & Hw & Hc).
    exists c. auto.
  - intros (cs & E & Hk & Hc & Hi). rewrite E.
    rewrite split_at, split_no_sep by assumption.
    destruct (k ++ TAB :: cs) eqn:Ek; [now destruct k|].
    simpl. now rewrite Hi.
Qed.

(** A record under the limit is a record with the limit off, and its
    count is within the limit. *)
Lemma record_of_spec line r :
  Limited.record_of line = Some r -> Spec.record_of line = Some r.
Proof.
  destruct r as [k n]. intro H.
  apply limited_record_of_some in H as (cs & E & Hk & Hc & Hi).
  apply RecordFacts.record_of_some. exists cs.
  apply int_ok in Hi as [Hi _]. auto.
Qed.

Lemma record_within line k n :
  Limited.record_of line = Some (k, n) -> within_limit n.
Proof.
  intro H. apply limited_record_of_some in H as (cs & _ & _ & _ & Hi).
  exact (int_ok_within _ Hi).
Qed.

Lemma limited_record_key_ok line k n :
  Limited.record_of line = Some (k, n) -> key_ok k.
Proof.
  intro H. apply record_of_spec in H.
  exact (RecordFacts.record_key_ok _ H).
Qed.

(** A key, a tab and a count field that ends in characters that are no
    white space, all between white space: the line is a record when
    [int] accepts the field, and is skipped when it does not. *)
Lemma record_of_field ws1 k pre m ws2 :
  key_ok k ->
  Forall (fun c => isspace c = true) ws1 ->
  Forall (fun c => isspace c = true) ws2 ->
  m <> [] -> Forall (fun c => isspace c = false) m ->
  ~ In TAB (pre ++ m) ->
  Limited.record_of (ws1 ++ (k ++ [TAB] ++ pre ++ m) ++ ws2)
  = match Limited.int (pre ++ m) with
    | Ok n => Some (k, n)
    | Raise _ => None
    end.
Proof.
  intros (Hk & c & k' & -> & Hc) F1 F2 Hne Fm Ht.
  unfold Limited.record_of.
  assert (S : strip (ws1 ++ ((c :: k') ++ [TAB] ++ pre ++ m) ++ ws2)
              = (c :: k') ++ TAB :: pre ++ m).
  { rewrite strip_padded; try assumption.
    - reflexivity.
    - intros d s' E. simpl in E. now injection E as <- _.
    - intros s' d E.
      destruct (exists_last Hne) as (ds & d' & Ed).
      rewrite Ed in E, Fm.
      change (((c :: k') ++ [TAB] ++ pre ++ ds ++ [d']))
        with ((c :: k') ++ [TAB] ++ pre ++ ds ++ [d']) in E.
      rewrite !app_assoc in E.
      apply app_inj_tail in E as [_ <-].
      apply Forall_app in Fm as [_ Fd]. now inversion Fd. }
  rewrite S. cbn [is_empty app]. unfold Limited.parse.
  change (c :: k' ++ TAB :: pre ++ m) with ((c :: k') ++ TAB :: pre ++ m).
  rewrite split_at, split_no_sep by assumption.
  cbn [Reducer.unpack2 bind fst snd].
  now destruct (Limited.int (pre ++ m)).
Qed.

Lemma rendered_no_space n :
  Forall (fun c => isspace c = false) (str_of_int n).
Proof.
  destruct (str_of_int_chars n) as [_ F]. revert F.
  apply Forall_impl. tauto.
Qed.

Lemma field_no_tab sp (m : str) :
  Forall (fun c => c_isspace c = true /\ c <> TAB) sp ->
  Forall (fun c => isspace c = false /\ c <> TAB) m ->
  ~ In TAB (sp ++ m).
Proof.
  intros Fs Fm H. apply in_app_or in H as [H|H].
  - rewrite Forall_forall in Fs. apply Fs in H. tauto.
  - rewrite Forall_forall in Fm. apply Fm in H. tauto.
Qed.

(** A key, a tab, optional spaces, a rendered integer, between white
    space: a record when the integer is within the limit, a line that
    is skipped when it is not. *)
Lemma limited_record_of_padded ws1 k sp n ws2 :
  key_ok k ->
  Forall (fun c => isspace c = true) ws1 ->
  Forall (fun c => isspace c = true) ws2 ->
  Forall (fun c => c_isspace c = true /\ c <> TAB) sp ->
  within_limit n ->
  Limited.record_of (ws1 ++ (k ++ [TAB] ++ sp ++ str_of_int n) ++ ws2)
  = Some (k, n).
Proof.
  intros Hk F1 F2 Fs W.
  destruct (str_of_int_chars n) as [Hne Fn].
  rewrite record_of_field; try assumption.
  - rewrite <- (app_nil_r (sp ++ str_of_int n)), <- app_assoc.
    rewrite int_rendered; [reflexivity | | constructor | assumption].
    revert Fs. apply Forall_impl. tauto.
  - apply rendered_no_space.
  - now apply field_no_tab.
Qed.

Lemma record_of_padded_over ws1 k sp n ws2 :
  key_ok k ->
  Forall (fun c => isspace c = true) ws1 ->
  Forall (fun c => isspace c = true) ws2 ->
  Forall (fun c => c_isspace c = true /\ c <> TAB) sp ->
  ~ within_limit n ->
  Limited.record_of (ws1 ++ (k ++ [TAB] ++ sp ++ str_of_int n) ++ ws2)
  = None.
Proof.
  intros Hk F1 F2 Fs W.
  destruct (str_of_int_chars n) as [Hne Fn].
  rewrite record_of_field; try assumption.
  - rewrite <- (app_nil_r (sp ++ str_of_int n)), <- app_assoc.
    rewrite int_rendered_over; [reflexivity | | constructor | assumption].
    revert Fs. apply Forall_impl. tauto.
  - apply rendered_no_space.
  - now apply field_no_tab.
Qed.

(** The same with an explicit plus sign. *)
Lemma limited_record_of_plus ws1 k sp n ws2 :
  key_ok k ->
  Forall (fun c => isspace c = true) ws1 ->
  Forall (fun c => isspace c = true) ws2 ->
  Forall (fun c => c_isspace c = true /\ c <> TAB) sp ->
  (0 <= n)%Z -> within_limit n ->
  Limited.record_of
    (ws1 ++ (k ++ [TAB] ++ sp ++ [43%N] ++ str_of_int n) ++ ws2)
  = Some (k, n).
Proof.
  intros Hk F1 F2 Fs Hn W.
  destruct (str_of_int_chars n) as [Hne Fn].
  pose proof (@record_of_field ws1 k (sp ++ [43%N]) (str_of_int n) ws2 Hk F1 F2
                Hne (rendered_no_space n)) as R.
  replace (sp ++ [43%N] ++ str_of_int n)
    with ((sp ++ [43%N]) ++ str_of_int n) by now rewrite <- app_assoc.
  rewrite R.
  - rewrite <- app_assoc, <- (app_nil_r (str_of_int n)).
    rewrite int_rendered_plus; [reflexivity | | constructor | assumption
                                | assumption].
    revert Fs. apply Forall_impl. tauto.
  - rewrite !in_app_iff. rewrite Forall_forall in Fs, Fn.
    intros [[H|[H|[]]]|H]; [apply Fs in H | discriminate H | apply Fn in H];
      tauto.
Qed.

(** A line the reducer prints reads back as the key and the total, when
    the total is within the limit. *)
Lemma limited_record_of_total_line k n :
  key_ok k -> within_limit n ->
  Limited.record_of (total_line k n) = Some (k, n).
Proof.
  intros Hk W.
  pose proof (@limited_record_of_padded [] k [] n [LF] Hk) as H.
  unfold total_line. simpl in *. rewrite <- !app_assoc in H.
  apply H; try assumption; repeat constructor.
Qed.

Lemma record_of_total_line_over k n :
  key_ok k -> ~ within_limit n ->
  Limited.record_of (total_line k n) = None.
Proof.
  intros Hk W.
  pose proof (@record_of_padded_over [] k [] n [LF] Hk) as H.
  unfold total_line. simpl in *. rewrite <- !app_assoc in H.
  apply H; try assumption; repeat constructor.
Qed.

(** A line in the wire format: a record when its digits are no more
    than the limit allows, a line that is skipped when they are. *)
Lemma int_digit_text ds :
  ds <> [] -> Forall (fun c => is_ascii_digit c = true) ds ->
  literal_digits ds = N.of_nat (length ds)
  /\ exists n, int ds = Ok n.
Proof.
  intros Hne Fd. destruct (digits_uint Fd) as (u & <- & Hu).
  specialize (Hu Hne). split.
  - pose proof (@literal_digits_numeral _ [] [] u [] (Forall_nil _)
                  (Forall_nil _) (or_introl eq_refl) Hu) as L.
    simpl in L. rewrite app_nil_r in L.
    now rewrite L, chars_of_uint_length.
  - exists (uint_value u 0).
    pose proof (@int_uint _ [] u [] (Forall_nil _) (Forall_nil _) Hu) as I.
    simpl in I. now rewrite app_nil_r in I.
Qed.

Lemma digit_text_no_space ds :
  Forall (fun c => is_ascii_digit c = true) ds ->
  Forall (fun c => isspace c = false) ds /\ ~ In TAB ds.
Proof.
  intro Fd. split.
  - revert Fd. apply Forall_impl. intros c H. now apply digit_props in H.
  - intro H. rewrite Forall_forall in Fd. apply Fd in H.
    now apply digit_props in H.
Qed.

Lemma record_of_wire k ds :
  key_ok k -> ds <> [] -> Forall (fun c => is_ascii_digit c = true) ds ->
  (allowed (N.of_nat (length ds)) ->
   exists n, Limited.record_of (k ++ [TAB] ++ ds ++ [LF]) = Some (k, n))
  /\ (~ allowed (N.of_nat (length ds)) ->
      Limited.record_of (k ++ [TAB] ++ ds ++ [LF]) = None).
Proof.
  intros Hk Hne Fd.
  destruct (int_digit_text Hne Fd) as (L & n & I).
  destruct (digit_text_no_space Fd) as (Fs & Ht).
  pose proof (@record_of_field [] k [] ds [LF] Hk (Forall_nil _)) as R.
  simpl in R. rewrite <- !app_assoc in R. simpl in R.
  simpl. rewrite R; try assumption; [|repeat constructor].
  split; intro A.
  - exists n. rewrite (@int_within _ _ ds n I); [reflexivity|]. now rewrite L.
  - rewrite int_over; [reflexivity|]. now rewrite L.
Qed.

End Records.

(** *** The run *)

(** Output put in front of the output of the rest of a run. *)
Definition prepend (out : list str) (r : list str * Limited.ending)
  : list str * Limited.ending :=
  (out ++ fst r, snd r).

Lemma prepend_nil r : prepend [] r = r.
Proof. now destruct r. Qed.

Lemma prepend_app a b r : prepend (a ++ b) r = prepend a (prepend b r).
Proof. unfold prepend. simpl. now rewrite app_assoc. Qed.

(** The key runs of the records of maximal runs are these runs. *)
Lemma group_run k cs recs k' cs' runs :
  cs <> [] -> k <> k' -> group recs = (k', cs') :: runs ->
  group (map (pair k) cs ++ recs) = (k, cs) :: (k', cs') :: runs.
Proof.
  intros Hne Hk G. induction cs as [|c cs IH]; [contradiction|].
  destruct cs as [|c2 cs].
  - simpl. rewrite G. apply str_eqb_neq in Hk. now rewrite Hk.
  - change (map (pair k) (c :: c2 :: cs) ++ recs)
      with ((k, c) :: (map (pair k) (c2 :: cs) ++ recs)).
    cbn [group]. rewrite IH by discriminate. now rewrite str_eqb_refl.
Qed.

Lemma group_single k cs : cs <> [] -> group (map (pair k) cs) = [(k, cs)].
Proof.
  intro Hne. induction cs as [|c cs IH]; [contradiction|].
  destruct cs as [|c2 cs]; [reflexivity|].
  change (map (pair k) (c :: c2 :: cs))
    with ((k, c) :: map (pair k) (c2 :: cs)).
  cbn [group]. rewrite IH by discriminate. now rewrite str_eqb_refl.
Qed.

Lemma group_expand runs : maximal_runs runs -> group (expand runs) = runs.
Proof.
  induction 1 as [|k cs H|k cs k' cs' runs H Hk M IH].
  - reflexivity.
  - unfold expand. simpl. rewrite app_nil_r. now apply group_single.
  - change (expand ((k, cs) :: (k', cs') :: runs))
      with (map (pair k) cs ++ expand ((k', cs') :: runs)).
    now apply group_run.
Qed.

Section Run.

Context {ucd : UnicodeData} {interp : Limited.Interpreter}.

(** What the loop body does with a record it has read. *)
Definition feed (st : state) (r : str * Z) : result state :=
  if same_word (current_word st) (fst r)
  then Ok {| current_word := current_word st;
             current_count := current_count st + snd r;
             stdout := stdout st |}
  else
    out <- Limited.flush st ;;
    Ok {| current_word := Some (fst r);
          current_count := snd r;
          stdout := out |}.

(** The loop on the records of the input. *)
Fixpoint feed_all (st : state) (recs : list (str * Z))
  : state * Limited.ending :=
  match recs with
  | [] => (st, Limited.Returns)
  | r :: rest =>
      match feed st r with
      | Ok st' => feed_all st' rest
      | Raise e => (st, Limited.Dies e)
      end
  end.

(** The end of [main], after the loop. *)
Definition finish (r : state * Limited.ending) : list str * Limited.ending :=
  match r with
  | (st, Limited.Dies e) => (stdout st, Limited.Dies e)
  | (st, Limited.Returns) =>
      match Limited.flush st with
      | Ok out => (out, Limited.Returns)
      | Raise e => (stdout st, Limited.Dies e)
      end
  end.

(** Totals printed in order, up to the first one that is too long. *)
Fixpoint print_totals (totals : list (str * Z)) : list str * Limited.ending :=
  match totals with
  | [] => ([], Limited.Returns)
  | (k, t) :: rest =>
      match Limited.str_of_int t with
      | Ok _ => prepend [total_line k t] (print_totals rest)
      | Raise e => ([], Limited.Dies e)
      end
  end.

Lemma limited_step_record st line :
  Limited.step st line = match Limited.record_of line with
                         | Some r => feed st r
                         | None => Ok st
                         end.
Proof.
  unfold Limited.step, Limited.record_of, feed.
  destruct (is_empty (strip line)); [reflexivity|].
  destruct (Limited.parse (strip line)) as [[w c]|[]]; reflexivity.
Qed.

Lemma limited_records_app a b :
  Limited.records (a ++ b) = Limited.records a ++ Limited.records b.
Proof. apply flat_map_app. Qed.

Lemma records_cons line stdin :
  Limited.records (line :: stdin)
  = match Limited.record_of line with Some r => [r] | None => [] end
    ++ Limited.records stdin.
Proof. reflexivity. Qed.

Lemma loop_records stdin st :
  Limited.loop st stdin = feed_all st (Limited.records stdin).
Proof.
  revert st. induction stdin as [|line stdin IH]; intro st; [reflexivity|].
  rewrite records_cons. cbn [Limited.loop]. rewrite limited_step_record.
  destruct (Limited.record_of line) as [r|]; cbn [app feed_all].
  - destruct (feed st r); [apply IH | reflexivity].
  - apply IH.
Qed.

Lemma main_finish stdin :
  Limited.main stdin = finish (feed_all init (Limited.records stdin)).
Proof.
  unfold Limited.main, Limited.run. rewrite loop_records.
  now destruct (feed_all init (Limited.records stdin)) as [st [|e]].
Qed.

Lemma limited_flush_some st k :
  current_word st = Some k ->
  Limited.flush st
  = match Limited.str_of_int (current_count st) with
    | Ok _ => Ok (stdout st ++ [total_line k (current_count st)])
    | Raise e => Raise e
    end.
Proof.
  intro H. unfold Limited.flush, Limited.format. rewrite H.
  destruct (Limited.str_of_int (current_count st)) as [s|e] eqn:E;
    [|reflexivity].
  apply str_of_int_ok in E as [-> _]. cbn [bind].
  now rewrite <- print_format.
Qed.

Lemma limited_flush_none st : current_word st = None -> Limited.flush st = Ok (stdout st).
Proof. intro H. unfold Limited.flush. now rewrite H. Qed.

(** The run from a state that has a current word: the totals of the
    current group and of the records to come are printed in order, up to
    the first that is too long. *)
Lemma finish_totals recs :
  forall st k,
    current_word st = Some k ->
    finish (feed_all st recs)
    = prepend (stdout st)
        (print_totals (ReducerMore.totals ((k, current_count st) :: recs))).
Proof.
  induction recs as [|[k1 c1] recs IH]; intros st k Hk.
  - cbn [feed_all finish]. rewrite (limited_flush_some _ Hk).
    rewrite ReducerMore.totals_cons. cbn [ReducerMore.totals group map
      ReducerMore.combine print_totals].
    destruct (Limited.str_of_int (current_count st)); unfold prepend; simpl;
      [reflexivity | now rewrite app_nil_r].
  - cbn [feed_all]. unfold feed. cbn [fst snd]. rewrite Hk.
    cbn [same_word]. destruct (str_eqb k k1) eqn:E.
    + apply str_eqb_eq in E. subst k1.
      erewrite IH by reflexivity. cbn [stdout current_count].
      now rewrite (ReducerMore.totals_cons (k, current_count st)),
        (ReducerMore.totals_cons (k, c1)), ReducerMore.combine_twice,
        <- ReducerMore.totals_cons.
    + rewrite (ReducerMore.totals_cons (k, current_count st)).
      destruct (ReducerMore.totals_head (k1, c1) recs) as (t & g & T).
      rewrite T. cbn [ReducerMore.combine fst]. rewrite E.
      cbn [print_totals]. rewrite (limited_flush_some _ Hk).
      destruct (Limited.str_of_int (current_count st)) as [s|e];
        cbn [bind feed_all finish].
      * erewrite IH by reflexivity. cbn [stdout current_count].
        rewrite T. now rewrite prepend_app.
      * unfold prepend. simpl. now rewrite app_nil_r.
Qed.

(** What the script prints, and how it ends, on any input. *)
Lemma limited_main_totals stdin :
  Limited.main stdin
  = print_totals (ReducerMore.totals (Limited.records stdin)).
Proof.
  rewrite main_finish. destruct (Limited.records stdin) as [|[k c] recs].
  - reflexivity.
  - cbn [feed_all]. unfold feed. cbn [fst snd init current_word same_word].
    rewrite limited_flush_none by reflexivity. cbn [bind stdout].
    erewrite finish_totals by reflexivity. cbn [stdout current_count].
    apply prepend_nil.
Qed.

(** The line of a key and a total. *)
Definition line_of (p : str * Z) : str := total_line (fst p) (snd p).

Lemma print_totals_within ts :
  Forall (fun p => within_limit (snd p)) ts ->
  print_totals ts = (map line_of ts, Limited.Returns).
Proof.
  induction 1 as [|[k t] ts W _ IH]; [reflexivity|].
  cbn [print_totals]. simpl in W. rewrite (str_of_int_within W), IH.
  reflexivity.
Qed.

Lemma print_totals_stops printed k t rest :
  Forall (fun p => within_limit (snd p)) printed -> ~ within_limit t ->
  print_totals (printed ++ (k, t) :: rest)
  = (map line_of printed, Limited.Dies ValueError).
Proof.
  intros F W. induction F as [|[k0 t0] ts W0 _ IH].
  - cbn [app print_totals]. now rewrite (str_of_int_over W).
  - cbn [app print_totals]. simpl in W0.
    rewrite (str_of_int_within W0), IH. reflexivity.
Qed.

(** The totals are printed up to the first that is not within the
    limit, and the run ends there. *)
Lemma print_totals_cases ts :
  (Forall (fun p => within_limit (snd p)) ts
   /\ print_totals ts = (map line_of ts, Limited.Returns))
  \/ (exists printed k t rest,
        ts = printed ++ (k, t) :: rest
        /\ Forall (fun p => within_limit (snd p)) printed
        /\ ~ within_limit t
        /\ print_totals ts = (map line_of printed, Limited.Dies ValueError)).
Proof.
  induction ts as [|[k t] ts IH].
  - left. split; [constructor | reflexivity].
  - destruct (allowed_dec (digits t)) as [W|W].
    + destruct IH as [[F E]|(printed & k' & t' & rest & E & F & W' & P)].
      * left. split; [now constructor|].
        apply print_totals_within. now constructor.
      * right. exists ((k, t) :: printed), k', t', rest.
        assert (F' : Forall (fun p => within_limit (snd p)) ((k, t) :: printed))
          by now constructor.
        repeat split; try assumption.
        -- simpl. now rewrite E.
        -- rewrite E. apply (print_totals_stops k' rest F' W').
    + right. exists [], k, t, ts. repeat split; try assumption.
      * constructor.
      * apply (@print_totals_stops [] k t ts (Forall_nil _) W).
Qed.

Lemma print_totals_returns ts out :
  print_totals ts = (out, Limited.Returns) ->
  Forall (fun p => within_limit (snd p)) ts /\ out = map line_of ts.
Proof.
  intro H.
  destruct (print_totals_cases ts)
    as [[F E]|(printed & k & t & rest & _ & _ & _ & P)].
  - split; [assumption | congruence].
  - rewrite P in H. discriminate.
Qed.

(** The totals of maximal runs. *)
Lemma totals_expand runs :
  maximal_runs runs ->
  ReducerMore.totals (expand runs) = map (fun r => (fst r, sum (snd r))) runs.
Proof. intro M. unfold ReducerMore.totals. now rewrite group_expand. Qed.

Lemma lines_of_runs (runs : list key_run) :
  map line_of (map (fun r => (fst r, sum (snd r))) runs) = map run_line runs.
Proof. now rewrite map_map. Qed.

Lemma limited_main_runs stdin runs :
  expand runs = Limited.records stdin -> maximal_runs runs ->
  Forall (fun r => within_limit (sum (snd r))) runs ->
  Limited.main stdin = (map run_line runs, Limited.Returns).
Proof.
  intros E M F. rewrite limited_main_totals, <- E, totals_expand by assumption.
  rewrite print_totals_within, lines_of_runs; [reflexivity|].
  now apply Forall_map.
Qed.

Lemma main_runs_dies stdin printed r rest :
  expand (printed ++ r :: rest) = Limited.records stdin ->
  maximal_runs (printed ++ r :: rest) ->
  Forall (fun r => within_limit (sum (snd r))) printed ->
  ~ within_limit (sum (snd r)) ->
  Limited.main stdin = (map run_line printed, Limited.Dies ValueError).
Proof.
  intros E M F W. rewrite limited_main_totals, <- E, totals_expand by assumption.
  rewrite map_app. cbn [map].
  rewrite print_totals_stops, lines_of_runs; [reflexivity | | assumption].
  now apply Forall_map.
Qed.

(** The records of an input have keys the reducer can read and counts
    within the limit. *)
Lemma records_ok stdin :
  Forall (fun r => key_ok (fst r) /\ within_limit (snd r))
         (Limited.records stdin).
Proof.
  unfold Limited.records. apply Forall_flat_map. apply Forall_forall.
  intros line _.
  destruct (Limited.record_of line) as [[k n]|] eqn:E; [|constructor].
  constructor; [|constructor]. simpl. split.
  - exact (limited_record_key_ok _ E).
  - exact (record_within _ E).
Qed.

Lemma limited_records_keys stdin :
  Forall (fun r => key_ok (fst r)) (Limited.records stdin).
Proof.
  generalize (records_ok stdin). apply Forall_impl. tauto.
Qed.

Lemma totals_keys_ok recs :
  Forall (fun r => key_ok (fst r)) recs ->
  Forall (fun r => key_ok (fst r)) (ReducerMore.totals recs).
Proof.
  intro F. unfold ReducerMore.totals. apply Forall_map.
  generalize (PipelineFacts.group_keys key_ok F). apply Forall_impl.
  now intros [k cs].
Qed.

(** Lines printed read back as the totals they carry. *)
Lemma records_lines ts :
  Forall (fun p => key_ok (fst p)) ts ->
  Forall (fun p => within_limit (snd p)) ts ->
  Limited.records (map line_of ts) = ts.
Proof.
  induction 1 as [|[k t] ts Hk _ IH]; intro W; [reflexivity|].
  inversion W; subst. cbn [map]. rewrite records_cons.
  unfold line_of at 1. cbn [fst snd] in *.
  rewrite limited_record_of_total_line by assumption. now rewrite IH.
Qed.

(** A run that returns has printed the totals of the records it read,
    and they read back. *)
Lemma main_returns stdin out :
  Limited.main stdin = (out, Limited.Returns) ->
  out = map line_of (ReducerMore.totals (Limited.records stdin))
  /\ Limited.records out = ReducerMore.totals (Limited.records stdin).
Proof.
  intro H. rewrite limited_main_totals in H.
  apply print_totals_returns in H as [F ->]. split; [reflexivity|].
  apply records_lines; [|assumption].
  apply totals_keys_ok, limited_records_keys.
Qed.

(** *** The state at the end of the loop *)

Lemma feed_all_same cs st k rest :
  current_word st = Some k ->
  feed_all st (map (pair k) cs ++ rest)
  = feed_all {| current_word := Some k;
                current_count := current_count st + sum cs;
                stdout := stdout st |} rest.
Proof.
  revert st. induction cs as [|c cs IH]; intros st H.
  - cbn [map app sum fold_right]. rewrite Z.add_0_r.
    destruct st; simpl in *. now subst.
  - cbn [map app feed_all]. unfold feed. cbn [fst snd]. rewrite H.
    cbn [same_word]. rewrite str_eqb_refl.
    rewrite IH by reflexivity. cbn [current_count stdout].
    do 2 f_equal. simpl. lia.
Qed.

Lemma feed_all_new cs st k rest out :
  cs <> [] -> current_word st <> Some k -> Limited.flush st = Ok out ->
  feed_all st (map (pair k) cs ++ rest)
  = feed_all {| current_word := Some k;
                current_count := sum cs;
                stdout := out |} rest.
Proof.
  intros Hne H F. destruct cs as [|c cs]; [contradiction|].
  cbn [map app feed_all]. unfold feed. cbn [fst snd].
  rewrite (proj2 (same_word_false _ _) H), F. cbn [bind].
  now rewrite feed_all_same.
Qed.

Lemma feed_all_runs runs :
  forall k cs st out,
    maximal_runs (runs ++ [(k, cs)]) -> fresh st (runs ++ [(k, cs)]) ->
    Limited.flush st = Ok out ->
    Forall (fun r => within_limit (sum (snd r))) runs ->
    feed_all st (expand (runs ++ [(k, cs)]))
    = ({| current_word := Some k;
          current_count := sum cs;
          stdout := out ++ map run_line runs |}, Limited.Returns).
Proof.
  induction runs as [|[k0 cs0] runs IH]; intros k cs st out M F Hf W.
  - simpl in *. unfold expand. cbn [flat_map fst snd].
    rewrite (@feed_all_new cs st k _ out (maximal_runs_head M) F Hf).
    now rewrite app_nil_r.
  - inversion W as [|r rs W0 W']; subst. cbn [fst snd] in *.
    change (expand (((k0, cs0) :: runs) ++ [(k, cs)]))
      with (map (pair k0) cs0 ++ expand (runs ++ [(k, cs)])).
    simpl app in M, F.
    rewrite (@feed_all_new cs0 st k0 _ out (maximal_runs_head M) F Hf).
    rewrite (IH k cs _ (out ++ [total_line k0 (sum cs0)])).
    + cbn [map]. rewrite <- app_assoc. reflexivity.
    + now apply maximal_runs_tail in M.
    + destruct (runs ++ [(k, cs)]) as [|r rest] eqn:E; [exact I|].
      apply maximal_runs_next in M. simpl. congruence.
    + erewrite limited_flush_some by reflexivity. cbn [current_count stdout].
      now rewrite (str_of_int_within W0).
    + assumption.
Qed.

Lemma limited_run_records stdin :
  Limited.run stdin = feed_all init (Limited.records stdin).
Proof. apply loop_records. Qed.

Lemma limited_run_runs stdin runs k cs :
  expand (runs ++ [(k, cs)]) = Limited.records stdin ->
  maximal_runs (runs ++ [(k, cs)]) ->
  Forall (fun r => within_limit (sum (snd r))) runs ->
  Limited.run stdin
  = ({| current_word := Some k;
        current_count := sum cs;
        stdout := map run_line runs |}, Limited.Returns).
Proof.
  intros E M W. rewrite limited_run_records, <- E.
  rewrite (@feed_all_runs runs k cs init [] M); try assumption.
  - reflexivity.
  - destruct runs; simpl; discriminate.
  - reflexivity.
Qed.

Lemma limited_run_no_record stdin :
  Limited.records stdin = [] -> Limited.run stdin = (init, Limited.Returns).
Proof. intro E. now rewrite limited_run_records, E. Qed.

(** The end of [main] from the state the loop returns in. *)
Lemma main_after_loop stdin st :
  Limited.run stdin = (st, Limited.Returns) ->
  Limited.main stdin
  = match current_word st with
    | None => (stdout st, Limited.Returns)
    | Some k =>
        match Limited.str_of_int (current_count st) with
        | Ok _ => (stdout st ++ [total_line k (current_count st)],
                   Limited.Returns)
        | Raise e => (stdout st, Limited.Dies e)
        end
    end.
Proof.
  intro H. unfold Limited.main. rewrite H.
  destruct (current_word st) as [k|] eqn:E.
  - rewrite (limited_flush_some _ E).
    now destruct (Limited.str_of_int (current_count st)).
  - now rewrite (limited_flush_none _ E).
Qed.

End Run.

End LimitedFacts.

(** ** The aggregator under the limit on digits *)

Module LimitedReducer.

Import Py Spec TextFacts IntFacts RecordFacts ReducerFacts DigitFacts.
Import LimitedFacts.
Import Reducer.

Section Aggregator.

Context {ucd : UnicodeData} {interp : Limited.Interpreter}.

Lemma limited_records_well_formed stdin recs :
  Forall2 (fun line r => Limited.record_of line = Some r) stdin recs ->
  Limited.records stdin = recs.
Proof.
  induction 1 as [|line r stdin recs H _ IH]; [reflexivity|].
  rewrite LimitedFacts.records_cons, H, IH. reflexivity.
Qed.

Lemma within_small n : (Z.abs n < 10 ^ 640)%Z -> within_limit n.
Proof.
  intro H. apply allowed_small. apply digits_le; [discriminate | exact H].
Qed.

Lemma within_le a b : within_limit b -> (Z.abs a <= Z.abs b)%Z -> within_limit a.
Proof.
  intros W L. exact (allowed_le W (digits_mono _ _ L)).
Qed.

Lemma within_1 : within_limit 1.
Proof. apply allowed_small. discriminate. Qed.

(** After the first record there is a current word, to the end. *)
Lemma feed_current st r st' :
  feed st r = Ok st' -> current_word st' = Some (fst r).
Proof.
  unfold feed. destruct (same_word (current_word st) (fst r)) eqn:E.
  - intros [= <-]. simpl. now apply same_word_true.
  - destruct (Limited.flush st); [|discriminate]. now intros [= <-].
Qed.

Lemma feed_all_current recs :
  forall st st' e,
    feed_all st recs = (st', e) ->
    (exists k, current_word st = Some k) ->
    exists k, current_word st' = Some k.
Proof.
  induction recs as [|r recs IH]; intros st st' e H Hk.
  - injection H as <- _. exact Hk.
  - cbn [feed_all] in H. destruct (feed st r) as [st1|e1] eqn:F.
    + apply (IH _ _ _ H). exists (fst r). exact (feed_current _ _ F).
    + injection H as <- _. exact Hk.
Qed.

Lemma run_current stdin st e :
  Limited.records stdin <> [] -> Limited.run stdin = (st, e) ->
  exists k, current_word st = Some k.
Proof.
  rewrite limited_run_records. destruct (Limited.records stdin) as [|r recs];
    [contradiction|]. intros _ H.
  cbn [feed_all] in H. unfold feed in H at 1.
  cbn [init current_word same_word] in H.
  rewrite limited_flush_none in H by reflexivity. cbn [bind] in H.
  apply (feed_all_current _ _ H). simpl. eauto.
Qed.

(** A record of the current word is added to the running total. *)
Lemma step_same st line k n :
  current_word st = Some k -> Limited.record_of line = Some (k, n) ->
  Limited.step st line
  = Ok {| current_word := Some k;
          current_count := current_count st + n;
          stdout := stdout st |}.
Proof.
  intros Hc Hr. rewrite limited_step_record, Hr. unfold feed. cbn [fst snd].
  rewrite (proj2 (same_word_true _ _) Hc). now rewrite Hc.
Qed.

(** The runs of an input are printed up to the first whose total is not
    within the limit. *)
Lemma main_runs_cases stdin runs :
  expand runs = Limited.records stdin -> maximal_runs runs ->
  (Forall (fun r => within_limit (sum (snd r))) runs
   /\ Limited.main stdin = (map run_line runs, Limited.Returns))
  \/ (exists printed r rest,
        runs = printed ++ r :: rest
        /\ Forall (fun r => within_limit (sum (snd r))) printed
        /\ ~ within_limit (sum (snd r))
        /\ Limited.main stdin
           = (map run_line printed, Limited.Dies ValueError)).
Proof.
  intros E M.
  assert (C : Forall (fun r => within_limit (sum (snd r))) runs
              \/ exists printed r rest,
                   runs = printed ++ r :: rest
                   /\ Forall (fun r => within_limit (sum (snd r))) printed
                   /\ ~ within_limit (sum (snd r))).
  { clear. induction runs as [|r runs IH]; [left; constructor|].
    destruct (allowed_dec (digits (sum (snd r)))) as [W|W].
    - destruct IH as [F|(printed & r' & rest & -> & F & W')].
      + left. now constructor.
      + right. exists (r :: printed), r', rest.
        repeat split; [now constructor | assumption].
    - right. exists [], r, runs. repeat split; [constructor | assumption]. }
  destruct C as [F|(printed & r & rest & -> & F & W)].
  - left. split; [assumption | now apply limited_main_runs].
  - right. exists printed, r, rest. repeat split; try assumption.
    apply main_runs_dies with (r := r) (rest := rest); assumption.
Qed.

(** The lines of records of one key, read back. *)
Lemma records_of_key k cs :
  key_ok k -> Forall within_limit cs ->
  Limited.records (map (total_line k) cs) = map (pair k) cs.
Proof.
  intros Hk F.
  rewrite <- (records_lines (ts := map (pair k) cs)).
  - now rewrite map_map.
  - apply Forall_map. apply Forall_forall. now intros.
  - now apply Forall_map.
Qed.

Lemma pow2_small w : (0 <= w <= 2000 -> Z.abs (2 ^ w) < 10 ^ 640)%Z.
Proof.
  intro H.
  assert (P : (0 < 2 ^ w)%Z) by (apply Z.pow_pos_nonneg; lia).
  assert (L : (2 ^ w <= 2 ^ 2000)%Z) by (apply Z.pow_le_mono_r; lia).
  assert (B : (2 ^ 2000 < 10 ^ 640)%Z).
  { change 2000%Z with (50 * 40)%Z. change 640%Z with (16 * 40)%Z.
    rewrite !Z.pow_mul_r by lia. apply Z.pow_lt_mono_l; lia. }
  lia.
Qed.

Lemma sum_totals recs :
  sum (map snd (ReducerMore.totals recs)) = sum (map snd recs).
Proof.
  unfold ReducerMore.totals. rewrite map_map. cbn [snd].
  now rewrite sum_runs, expand_group.
Qed.

Lemma records_ext stdin :
  Forall (fun line => Limited.record_of line = Spec.record_of line) stdin ->
  Limited.records stdin = Spec.records stdin.
Proof.
  induction 1 as [|line stdin H _ IH]; [reflexivity|].
  unfold Limited.records, Spec.records in *. simpl. now rewrite H, IH.
Qed.

(** With the limit off, the script reads what [Reducer] reads. *)
Lemma record_of_unlimited line :
  Limited.int_max_str_digits = 0%N ->
  Limited.record_of line = Spec.record_of line.
Proof.
  intro Z0. unfold Limited.record_of, Spec.record_of.
  destruct (is_empty (strip line)); [reflexivity|].
  unfold Limited.parse, Reducer.parse.
  destruct (Reducer.unpack2 (split TAB (strip line))) as [[w c]|e];
    [|reflexivity].
  cbn [bind snd fst]. rewrite int_limited, check_false; [reflexivity|].
  now left.
Qed.

(** The script returns with the output of [Reducer] when it reads the
    same records and every total is within the limit. *)
Lemma main_reducer stdin :
  Limited.records stdin = Spec.records stdin ->
  Forall (fun p => within_limit (snd p))
         (ReducerMore.totals (Spec.records stdin)) ->
  Limited.main stdin = (Reducer.main stdin, Limited.Returns).
Proof.
  intros E F. rewrite limited_main_totals, E, print_totals_within by assumption.
  now rewrite ReducerMore.main_totals.
Qed.

Lemma sum_member_le l x :
  Forall (fun c => (0 <= c)%Z) l -> In x l -> (0 <= x <= sum l)%Z.
Proof.
  induction 1 as [|c l Hc F IH]; intros H; [contradiction|].
  pose proof (ReducerMore.sum_nonneg F) as S. simpl.
  destruct H as [->|H]; [lia|]. specialize (IH H). lia.
Qed.

(** With counts that are not negative, a total is between 0 and the sum
    of all counts. *)
Lemma totals_bounded recs :
  Forall (fun r => (0 <= snd r)%Z) recs ->
  Forall (fun p => (0 <= snd p <= sum (map snd recs))%Z)
         (ReducerMore.totals recs).
Proof.
  intro F. rewrite <- (sum_totals recs).
  assert (N : Forall (fun c => (0 <= c)%Z)
                (map snd (ReducerMore.totals recs))).
  { unfold ReducerMore.totals. rewrite map_map. cbn [snd]. apply Forall_map.
    generalize (ReducerMore.group_counts (fun c => (0 <= c)%Z) F).
    apply Forall_impl. intros r. apply ReducerMore.sum_nonneg. }
  apply Forall_forall. intros p Hp.
  apply (@sum_member_le _ (snd p) N). now apply in_map.
Qed.

End Aggregator.

(** C1, amended: on an input of well-formed records the aggregator
    prints one line per maximal contiguous run of a key, carrying the
    key and the sum of the counts of the run, in the order of the runs,
    and returns, provided the total of every run is within the limit of
    the interpreter on the digits of an integer: the records have such a
    cutting into runs, and whatever cutting into maximal runs one takes,
    the output is the list of its lines.  When the total of a run is not
    within the limit, the lines of the runs before it are printed and the
    run dies at the [print] of that total.  A key that comes back after
    another key gets a second line of its own. *)
Theorem one_pair_per_run_within_limit
    (ucd : UnicodeData) (interp : Limited.Interpreter) :
  (forall stdin recs,
      Forall2 (fun line r => Limited.record_of line = Some r) stdin recs ->
      (exists runs,
          expand runs = recs /\ maximal_runs runs
          /\ (Forall (fun r => within_limit (sum (snd r))) runs ->
              Limited.main stdin = (map run_line runs, Limited.Returns)))
      /\ (forall runs,
          expand runs = recs -> maximal_runs runs ->
          Forall (fun r => within_limit (sum (snd r))) runs ->
          Limited.main stdin = (map run_line runs, Limited.Returns))
      /\ (forall printed r rest,
          expand (printed ++ r :: rest) = recs ->
          maximal_runs (printed ++ r :: rest) ->
          Forall (fun r => within_limit (sum (snd r))) printed ->
          ~ within_limit (sum (snd r)) ->
          Limited.main stdin
          = (map run_line printed, Limited.Dies ValueError)))
  /\ (forall l1 l2 l3 k k' c1 c2 c3,
      Limited.record_of l1 = Some (k, c1) ->
      Limited.record_of l2 = Some (k', c2) ->
      Limited.record_of l3 = Some (k, c3) ->
      k <> k' ->
      Limited.main [l1; l2; l3]
      = ([total_line k c1; total_line k' c2; total_line k c3],
         Limited.Returns)).
Proof.
  split.
  - intros stdin recs W. apply limited_records_well_formed in W. subst recs.
    repeat apply conj.
    + exists (group (Limited.records stdin)).
      split; [apply expand_group|].
      split; [apply maximal_runs_group|].
      apply limited_main_runs; [apply expand_group | apply maximal_runs_group].
    + intros runs E M. now apply limited_main_runs.
    + intros printed r rest E M F W.
      apply main_runs_dies with (r := r) (rest := rest); assumption.
  - intros l1 l2 l3 k k' c1 c2 c3 H1 H2 H3 Hk.
    rewrite (@limited_main_runs _ _ [l1; l2; l3] [(k, [c1]); (k', [c2]); (k, [c3])]).
    + unfold run_line. simpl. now rewrite !Z.add_0_r.
    + unfold Limited.records, expand. simpl. now rewrite H1, H2, H3.
    + constructor; [discriminate | assumption |].
      constructor; [discriminate | congruence |].
      constructor. discriminate.
    + apply record_within in H1, H2, H3.
      repeat (constructor; [simpl; now rewrite Z.add_0_r|]). constructor.
Qed.

(** C4, amended: at end of input, a reducer that has a current word
    prints the line of that word and its running total, once, after
    what the loop printed, provided the total is within the limit of the
    interpreter; when it is not, the last [print] raises and the group
    gets no line.  The loop printed the lines of the earlier runs only,
    so the last run gets exactly one line.  With no well-formed record
    in the input (an empty input, say) there is no current word at the
    end and nothing is printed. *)
Theorem final_flush_within_limit
    (ucd : UnicodeData) (interp : Limited.Interpreter) :
  (forall stdin st k,
      Limited.run stdin = (st, Limited.Returns) ->
      current_word st = Some k ->
      (within_limit (current_count st) ->
       Limited.main stdin
       = (stdout st ++ [total_line k (current_count st)], Limited.Returns))
      /\ (~ within_limit (current_count st) ->
          Limited.main stdin = (stdout st, Limited.Dies ValueError)))
  /\ (forall stdin runs k cs,
      expand (runs ++ [(k, cs)]) = Limited.records stdin ->
      maximal_runs (runs ++ [(k, cs)]) ->
      Forall (fun r => within_limit (sum (snd r))) runs ->
      Limited.run stdin
      = ({| current_word := Some k;
            current_count := sum cs;
            stdout := map run_line runs |}, Limited.Returns)
      /\ (within_limit (sum cs) ->
          Limited.main stdin
          = (map run_line runs ++ [total_line k (sum cs)], Limited.Returns))
      /\ (~ within_limit (sum cs) ->
          Limited.main stdin = (map run_line runs, Limited.Dies ValueError)))
  /\ (forall stdin,
      Limited.records stdin = [] ->
      Limited.run stdin = (init, Limited.Returns)
      /\ Limited.main stdin = ([], Limited.Returns))
  /\ (forall stdin st e,
      Limited.records stdin <> [] -> Limited.run stdin = (st, e) ->
      exists k, current_word st = Some k)
  /\ Limited.main [] = ([], Limited.Returns).
Proof.
  assert (A : forall stdin st k,
      Limited.run stdin = (st, Limited.Returns) ->
      current_word st = Some k ->
      (within_limit (current_count st) ->
       Limited.main stdin
       = (stdout st ++ [total_line k (current_count st)], Limited.Returns))
      /\ (~ within_limit (current_count st) ->
          Limited.main stdin = (stdout st, Limited.Dies ValueError))).
  { intros stdin st k R Hk. rewrite (main_after_loop _ R), Hk.
    split; intro W.
    - now rewrite (str_of_int_within W).
    - now rewrite (str_of_int_over W). }
  repeat apply conj.
  - exact A.
  - intros stdin runs k cs E M W.
    pose proof (@limited_run_runs _ _ stdin runs k cs E M W) as R.
    split; [exact R|]. exact (A stdin _ k R eq_refl).
  - intros stdin E. split; [now apply limited_run_no_record|].
    unfold Limited.main. now rewrite (limited_run_no_record _ E).
  - intros stdin st e. apply run_current.
  - reflexivity.
Qed.

(** *** Exact totals and lenient records *)

(** C9: totals never wrap.  Whatever the input and the limit of the
    interpreter, every line printed carries the sum, in the integers, of
    the counts of its run, and the lines come in the order of the runs:
    either all the runs are printed and the run returns, or the lines of
    the runs before the first total that is not within the limit are
    printed and the run dies there; no other number is ever printed.
    The text printed for an integer reads back as that very integer.  A
    run of records of one key leaves the exact sum of its counts as the
    running total, whatever its size, and prints it when it is within
    the limit: adding one to [2 ^ w - 1] prints [2 ^ w], for every width
    [w] within the limit, and for every width up to 2000 bits under any
    limit. *)
Theorem emitted_totals_are_exact
    (ucd : UnicodeData) (interp : Limited.Interpreter) :
  (forall stdin runs,
      expand runs = Limited.records stdin -> maximal_runs runs ->
      (Forall (fun r => within_limit (sum (snd r))) runs
       /\ Limited.main stdin
          = (map (fun r => total_line (fst r) (sum (snd r))) runs,
             Limited.Returns))
      \/ (exists printed r rest,
            runs = printed ++ r :: rest
            /\ Forall (fun r => within_limit (sum (snd r))) printed
            /\ ~ within_limit (sum (snd r))
            /\ Limited.main stdin
               = (map (fun r => total_line (fst r) (sum (snd r))) printed,
                  Limited.Dies ValueError)))
  /\ (forall n s, Limited.str_of_int n = Ok s -> Limited.int s = Ok n)
  /\ (forall k n,
      key_ok k -> within_limit n ->
      Limited.record_of (total_line k n) = Some (k, n))
  /\ (forall k cs,
      key_ok k -> cs <> [] -> Forall within_limit cs ->
      Limited.run (map (total_line k) cs)
      = ({| current_word := Some k;
            current_count := sum cs;
            stdout := [] |}, Limited.Returns)
      /\ (within_limit (sum cs) ->
          Limited.main (map (total_line k) cs)
          = ([total_line k (sum cs)], Limited.Returns))
      /\ (~ within_limit (sum cs) ->
          Limited.main (map (total_line k) cs)
          = ([], Limited.Dies ValueError)))
  /\ (forall k w,
      key_ok k -> (0 <= w)%Z -> within_limit (2 ^ w) ->
      Limited.main [total_line k (2 ^ w - 1); total_line k 1]
      = ([total_line k (2 ^ w)], Limited.Returns))
  /\ (forall k w,
      key_ok k -> (0 <= w <= 2000)%Z ->
      Limited.main [total_line k (2 ^ w - 1); total_line k 1]
      = ([total_line k (2 ^ w)], Limited.Returns)).
Proof.
  assert (K : forall k cs,
      key_ok k -> cs <> [] -> Forall within_limit cs ->
      Limited.run (map (total_line k) cs)
      = ({| current_word := Some k;
            current_count := sum cs;
            stdout := [] |}, Limited.Returns)
      /\ (within_limit (sum cs) ->
          Limited.main (map (total_line k) cs)
          = ([total_line k (sum cs)], Limited.Returns))
      /\ (~ within_limit (sum cs) ->
          Limited.main (map (total_line k) cs)
          = ([], Limited.Dies ValueError))).
  { intros k cs Hk Hne F.
    assert (E : expand ([] ++ [(k, cs)])
                = Limited.records (map (total_line k) cs)).
    { rewrite records_of_key by assumption. unfold expand. simpl.
      apply app_nil_r. }
    assert (M : maximal_runs ([] ++ [(k, cs)])) by now constructor.
    pose proof (@limited_run_runs _ _ _ [] k cs E M (Forall_nil _)) as R.
    split; [exact R|]. rewrite (main_after_loop _ R).
    cbn [current_word current_count stdout app].
    split; intro W.
    - now rewrite (str_of_int_within W).
    - now rewrite (str_of_int_over W). }
  assert (P : forall k w,
      key_ok k -> (0 <= w)%Z -> within_limit (2 ^ w) ->
      Limited.main [total_line k (2 ^ w - 1); total_line k 1]
      = ([total_line k (2 ^ w)], Limited.Returns)).
  { intros k w Hk Hw W.
    assert (P2 : (0 < 2 ^ w)%Z) by (apply Z.pow_pos_nonneg; lia).
    assert (S : sum [(2 ^ w - 1)%Z; 1%Z] = (2 ^ w)%Z) by (simpl; lia).
    destruct (K k [(2 ^ w - 1)%Z; 1%Z] Hk) as (_ & M & _).
    - discriminate.
    - constructor; [apply (@within_le _ (2 ^ w - 1) (2 ^ w) W); lia|].
      constructor; [exact within_1 | constructor].
    - rewrite S in M. exact (M W). }
  repeat apply conj.
  - intros stdin runs E M. exact (main_runs_cases _ E M).
  - intros n s H. apply str_of_int_ok in H as [-> W].
    pose proof (@int_rendered _ _ [] n [] (Forall_nil _) (Forall_nil _) W)
      as I.
    simpl in I. now rewrite app_nil_r in I.
  - intros k n. apply limited_record_of_total_line.
  - exact K.
  - exact P.
  - intros k w Hk Hw. apply P; [assumption | lia |].
    apply within_small. now apply pow2_small.
Qed.

(** C10, amended: the reducer accepts more than the wire format, for
    counts of no more digits than the limit of the interpreter allows.
    A line in the wire format is a record when its count has no more
    digits than that, and is skipped when it has more; a key, a tab and
    a rendered integer within the limit (negative ones too), with white
    space before the key or after the count and spaces in front of the
    count, is a record, and the same with a plus sign.  The lines of the
    examples are records under any limit and are not in the wire
    format; and a record with a negative count for the current word
    lowers the running total. *)
Theorem lenient_records_within_limit
    (ucd : UnicodeData) (interp : Limited.Interpreter) :
  (forall line k ds,
      key_ok k -> ds <> [] ->
      Forall (fun c => is_ascii_digit c = true) ds ->
      line = k ++ [TAB] ++ ds ++ [LF] ->
      wire_format line
      /\ (allowed (N.of_nat (length ds)) -> Limited.well_formed line)
      /\ (~ allowed (N.of_nat (length ds)) -> Limited.record_of line = None))
  /\ (forall ws1 k sp n ws2,
      key_ok k ->
      Forall (fun c => isspace c = true) ws1 ->
      Forall (fun c => isspace c = true) ws2 ->
      Forall (fun c => c_isspace c = true /\ c <> TAB) sp ->
      within_limit n ->
      Limited.record_of (ws1 ++ (k ++ [TAB] ++ sp ++ str_of_int n) ++ ws2)
      = Some (k, n))
  /\ (forall ws1 k sp n ws2,
      key_ok k ->
      Forall (fun c => isspace c = true) ws1 ->
      Forall (fun c => isspace c = true) ws2 ->
      Forall (fun c => c_isspace c = true /\ c <> TAB) sp ->
      (0 <= n)%Z -> within_limit n ->
      Limited.record_of
        (ws1 ++ (k ++ [TAB] ++ sp ++ [43%N] ++ str_of_int n) ++ ws2)
      = Some (k, n))
  /\ (Limited.record_of (lit "word" ++ [TAB] ++ lit "3  " ++ [LF])
      = Some (lit "word", 3%Z)
      /\ ~ wire_format (lit "word" ++ [TAB] ++ lit "3  " ++ [LF]))
  /\ (Limited.record_of ([TAB] ++ lit "word" ++ [TAB] ++ lit "3" ++ [LF])
      = Some (lit "word", 3%Z)
      /\ ~ wire_format ([TAB] ++ lit "word" ++ [TAB] ++ lit "3" ++ [LF]))
  /\ (Limited.record_of (lit "word" ++ [TAB] ++ lit " 3 " ++ [LF])
      = Some (lit "word", 3%Z)
      /\ ~ wire_format (lit "word" ++ [TAB] ++ lit " 3 " ++ [LF]))
  /\ (Limited.record_of (lit "word" ++ [TAB] ++ lit "+3" ++ [LF])
      = Some (lit "word", 3%Z)
      /\ ~ wire_format (lit "word" ++ [TAB] ++ lit "+3" ++ [LF]))
  /\ (Limited.record_of (lit "word" ++ [TAB] ++ lit "-3" ++ [LF])
      = Some (lit "word", (-3)%Z)
      /\ ~ wire_format (lit "word" ++ [TAB] ++ lit "-3" ++ [LF]))
  /\ (forall st line k n,
      current_word st = Some k -> Limited.record_of line = Some (k, n) ->
      (n < 0)%Z ->
      exists st',
        Limited.step st line = Ok st'
        /\ current_word st' = Some k
        /\ current_count st' = (current_count st + n)%Z
        /\ (current_count st' < current_count st)%Z)
  /\ Limited.main [lit "word" ++ [TAB] ++ lit "5" ++ [LF];
                   lit "word" ++ [TAB] ++ lit "-3" ++ [LF]]
     = ([lit "word" ++ [TAB] ++ lit "2" ++ [LF]], Limited.Returns).
Proof.
  assert (NW : forall k0 cs,
      ~ In TAB k0 -> ~ In TAB cs ->
      forallb is_ascii_digit (removelast cs) = false ->
      ~ wire_format (k0 ++ [TAB] ++ cs)).
  { intros k0 cs Hk Hc Hd (k & ds & (Hk' & _) & _ & Fd & E).
    symmetry in E. apply cut_unique in E as [_ E]; try assumption.
    subst cs. rewrite removelast_last in Hd.
    rewrite Forall_forall in Fd. apply forallb_forall in Fd. congruence. }
  assert (T : forall l : str, existsb (N.eqb TAB) l = false -> ~ In TAB l).
  { intros l H Hin.
    assert (E : existsb (N.eqb TAB) l = true)
      by (apply existsb_exists; exists TAB; split;
          [assumption | apply N.eqb_refl]).
    congruence. }
  repeat apply conj.
  - intros line k ds Hk Hne Fd ->.
    destruct (record_of_wire Hk Hne Fd) as [Y N].
    split; [exists k, ds; auto|]. split; intro A.
    + destruct (Y A) as (n & R). unfold Limited.well_formed. now rewrite R.
    + exact (N A).
  - intros. now apply limited_record_of_padded.
  - intros. now apply limited_record_of_plus.
  - reflexivity.
  - apply (NW (lit "word") (lit "3  " ++ [LF])); try apply T; reflexivity.
  - reflexivity.
  - intros (k & ds & (_ & c & k' & -> & Hc) & _ & _ & E).
    simpl in E. injection E as <- _. discriminate Hc.
  - reflexivity.
  - apply (NW (lit "word") (lit " 3 " ++ [LF])); try apply T; reflexivity.
  - reflexivity.
  - apply (NW (lit "word") (lit "+3" ++ [LF])); try apply T; reflexivity.
  - reflexivity.
  - apply (NW (lit "word") (lit "-3" ++ [LF])); try apply T; reflexivity.
  - intros st line k n Hc Hr Hn. eexists. split.
    + exact (step_same _ _ Hc Hr).
    + simpl. repeat split. lia.
  - reflexivity.
Qed.

End LimitedReducer.

(** ** More on the aggregator under the limit on digits *)

Module LimitedMore.

Import Py Spec TextFacts IntFacts RecordFacts ReducerFacts PipelineFacts.
Import ReducerMore DigitFacts LimitedFacts LimitedReducer.

(** X1: the reducer can serve as its own combiner when its runs return.
    Reducing two inputs apart, both runs returning, and reducing the two
    outputs put end to end does what reducing the two inputs put end to
    end does: the same lines, and the same ending.  In particular the
    reducer run on the output of a run that returned prints that output
    again. *)
Theorem combiner_of_returning_runs
    (ucd : UnicodeData) (interp : Limited.Interpreter) :
  (forall a b out_a out_b,
      Limited.main a = (out_a, Limited.Returns) ->
      Limited.main b = (out_b, Limited.Returns) ->
      Limited.main (out_a ++ out_b) = Limited.main (a ++ b))
  /\ (forall a out,
      Limited.main a = (out, Limited.Returns) ->
      Limited.main out = (out, Limited.Returns)).
Proof.
  assert (C : forall a b out_a out_b,
      Limited.main a = (out_a, Limited.Returns) ->
      Limited.main b = (out_b, Limited.Returns) ->
      Limited.main (out_a ++ out_b) = Limited.main (a ++ b)).
  { intros a b out_a out_b Ha Hb.
    apply main_returns in Ha as [_ Ra], Hb as [_ Rb].
    rewrite !LimitedFacts.limited_main_totals, !LimitedFacts.limited_records_app, Ra, Rb.
    now rewrite totals_totals_app, totals_app_totals. }
  split; [exact C|].
  intros a out Ha.
  pose proof (C a [] out [] Ha eq_refl) as H.
  rewrite !app_nil_r in H. congruence.
Qed.

(** X2: when a run returns, for every key the totals printed for that
    key add up to the sum of the counts of the well-formed records of
    that key in the input, whatever the order of the input: with a key
    in several runs, its partial totals add up to its full count.  So
    do all the totals printed and all the counts read. *)
Theorem totals_conserved_on_return
    (ucd : UnicodeData) (interp : Limited.Interpreter) stdin out :
  Limited.main stdin = (out, Limited.Returns) ->
  (forall k,
      count_of k (Limited.records out) = count_of k (Limited.records stdin))
  /\ sum (map snd (Limited.records out))
     = sum (map snd (Limited.records stdin)).
Proof.
  intro H. apply main_returns in H as [_ R]. rewrite R. split.
  - intro k. apply count_of_totals.
  - apply sum_totals.
Qed.

(** X3: when the keys of the input come grouped, as after a sort, and
    the run returns, the reducer has printed one line per distinct key:
    no key is printed twice, the keys printed are the keys read, and the
    total printed for a key is the sum of the counts of all the records
    of that key. *)
Theorem grouped_input_on_return
    (ucd : UnicodeData) (interp : Limited.Interpreter) stdin out :
  Limited.main stdin = (out, Limited.Returns) ->
  grouped (map fst (Limited.records stdin)) ->
  out = map (fun p => total_line (fst p) (snd p)) (Limited.records out)
  /\ NoDup (map fst (Limited.records out))
  /\ (forall k,
      In k (map fst (Limited.records out))
      <-> In k (map fst (Limited.records stdin)))
  /\ (forall k t,
      In (k, t) (Limited.records out) ->
      t = count_of k (Limited.records stdin)).
Proof.
  intros H G. apply main_returns in H as [E R]. rewrite R.
  repeat apply conj.
  - exact E.
  - now apply totals_nodup.
  - intro k. apply totals_keys.
  - intros k t H. rewrite <- (count_of_totals k (Limited.records stdin)).
    symmetry. apply count_of_nodup; [now apply totals_nodup | assumption].
Qed.

(** X16: [Reducer] is the script run with the limit off, and the script
    under any limit when no number is too long.  With the limit at 0
    the script reads the records [Reducer] reads, prints what it
    prints, and returns, on every input.  Under any limit a record the
    script reads is a record for [Reducer]; and when the script reads
    all the records [Reducer] reads and every total is within the limit,
    it prints what [Reducer] prints and returns. *)
Theorem reducer_is_the_script_within_limit
    (ucd : UnicodeData) (interp : Limited.Interpreter) :
  (Limited.int_max_str_digits = 0%N ->
   forall stdin,
     Limited.records stdin = Spec.records stdin
     /\ Limited.main stdin = (Reducer.main stdin, Limited.Returns))
  /\ (forall line r,
      Limited.record_of line = Some r -> Spec.record_of line = Some r)
  /\ (forall stdin,
      Limited.records stdin = Spec.records stdin ->
      Forall (fun p => within_limit (snd p))
             (totals (Spec.records stdin)) ->
      Limited.main stdin = (Reducer.main stdin, Limited.Returns))
  /\ (forall stdin out,
      Limited.records stdin = Spec.records stdin ->
      Limited.main stdin = (out, Limited.Returns) ->
      out = Reducer.main stdin).
Proof.
  repeat apply conj.
  - intros Z0 stdin.
    assert (E : Limited.records stdin = Spec.records stdin).
    { apply records_ext. apply Forall_forall. intros line _.
      now apply record_of_unlimited. }
    split; [exact E|]. apply main_reducer; [exact E|].
    apply Forall_forall. intros p _. now left.
  - intros line r. apply record_of_spec.
  - intros stdin. apply main_reducer.
  - intros stdin out E H. apply main_returns in H as [-> _].
    now rewrite E, ReducerMore.main_totals.
Qed.

(** X17: on the output of the mapper the limit never bites.  Feed the
    script under any limit the mapper's output for a text of fewer than
    [10 ^ 640] tokens, reordered in any way: it reads every line, every
    total it prints has at most 640 digits, and it prints what
    [Reducer] prints and returns. *)
Theorem pipeline_is_within_any_limit
    (ucd : UnicodeData) (interp : Limited.Interpreter) text shuffled :
  Permutation (Mapper.main text) shuffled ->
  (Z.of_nat (length (Mapper.main text)) < 10 ^ 640)%Z ->
  Limited.records shuffled = Spec.records shuffled
  /\ Forall (fun p => (digits (snd p) <= 640)%N)
            (totals (Spec.records shuffled))
  /\ Limited.main shuffled = (Reducer.main shuffled, Limited.Returns).
Proof.
  intros P L.
  rewrite mapper_main_tokens in P.
  pose proof (tokens_of_tokens text) as T.
  assert (E : Limited.records shuffled = Spec.records shuffled).
  { apply records_ext. apply Forall_forall. intros line Hl.
    apply (Permutation_in _ (Permutation_sym P)) in Hl.
    apply in_map_iff in Hl as (t & <- & Ht).
    rewrite Forall_forall in T. specialize (T t Ht).
    rewrite (record_of_pair_line T).
    change (pair_line t) with (total_line t 1).
    apply limited_record_of_total_line; [exact (token_key_ok T) | exact within_1]. }
  assert (R : Permutation (map (fun t => (t, 1%Z)) (tokens_of text))
                (Spec.records shuffled)).
  { rewrite <- (records_pair_lines T). now apply records_perm. }
  assert (S : sum (map snd (Spec.records shuffled))
              = Z.of_nat (length (Mapper.main text))).
  { rewrite <- (sum_perm (Permutation_map snd R)), sum_ones.
    now rewrite mapper_main_tokens, length_map. }
  assert (N : Forall (fun r => (0 <= snd r)%Z) (Spec.records shuffled)).
  { apply Forall_forall. intros r Hr.
    apply (Permutation_in _ (Permutation_sym R)) in Hr.
    apply in_map_iff in Hr as (t & <- & _). simpl. lia. }
  pose proof (totals_bounded N) as B. rewrite S in B.
  assert (D : Forall (fun p => (digits (snd p) <= 640)%N)
                (totals (Spec.records shuffled))).
  { revert B. apply Forall_impl. intros p Hp.
    apply digits_le; [discriminate | lia]. }
  repeat split; try assumption.
  apply main_reducer; [exact E|].
  revert D. apply Forall_impl. intros p Hp. now apply allowed_small.
Qed.

End LimitedMore.

(** ** Runs under the default limit *)

Module LimitSamples.

Import Py Spec TextFacts IntFacts RecordFacts ReducerFacts PipelineFacts.
Import ReducerMore DigitFacts LimitedFacts LimitedReducer LimitedMore.
Import Samples.
Import Reducer.

(** *** Numbers of 4300 digits and more *)

Local Open Scope Z_scope.

(** The numeral of [d] nines. *)
Definition nines (d : nat) : Decimal.uint := Nat.iter d Decimal.D9 Decimal.Nil.

Lemma chars_of_nines d : chars_of_uint (nines d) = repeat 57%N d.
Proof. induction d as [|d IH]; [reflexivity|]. simpl. now rewrite IH. Qed.

Lemma value_of_nines d acc :
  uint_value (nines d) acc = (acc + 1) * 10 ^ Z.of_nat d - 1.
Proof.
  revert acc. induction d as [|d IH]; intro acc.
  - simpl. lia.
  - change (nines (S d)) with (Decimal.D9 (nines d)).
    cbn [uint_value]. rewrite IH, Nat2Z.inj_succ, Z.pow_succ_r
      by apply Nat2Z.is_nonneg. ring.
Qed.

(** The text of the value of a numeral with no zero in front is the
    numeral. *)
Lemma str_of_int_uint u :
  Decimal.nzhead u = u -> u <> Decimal.Nil ->
  str_of_int (uint_value u 0) = chars_of_uint u.
Proof.
  intros H Hn.
  pose proof (uint_value_lower H Hn) as L.
  assert (P : 0 < 10 ^ (Z.of_nat (Decimal.nb_digits u) - 1)).
  { destruct (nb_digits_pos Hn) as (m & ->).
    apply Z.pow_pos_nonneg; lia. }
  pose proof (DecimalPos.Unsigned.to_of u) as T.
  rewrite <- of_uint_value in *.
  destruct (Pos.of_uint u) as [|p]; [simpl in L; lia|].
  simpl in T. cbn [Z.of_N]. rewrite str_of_int_nonneg by lia.
  cbn [numeral]. rewrite T, DecimalFacts.unorm_nzhead; rewrite H; auto.
Qed.

Lemma str_of_int_nines d :
  str_of_int (10 ^ Z.of_nat (S d) - 1) = repeat 57%N (S d).
Proof.
  rewrite <- chars_of_nines.
  pose proof (value_of_nines (S d) 0) as V.
  rewrite Z.add_0_l, Z.mul_1_l in V. rewrite <- V.
  apply str_of_int_uint; [reflexivity | discriminate].
Qed.

(** The largest count the default limit lets through: 4300 nines. *)
Definition huge : Z := 10 ^ 4300 - 1.

(** A record of it: w, a tab, 4300 nines, a line break. *)
Definition huge_line : str := lit "w" ++ [TAB] ++ repeat 57%N 4300 ++ [LF].

(** A line in the wire format with one digit too many: 4301 ones. *)
Definition long_line : str := lit "w" ++ [TAB] ++ repeat 49%N 4301 ++ [LF].

Lemma huge_line_total : huge_line = total_line (lit "w") huge.
Proof.
  unfold huge_line, total_line, huge.
  change 4300 with (Z.of_nat 4300). now rewrite str_of_int_nines.
Qed.

Lemma key_ok_w : key_ok (lit "w").
Proof.
  split.
  - simpl. unfold TAB. intuition discriminate.
  - eexists _, _. split; reflexivity.
Qed.

Lemma default_allowed d :
  @allowed Limited.default_interpreter d <-> (d <= 4300)%N.
Proof.
  unfold allowed. cbn [Limited.int_max_str_digits Limited.default_interpreter].
  unfold Limited.default_max_str_digits. split.
  - intros [H|H]; [discriminate | exact H].
  - now right.
Qed.

Lemma huge_within : @within_limit Limited.default_interpreter huge.
Proof.
  apply default_allowed. apply digits_le; [discriminate|].
  unfold huge. change (Z.of_N 4300) with 4300.
  assert (0 < 10 ^ 4300) by (apply Z.pow_pos_nonneg; lia).
  generalize dependent (10 ^ 4300). intros. lia.
Qed.

Lemma twice_huge_over : ~ @within_limit Limited.default_interpreter (sum [huge; huge]).
Proof.
  intro W. apply default_allowed in W.
  assert (G : (4300 < digits (sum [huge; huge]))%N).
  { apply digits_gt. unfold huge, sum, fold_right.
    change (Z.of_N 4300) with 4300.
    assert (10 ^ 1 <= 10 ^ 4300) by (apply Z.pow_le_mono_r; lia).
    change (10 ^ 1) with 10 in *.
    generalize dependent (10 ^ 4300). intros. lia. }
  lia.
Qed.

Lemma huge_record :
  Limited.record_of (interp := Limited.default_interpreter) huge_line
  = Some (lit "w", huge).
Proof.
  rewrite huge_line_total.
  apply limited_record_of_total_line; [exact key_ok_w | exact huge_within].
Qed.

Lemma small_within (interp : Limited.Interpreter) n :
  (Z.abs n <? 10 ^ 640) = true -> within_limit n.
Proof. intro H. apply within_small. now apply Z.ltb_lt. Defined.

(** *** Past the default limit *)

(** Two records of one key whose counts are within the limit and whose
    sum is not: one run, no line, and a traceback. *)
Lemma one_pair_per_run_fails_past_limit :
  Forall2 (fun line r =>
             Limited.record_of (interp := Limited.default_interpreter) line = Some r)
          [huge_line; huge_line] [(lit "w", huge); (lit "w", huge)]
  /\ expand [(lit "w", [huge; huge])] = [(lit "w", huge); (lit "w", huge)]
  /\ maximal_runs [(lit "w", [huge; huge])]
  /\ Limited.main (interp := Limited.default_interpreter) [huge_line; huge_line]
     = ([], Limited.Dies ValueError)
  /\ Limited.main (interp := Limited.default_interpreter) [huge_line; huge_line]
     <> (map run_line [(lit "w", [huge; huge])], Limited.Returns).
Proof.
  assert (F : Forall2 (fun line r =>
                Limited.record_of (interp := Limited.default_interpreter) line
                = Some r)
              [huge_line; huge_line] [(lit "w", huge); (lit "w", huge)]).
  { constructor; [exact huge_record|].
    constructor; [exact huge_record | constructor]. }
  assert (M : maximal_runs [(lit "w", [huge; huge])])
    by (constructor; discriminate).
  assert (D : Limited.main (interp := Limited.default_interpreter)
                [huge_line; huge_line]
              = ([], Limited.Dies ValueError)).
  { apply (@main_runs_dies _ Limited.default_interpreter [huge_line; huge_line]
             [] (lit "w", [huge; huge]) []).
    - now rewrite (limited_records_well_formed F).
    - exact M.
    - constructor.
    - exact twice_huge_over. }
  split; [exact F|]. split; [reflexivity|]. split; [exact M|].
  split; [exact D|]. rewrite D. discriminate.
Qed.

(** The same two records after a record of another key: at the end of
    the input the reducer has a current word, and its group gets no
    line. *)
Lemma final_flush_fails_past_limit :
  Limited.run (interp := Limited.default_interpreter)
    [record_line "a" "1"; huge_line; huge_line]
  = ({| current_word := Some (lit "w");
        current_count := sum [huge; huge];
        stdout := [record_line "a" "1"] |}, Limited.Returns)
  /\ Limited.main (interp := Limited.default_interpreter)
       [record_line "a" "1"; huge_line; huge_line]
     = ([record_line "a" "1"], Limited.Dies ValueError).
Proof.
  assert (E : expand ([(lit "a", [1])] ++ [(lit "w", [huge; huge])])
              = Limited.records (interp := Limited.default_interpreter)
                  [record_line "a" "1"; huge_line; huge_line]).
  { symmetry. apply limited_records_well_formed.
    constructor; [reflexivity|]. constructor; [exact huge_record|].
    constructor; [exact huge_record | constructor]. }
  assert (M : maximal_runs ([(lit "a", [1])] ++ [(lit "w", [huge; huge])])).
  { constructor; [discriminate | now apply lit_neq |].
    constructor. discriminate. }
  assert (W : Forall (fun r => @within_limit Limited.default_interpreter (sum (snd r)))
                [(lit "a", [1])]).
  { constructor; [|constructor]. now apply small_within. }
  split.
  - exact (@limited_run_runs _ _ _ _ _ _ E M W).
  - exact (@main_runs_dies _ _ _ _ _ _ E M W twice_huge_over).
Qed.

(** A line in the wire format that the reducer skips. *)
Lemma wire_format_line_skipped_past_limit :
  wire_format long_line
  /\ Limited.record_of (interp := Limited.default_interpreter) long_line = None
  /\ ~ Limited.well_formed (interp := Limited.default_interpreter) long_line.
Proof.
  assert (Fd : Forall (fun c => is_ascii_digit c = true) (repeat 49%N 4301)).
  { apply Forall_forall. intros c H. apply repeat_spec in H. now subst. }
  assert (Hne : repeat 49%N 4301 <> []) by discriminate.
  assert (R : Limited.record_of (interp := Limited.default_interpreter) long_line
              = None).
  { apply (record_of_wire (interp := Limited.default_interpreter) key_ok_w Hne Fd).
    rewrite repeat_length, default_allowed. intro H. now apply H. }
  split; [|split; [exact R|]].
  - exists (lit "w"), (repeat 49%N 4301).
    split; [exact key_ok_w|]. split; [exact Hne|].
    split; [exact Fd | reflexivity].
  - intro H. now apply H.
Qed.

(** *** The theorems at concrete inputs, under the default limit *)

Example aggregate_sorted_default :
  Limited.main (interp := Limited.default_interpreter) sample_sorted
  = ([record_line "apple" "2"; record_line "banana" "3";
      record_line "cherry" "1"], Limited.Returns).
Proof. reflexivity. Qed.

(** With the limit off, two counts of 4300 digits are added and the sum
    is printed. *)
Lemma reducer_is_the_script_within_limit_witness :
  Limited.main (interp := Limited.unlimited_interpreter) [huge_line; huge_line]
  = (Reducer.main [huge_line; huge_line], Limited.Returns).
Proof.
  apply (proj1 (reducer_is_the_script_within_limit basic_ucd
                  Limited.unlimited_interpreter) eq_refl).
Defined.

(** The sorted sample: three runs, three lines; and a key that comes
    back after another one. *)
Lemma one_pair_per_run_within_limit_witness :
  Limited.main (interp := Limited.default_interpreter) sample_sorted
  = (map run_line [(lit "apple", [1; 1]); (lit "banana", [1; 1; 1]);
                   (lit "cherry", [1])], Limited.Returns)
  /\ Limited.main (interp := Limited.default_interpreter)
       [record_line "apple" "1"; record_line "banana" "1";
        record_line "apple" "1"]
     = ([total_line (lit "apple") 1; total_line (lit "banana") 1;
         total_line (lit "apple") 1], Limited.Returns).
Proof.
  split.
  - apply (proj1 (proj2 (proj1 (one_pair_per_run_within_limit
                                  basic_ucd Limited.default_interpreter)
                           sample_sorted
                           [(lit "apple", 1); (lit "apple", 1);
                            (lit "banana", 1); (lit "banana", 1);
                            (lit "banana", 1); (lit "cherry", 1)]
                           ltac:(repeat constructor)))).
    + reflexivity.
    + constructor; [discriminate | now apply lit_neq |].
      constructor; [discriminate | now apply lit_neq |].
      constructor. discriminate.
    + repeat (constructor; [now apply small_within|]). constructor.
  - apply (proj2 (one_pair_per_run_within_limit
                    basic_ucd Limited.default_interpreter));
      try reflexivity.
    now apply lit_neq.
Defined.

(** The sorted sample ends in the group of the last key, printed once. *)
Lemma final_flush_within_limit_witness :
  Limited.run (interp := Limited.default_interpreter) sample_sorted
  = ({| current_word := Some (lit "cherry");
        current_count := 1;
        stdout := [record_line "apple" "2"; record_line "banana" "3"] |},
     Limited.Returns)
  /\ Limited.main (interp := Limited.default_interpreter) sample_sorted
     = ([record_line "apple" "2"; record_line "banana" "3"]
        ++ [record_line "cherry" "1"], Limited.Returns).
Proof.
  destruct (proj1 (proj2 (final_flush_within_limit
                            basic_ucd Limited.default_interpreter))
              sample_sorted
              [(lit "apple", [1; 1]); (lit "banana", [1; 1; 1])]
              (lit "cherry") [1]) as (R & Y & _).
  - reflexivity.
  - constructor; [discriminate | now apply lit_neq |].
    constructor; [discriminate | now apply lit_neq |].
    constructor. discriminate.
  - repeat (constructor; [now apply small_within|]). constructor.
  - split; [exact R|]. apply Y. now apply small_within.
Defined.

(** Past 64 bits. *)
Lemma emitted_totals_are_exact_witness :
  key_ok (lit "word")
  /\ Limited.main (interp := Limited.default_interpreter)
       [total_line (lit "word") (2 ^ 64 - 1); total_line (lit "word") 1]
     = ([total_line (lit "word") (2 ^ 64)], Limited.Returns).
Proof.
  split; [exact key_ok_word|].
  apply (proj2 (proj2 (proj2 (proj2 (proj2
           (emitted_totals_are_exact basic_ucd Limited.default_interpreter)))))).
  - exact key_ok_word.
  - lia.
Defined.

(** A tab before the key, a space before a negative count, spaces and
    the line break after it. *)
Lemma lenient_records_within_limit_witness :
  Limited.record_of (interp := Limited.default_interpreter)
    ([TAB] ++ (lit "word" ++ [TAB] ++ [32%N] ++ str_of_int (-3))
       ++ [32%N; 32%N; LF])
  = Some (lit "word", -3).
Proof.
  apply (proj1 (proj2 (lenient_records_within_limit
                         basic_ucd Limited.default_interpreter))).
  - exact key_ok_word.
  - repeat constructor.
  - repeat constructor.
  - repeat constructor. discriminate.
  - now apply small_within.
Defined.

(** Two parts of a sorted input, reduced apart and then together. *)
Lemma combiner_of_returning_runs_witness :
  Limited.main (interp := Limited.default_interpreter)
    ([record_line "apple" "2"]
     ++ [record_line "apple" "1"; record_line "banana" "1"])
  = Limited.main (interp := Limited.default_interpreter)
      ([record_line "apple" "1"; record_line "apple" "1"]
       ++ [record_line "apple" "1"; record_line "banana" "1"]).
Proof.
  apply (proj1 (combiner_of_returning_runs basic_ucd Limited.default_interpreter));
    reflexivity.
Defined.

(** The sorted sample returns: six counts in, totals adding up to six
    out. *)
Lemma totals_conserved_on_return_witness :
  Limited.main (interp := Limited.default_interpreter) sample_sorted
  = ([record_line "apple" "2"; record_line "banana" "3";
      record_line "cherry" "1"], Limited.Returns)
  /\ sum (map snd (Limited.records (interp := Limited.default_interpreter)
                     [record_line "apple" "2"; record_line "banana" "3";
                      record_line "cherry" "1"]))
     = sum (map snd (Limited.records (interp := Limited.default_interpreter)
                       sample_sorted)).
Proof.
  split; [reflexivity|].
  exact (proj2 (totals_conserved_on_return basic_ucd Limited.default_interpreter
                  sample_sorted eq_refl)).
Defined.

(** The sorted sample has grouped keys: three keys, three totals. *)
Lemma grouped_input_on_return_witness :
  Limited.main (interp := Limited.default_interpreter) sample_sorted
  = ([record_line "apple" "2"; record_line "banana" "3";
      record_line "cherry" "1"], Limited.Returns)
  /\ grouped (map fst (Limited.records (interp := Limited.default_interpreter)
                         sample_sorted))
  /\ NoDup (map fst (Limited.records (interp := Limited.default_interpreter)
                       [record_line "apple" "2"; record_line "banana" "3";
                        record_line "cherry" "1"])).
Proof.
  assert (G : grouped (map fst (Limited.records
                                  (interp := Limited.default_interpreter)
                                  sample_sorted)))
    by (apply groupedb_sound; reflexivity).
  split; [reflexivity|]. split; [exact G|].
  destruct (grouped_input_on_return basic_ucd Limited.default_interpreter
              sample_sorted eq_refl G) as (_ & N & _).
  exact N.
Defined.

(** The pairs of the sample text, sorted. *)
Lemma pipeline_is_within_any_limit_witness :
  Permutation (Mapper.main sample_text) (sort_barrier (Mapper.main sample_text))
  /\ (Z.of_nat (length (Mapper.main sample_text)) < 10 ^ 640)
  /\ Limited.main (interp := Limited.default_interpreter)
       (sort_barrier (Mapper.main sample_text))
     = (Reducer.main (sort_barrier (Mapper.main sample_text)),
        Limited.Returns).
Proof.
  assert (L : Z.of_nat (length (Mapper.main sample_text)) < 10 ^ 640)
    by reflexivity.
  split; [apply sort_barrier_perm|]. split; [exact L|].
  exact (proj2 (proj2 (pipeline_is_within_any_limit basic_ucd
                         Limited.default_interpreter sample_text
                         (sort_barrier_perm (Mapper.main sample_text)) L))).
Defined.

End LimitSamples.

(** ** generate_sample_data.py *)

(** *** The [random] module *)

(** The generator of [random] is not modelled: the outcomes of its draws
    are a parameter, the [tape], read from left to right.  A draw below
    [n] is the tape entry reduced modulo [n]; every value in range is
    the outcome of some tape.  Where [random] multiplies the float
    [random()] by [n] and takes the floor, or compares the product with
    integers, the draw below [n] stands for that floor. *)
Module Random.

(** The exceptions the functions of [random] used here can raise. *)
Inductive failure : Set :=
| EmptyRange          (* ValueError: empty range in randrange *)
| EmptyPopulation     (* IndexError: choice from an empty sequence *)
| WeightsMismatch     (* ValueError: number of weights and population differ *)
| NonPositiveTotal.   (* ValueError: total of weights must be greater than zero *)

(** A computation that draws: from a position on the tape, a value and
    the next position, or an exception. *)
Inductive outcome (A : Type) : Type :=
| Done (a : A) (pos : nat)
| Failed (e : failure).

Arguments Done {A} a pos.
Arguments Failed {A} e.

Definition Rand (A : Type) : Type := nat -> outcome A.

Definition ret {A : Type} (a : A) : Rand A := fun pos => Done a pos.

Definition fail {A : Type} (e : failure) : Rand A := fun _ => Failed e.

Definition bind {A B : Type} (m : Rand A) (k : A -> Rand B) : Rand B :=
  fun pos =>
    match m pos with
    | Done a pos' => k a pos'
    | Failed e => Failed e
    end.

Notation "'draw' x <- m ; k" := (bind m (fun x => k))
  (at level 10, x name, m at level 100, k at level 200).

(** [for _ in range(k)]: the values of [k] runs of [m], in order. *)
Fixpoint repeatM {A : Type} (k : nat) (m : Rand A) : Rand (list A) :=
  match k with
  | O => ret []
  | S k' => draw x <- m; draw xs <- repeatM k' m; ret (x :: xs)
  end.

(** [accumulate(weights)]: the running sums. *)
Fixpoint accumulate (acc : Z) (weights : list Z) : list Z :=
  match weights with
  | [] => []
  | w :: weights' => (acc + w)%Z :: accumulate (acc + w) weights'
  end.

(** [bisect_right(a, x, lo, hi)]: the binary search, [fuel] bounding the
    number of turns of its loop. *)
Fixpoint bisect (fuel : nat) (a : list Z) (x : Z) (lo hi : nat) : nat :=
  match fuel with
  | O => lo
  | S fuel' =>
      if (lo <? hi)%nat
      then let mid := ((lo + hi) / 2)%nat in
           if (x <? nth mid a 0)%Z
           then bisect fuel' a x lo mid
           else bisect fuel' a x (S mid) hi
      else lo
  end.

Section Draws.

Variable tape : nat -> N.

(** A draw below [n], for [n] positive. *)
Definition randbelow (n : Z) : Rand Z :=
  fun pos => Done (Z.of_N (tape pos) mod n)%Z (S pos).

(** [random.randint(a, b)] *)
Definition randint (a b : Z) : Rand Z :=
  if (b <? a)%Z then fail EmptyRange
  else draw r <- randbelow (b - a + 1); ret (a + r)%Z.

(** One element of [population], all being as likely. *)
Definition choose {A : Type} (population : list A) : Rand A :=
  match population with
  | [] => fail EmptyPopulation
  | d :: _ =>
      draw i <- randbelow (Z.of_nat (length population));
      ret (nth (Z.to_nat i) population d)
  end.

(** [random.choices(population, k=k)] *)
Definition choices {A : Type} (population : list A) (k : Z) : Rand (list A) :=
  repeatM (Z.to_nat k) (choose population).

(** [random.choices(population, weights=weights, k=k)] *)
Definition choices_weighted {A : Type} (population : list A)
    (weights : list Z) (k : Z) : Rand (list A) :=
  let n := length population in
  let cum_weights := accumulate 0 weights in
  if negb (length cum_weights =? n)%nat then fail WeightsMismatch
  else
    match population with
    | [] => fail EmptyPopulation
    | d :: _ =>
        let total := last cum_weights 0%Z in
        if (total <=? 0)%Z then fail NonPositiveTotal
        else
          let hi := (n - 1)%nat in
          repeatM (Z.to_nat k)
            (draw x <- randbelow total;
             ret (nth (bisect (S hi) cum_weights x 0 hi) population d))
    end.

End Draws.

End Random.

(** *** The sample text generator *)

Module Generator.

Import Py Random.

Local Open Scope N_scope.

Definition common_words : list str :=
  [
   lit "the"; lit "and"; lit "to"; lit "of"; lit "a"; lit "in";
   lit "is"; lit "it"; lit "you"; lit "that"; lit "he"; lit "was";
   lit "for"; lit "on"; lit "are"; lit "as"; lit "with"; lit "his";
   lit "they"; lit "i"; lit "be"; lit "at"; lit "one"; lit "have";
   lit "this"; lit "from"; lit "or"; lit "had"; lit "by"; lit "word";
   lit "but"; lit "not"; lit "what"; lit "all"; lit "were"; lit "we";
   lit "when"; lit "your"; lit "can"; lit "said"; lit "there"; lit "each";
   lit "which"; lit "she"; lit "do"; lit "how"; lit "their"; lit "if";
   lit "will"; lit "up"; lit "data"; lit "big"; lit "hadoop"; lit "mapreduce";
   lit "distributed"; lit "computing"; lit "cluster"; lit "processing"; lit "storage"; lit "analysis";
   lit "algorithm"; lit "framework"; lit "system"; lit "database"; lit "technology"; lit "information";
   lit "computer"; lit "science"; lit "software"; lit "development"; lit "programming"; lit "java";
   lit "python"; lit "stream"; lit "batch"; lit "real"; lit "time"; lit "performance";
   lit "scalability"; lit "fault"; lit "tolerance"; lit "networking"
  ].

(** [string.ascii_lowercase] *)
Definition ascii_lowercase : str := lit "abcdefghijklmnopqrstuvwxyz".

Definition words_per_line : nat := 10.

Definition ascii_toupper (c : char) : char :=
  if is_ascii_lower c then c - 32 else c.

(** The title-case mapping of the Unicode character database, which
    [str.capitalize] applies to the first character (the upper-case
    mapping before Python 3.8); on ASCII it is the upper case. *)
Class TitleData := {
  totitle_full : char -> str;
  totitle_full_ascii :
    forall c, c < 128 -> totitle_full c = [ascii_toupper c]
}.

(** [sep.join(parts)] *)
Fixpoint join (sep : str) (parts : list str) : str :=
  match parts with
  | [] => []
  | p :: rest =>
      match rest with
      | [] => p
      | _ :: _ => p ++ sep ++ join sep rest
      end
  end.

(** [range(0, n, step)] *)
Definition range_step (n step : nat) : list nat :=
  map (fun j => (j * step)%nat) (seq 0 ((n + step - 1) / step)).

(** [l[i:j]], for [i <= j] *)
Definition slice {A : Type} (l : list A) (i j : nat) : list A :=
  firstn (j - i) (skipn i l).

(** [os.path.join(a, b)] on a POSIX system *)
Definition path_join (a b : str) : str :=
  if starts_with 47 b then b
  else if is_empty a || starts_with 47 (rev a) then a ++ b
  else a ++ lit "/" ++ b.

(** One entry of [files_config]. *)
Record config : Type := Config {
  name : str;
  word_count : Z;
  unique_words : Z;
  description : str
}.

Definition files_config : list config :=
  [ {| name := lit "small_document.txt";
       word_count := 500; unique_words := 100;
       description := lit "Small document with limited vocabulary" |};
    {| name := lit "medium_document.txt";
       word_count := 2000; unique_words := 300;
       description := lit "Medium-sized document with moderate vocabulary" |};
    {| name := lit "large_document.txt";
       word_count := 5000; unique_words := 500;
       description := lit "Large document with extensive vocabulary" |};
    {| name := lit "technical_document.txt";
       word_count := 1500; unique_words := 200;
       description := lit "Technical document with specialized terms" |} ].

(** The header put in front of the text of a file. *)
Definition header (c : config) : str :=
  lit "# " ++ description c ++ [LF]
  ++ lit "# Generated for Hadoop MapReduce WordCount assignment" ++ [LF]
  ++ lit "# Word count: ~" ++ str_of_int (word_count c)
  ++ lit ", Unique words: ~" ++ str_of_int (unique_words c) ++ [LF; LF].

(** What [create_sample_files] does, in order. *)
Inductive effect : Type :=
| Makedirs (path : str)
| Print (line : str)
| Write (path content : str).

(** The size in bytes of a text written in UTF-8 (with no surrogate in
    it, and line breaks written as they are). *)
Definition utf8_size (s : str) : Z :=
  fold_right
    (fun (c : char) (n : Z) =>
       (n + if (c <? 0x80)%N then 1
            else if (c <? 0x800)%N then 2
            else if (c <? 0x10000)%N then 3 else 4)%Z)
    0%Z s.

Section Generator.

Context {ucd : UnicodeData} {utd : TitleData}.

Variable tape : nat -> N.

(** [str.capitalize()] *)
Definition capitalize (s : str) : str :=
  match s with
  | [] => []
  | c :: rest => totitle_full c ++ do_lower [c] rest
  end.

(** The body of the loop that makes the additional words. *)
Definition random_word : Rand str :=
  draw word_length <- randint tape 4 8;
  draw word <- choices tape ascii_lowercase word_length;
  ret word.

Definition additional_words (unique_words : Z) : Rand (list str) :=
  repeatM
    (Z.to_nat (Z.max 0 (unique_words - Z.of_nat (length common_words))))
    random_word.

(** The loop over [enumerate(all_words)], from index [i] on. *)
Fixpoint word_weights (i : nat) (words : list str) : Rand (list Z) :=
  match words with
  | [] => ret []
  | _ :: words' =>
      draw weight <-
        (if (i <? length common_words)%nat
         then ret (Z.max 1 (100 - Z.of_nat i * 2))
         else randint tape 1 10);
      draw rest <- word_weights (S i) words';
      ret (weight :: rest)
  end.

(** The body of the loop that formats a line. *)
Definition format_line (line_words : list str) : str :=
  capitalize (join (lit " ") line_words) ++ lit ".".

Definition text_lines (generated_words : list str) : list str :=
  map (fun i => format_line
                  (slice generated_words i (i + words_per_line)))
      (range_step (length generated_words) words_per_line).

(** The words drawn for the text. *)
Definition generate_words (word_count unique_words : Z) : Rand (list str) :=
  draw additional <- additional_words unique_words;
  draw weights <- word_weights 0 (common_words ++ additional);
  choices_weighted tape (common_words ++ additional) weights word_count.

Definition generate_sample_text (word_count unique_words : Z) : Rand str :=
  draw generated_words <- generate_words word_count unique_words;
  ret (join [LF] (text_lines generated_words)).

(** The body of the loop over [files_config]. *)
Definition create_sample_file (data_dir : str) (c : config)
  : Rand (list effect) :=
  draw text <- generate_sample_text (word_count c) (unique_words c);
  let file_path := path_join data_dir (name c) in
  ret [ Print (lit "Generating " ++ name c ++ lit "...");
        Write file_path (header c ++ text);
        Print (lit "  Created: " ++ file_path);
        Print (lit "  Size: " ++ str_of_int (utf8_size (header c ++ text))
               ++ lit " bytes");
        Print [] ].

Fixpoint for_each {A B : Type} (f : A -> Rand (list B)) (l : list A)
  : Rand (list B) :=
  match l with
  | [] => ret []
  | a :: l' => draw x <- f a; draw xs <- for_each f l'; ret (x ++ xs)
  end.

Definition create_sample_files : Rand (list effect) :=
  let data_dir := lit "data/sample_texts" in
  draw effects <- for_each (create_sample_file data_dir) files_config;
  ret (Makedirs data_dir :: effects).

End Generator.

(** The lines Python yields when it reads a text from standard input,
    as it does on POSIX: the text is cut after each line feed, nothing
    else ends a line, and no character is changed. *)
Fixpoint lines_from (cur s : str) : list str :=
  match s with
  | [] => if is_empty cur then [] else [cur]
  | c :: r =>
      if c =? LF then (cur ++ [LF]) :: lines_from [] r
      else lines_from (cur ++ [c]) r
  end.

Definition readlines (s : str) : list str := lines_from [] s.

End Generator.

(** ** Facts about the draws *)

Module RandomFacts.

Import Random.

(** A computation that cannot fail and whose values all satisfy [P]. *)
Definition always {A : Type} (m : Rand A) (P : A -> Prop) : Prop :=
  forall pos, exists a pos', m pos = Done a pos' /\ P a.

Lemma always_ret {A : Type} (a : A) (P : A -> Prop) : P a -> always (ret a) P.
Proof. intros H pos. exists a, pos. now split. Qed.

Lemma always_bind {A B : Type} (m : Rand A) (k : A -> Rand B)
    (P : A -> Prop) (Q : B -> Prop) :
  always m P -> (forall a, P a -> always (k a) Q) -> always (bind m k) Q.
Proof.
  intros Hm Hk pos. destruct (Hm pos) as (a & pos1 & E & Ha).
  destruct (Hk a Ha pos1) as (b & pos2 & E2 & Hb).
  exists b, pos2. unfold bind. now rewrite E.
Qed.

Lemma always_weaken {A : Type} (m : Rand A) (P Q : A -> Prop) :
  (forall a, P a -> Q a) -> always m P -> always m Q.
Proof.
  intros H Hm pos. destruct (Hm pos) as (a & pos' & E & Ha). eauto.
Qed.

Lemma always_repeatM {A : Type} (m : Rand A) (P : A -> Prop) k :
  always m P ->
  always (repeatM k m) (fun l => length l = k /\ Forall P l).
Proof.
  intro Hm. induction k as [|k IH]; simpl.
  - apply always_ret. split; [reflexivity | constructor].
  - eapply always_bind; [exact Hm|]. intros x Hx.
    eapply always_bind; [exact IH|]. intros xs [Hl Hf].
    apply always_ret. split; [simpl; congruence | now constructor].
Qed.

Lemma bisect_bounds fuel a x lo hi :
  (lo <= hi)%nat ->
  (lo <= bisect fuel a x lo hi <= hi)%nat.
Proof.
  revert lo hi. induction fuel as [|fuel IH]; intros lo hi H; cbn [bisect];
    [lia|].
  destruct (lo <? hi)%nat eqn:L; [|lia].
  apply Nat.ltb_lt in L.
  assert (M : (lo <= (lo + hi) / 2 < hi)%nat).
  { split.
    - apply Nat.div_le_lower_bound; lia.
    - apply Nat.Div0.div_lt_upper_bound; lia. }
  destruct (x <? nth ((lo + hi) / 2) a 0)%Z.
  - specialize (IH lo ((lo + hi) / 2)%nat). lia.
  - specialize (IH (S ((lo + hi) / 2)) hi). lia.
Qed.

(** The fuel given to the search is enough: more fuel changes nothing. *)
Lemma bisect_fuel f1 f2 a x lo hi :
  (hi - lo <= f1)%nat -> (hi - lo <= f2)%nat ->
  bisect f1 a x lo hi = bisect f2 a x lo hi.
Proof.
  revert f2 lo hi. induction f1 as [|f1 IH]; intros [|f2] lo hi H1 H2;
    cbn [bisect]; try reflexivity.
  - destruct (lo <? hi)%nat eqn:L; [|reflexivity].
    apply Nat.ltb_lt in L. lia.
  - destruct (lo <? hi)%nat eqn:L; [|reflexivity].
    apply Nat.ltb_lt in L. lia.
  - destruct (lo <? hi)%nat eqn:L; [|reflexivity].
    apply Nat.ltb_lt in L.
    assert (M : (lo <= (lo + hi) / 2 < hi)%nat).
    { split.
      - apply Nat.div_le_lower_bound; lia.
      - apply Nat.Div0.div_lt_upper_bound; lia. }
    destruct (x <? nth ((lo + hi) / 2) a 0)%Z; apply IH; lia.
Qed.

Lemma accumulate_length acc ws : length (accumulate acc ws) = length ws.
Proof.
  revert acc. induction ws as [|w ws IH]; intro acc; simpl; [reflexivity|].
  now rewrite IH.
Qed.

Lemma accumulate_positive acc ws :
  (0 <= acc)%Z -> Forall (fun w => (1 <= w)%Z) ws ->
  Forall (fun c => (0 < c)%Z) (accumulate acc ws).
Proof.
  intros Ha F. revert acc Ha. induction F as [|w ws Hw _ IH]; intros acc Ha;
    simpl; constructor; [lia | apply IH; lia].
Qed.

Lemma last_in {A : Type} (l : list A) d : l <> [] -> In (last l d) l.
Proof.
  induction l as [|x l IH]; [contradiction|]. intros _.
  destruct l as [|y l]; [now left|]. right. apply IH. discriminate.
Qed.

Section Draws.

Variable tape : nat -> N.

Lemma always_randbelow n :
  (0 < n)%Z -> always (randbelow tape n) (fun r => (0 <= r < n)%Z).
Proof.
  intros H pos. eexists _, _. split; [reflexivity|].
  apply Z.mod_pos_bound. exact H.
Qed.

Lemma always_randint a b :
  (a <= b)%Z -> always (randint tape a b) (fun r => (a <= r <= b)%Z).
Proof.
  intro H. unfold randint.
  destruct (b <? a)%Z eqn:E; [apply Z.ltb_lt in E; lia|].
  eapply always_bind; [apply always_randbelow; lia|].
  intros r Hr. cbv beta in Hr. apply always_ret. lia.
Qed.

Lemma always_choose {A : Type} (population : list A) :
  population <> [] ->
  always (choose tape population) (fun x => In x population).
Proof.
  intro H. unfold choose. destruct population as [|d l] eqn:E; [contradiction|].
  rewrite <- E.
  eapply always_bind;
    [apply always_randbelow; rewrite E; simpl length; lia|].
  intros i Hi. cbv beta in Hi. apply always_ret. apply nth_In. lia.
Qed.

Lemma always_choices {A : Type} (population : list A) k :
  population <> [] ->
  always (choices tape population k)
         (fun l => length l = Z.to_nat k /\ Forall (fun x => In x population) l).
Proof. intro H. apply always_repeatM. now apply always_choose. Qed.

(** With as many weights as elements, all of them positive, and a
    population that is not empty, the weighted choice cannot fail. *)
Lemma always_choices_weighted {A : Type} (population : list A) weights k :
  population <> [] ->
  length weights = length population ->
  Forall (fun w => (1 <= w)%Z) weights ->
  always (choices_weighted tape population weights k)
         (fun l => length l = Z.to_nat k /\ Forall (fun x => In x population) l).
Proof.
  intros Hp Hl Hw. unfold choices_weighted.
  rewrite accumulate_length, Hl, Nat.eqb_refl. simpl negb. cbv iota.
  destruct population as [|d l]; [contradiction|].
  assert (T : (0 < last (accumulate 0 weights) 0)%Z).
  { pose proof (@accumulate_positive 0 weights (Z.le_refl 0) Hw) as F.
    rewrite Forall_forall in F. apply F. apply last_in.
    intro N. apply (f_equal (@length Z)) in N.
    rewrite accumulate_length, Hl in N. discriminate. }
  destruct (last (accumulate 0 weights) 0 <=? 0)%Z eqn:L;
    [apply Z.leb_le in L; lia|].
  apply always_repeatM.
  eapply always_bind; [now apply always_randbelow|].
  intros x Hx. apply always_ret. apply nth_In.
  pose proof (@bisect_bounds (S (length (d :: l) - 1))
                (accumulate 0 weights) x 0 (length (d :: l) - 1)
                (Nat.le_0_l _)) as B.
  simpl length in *. lia.
Qed.

End Draws.

End RandomFacts.

(** ** Facts about the sample text generator *)

Module GeneratorFacts.

Import Py Spec TextFacts ScanFacts LowerFacts MapperFacts.
Import Random RandomFacts Generator.

Local Open Scope N_scope.

(** A word of lower-case ASCII letters, at least one. *)
Definition lower_word (w : str) : Prop :=
  w <> [] /\ Forall (fun c => is_ascii_lower c = true) w.

Definition lower_wordb (w : str) : bool :=
  negb (is_empty w) && forallb is_ascii_lower w.

(** A word as the generator has them: one of the common words, or four
    to eight lower-case letters. *)
Definition vocabulary_word (w : str) : Prop :=
  In w common_words
  \/ (Forall (fun c => is_ascii_lower c = true) w
      /\ (4 <= length w <= 8)%nat).

(** A lower-case letter or a space. *)
Definition plain (c : char) : bool := is_ascii_lower c || (c =? 32).

(** A text with no line end in it. *)
Definition clean (l : str) : Prop := Forall (fun c => c <> 10 /\ c <> 13) l.

Lemma lower_wordb_ok w : lower_wordb w = true -> lower_word w.
Proof.
  unfold lower_wordb. intro H. apply andb_true_iff in H as [Hn Hf]. split.
  - destruct w; [discriminate|discriminate].
  - apply Forall_forall. now apply forallb_forall.
Qed.

Lemma common_words_lower : Forall lower_word common_words.
Proof.
  apply Forall_forall. intros w Hw. apply lower_wordb_ok.
  assert (F : forallb lower_wordb common_words = true) by reflexivity.
  rewrite forallb_forall in F. now apply F.
Qed.

Lemma vocabulary_word_lower w : vocabulary_word w -> lower_word w.
Proof.
  intros [H|[F L]].
  - pose proof common_words_lower as C. rewrite Forall_forall in C. auto.
  - split; [|assumption]. destruct w; [simpl in L; lia | discriminate].
Qed.

Lemma lower_props c :
  is_ascii_lower c = true ->
  c < 128 /\ word_class c = true /\ ascii_tolower c = c
  /\ ascii_tolower (ascii_toupper c) = c /\ ascii_toupper c < 128
  /\ c <> 10 /\ c <> 13 /\ ascii_toupper c <> 10 /\ ascii_toupper c <> 13.
Proof.
  intro L. unfold word_class, ascii_tolower, ascii_toupper, is_ascii_upper.
  rewrite L. unfold is_ascii_lower in L. ranges.
  assert (U1 : (65 <=? c) && (c <=? 90) = false).
  { apply andb_false_iff. right. apply N.leb_gt. lia. }
  assert (U2 : (65 <=? c - 32) && (c - 32 <=? 90) = true).
  { apply andb_true_iff. split; apply N.leb_le; lia. }
  rewrite U1, U2. repeat split; try lia.
Qed.

Lemma plain_props c :
  plain c = true ->
  c < 128 /\ ascii_tolower c = c /\ ascii_tolower (ascii_toupper c) = c
  /\ ascii_toupper c < 128 /\ c <> 10 /\ c <> 13
  /\ ascii_toupper c <> 10 /\ ascii_toupper c <> 13.
Proof.
  unfold plain. intro P. apply orb_true_iff in P as [L|S].
  - apply lower_props in L. tauto.
  - apply N.eqb_eq in S. subst c. repeat split; try reflexivity; discriminate.
Qed.

Lemma join_cons sep p q rest :
  join sep (p :: q :: rest) = p ++ sep ++ join sep (q :: rest).
Proof. reflexivity. Qed.

Lemma join_plain ws :
  Forall lower_word ws -> Forall (fun c => plain c = true) (join (lit " ") ws).
Proof.
  assert (W : forall w, lower_word w -> Forall (fun c => plain c = true) w).
  { intros w [_ F]. revert F. apply Forall_impl. intros c L.
    unfold plain. now rewrite L. }
  induction 1 as [|w ws Hw F IH]; [constructor|].
  destruct ws as [|q ws]; [now apply W|].
  rewrite join_cons. apply Forall_app. split; [now apply W|].
  apply Forall_app. split; [now repeat constructor | exact IH].
Qed.

(** The tokens of words joined by spaces, a full stop and a separator
    are the words. *)
Lemma findall_join ws g :
  Forall lower_word ws -> is_gap g ->
  findall (join (lit " ") ws ++ lit "." ++ g) = ws.
Proof.
  intros F G. unfold findall.
  assert (T : forall w, lower_word w -> Forall (fun c => word_class c = true) w).
  { intros w [_ Fw]. revert Fw. apply Forall_impl. intros c L.
    now apply lower_props in L. }
  assert (C : forall w, lower_word w -> close w = [w]).
  { intros w [Hne _]. destruct w; [contradiction|reflexivity]. }
  assert (D : is_gap (lit "." ++ g)) by now constructor.
  induction F as [|w ws Hw F IH].
  - simpl join. now apply scan_only_gap.
  - destruct ws as [|q ws].
    + simpl join. rewrite scan_token by now apply T.
      rewrite scan_only_gap by assumption. now apply C.
    + rewrite join_cons, <- !app_assoc.
      rewrite scan_token by now apply T.
      rewrite scan_gap by (repeat constructor || discriminate).
      change ([] ++ w) with w. rewrite (C w Hw). simpl. f_equal.
      exact IH.
Qed.

Lemma lines_from_clean cur l rest :
  clean l -> lines_from cur (l ++ rest) = lines_from (cur ++ l) rest.
Proof.
  intro C. revert cur. induction C as [|c l [Hc _] _ IH]; intro cur; simpl.
  - now rewrite app_nil_r.
  - apply N.eqb_neq in Hc. unfold LF. rewrite Hc, IH, <- app_assoc.
    reflexivity.
Qed.

Lemma join_no_cr lines : Forall clean lines -> ~ In 13 (join [LF] lines).
Proof.
  assert (L : forall l, clean l -> ~ In 13 l).
  { intros l C H. unfold clean in C. rewrite Forall_forall in C.
    apply C in H. tauto. }
  induction 1 as [|l lines Hl F IH]; [tauto|].
  destruct lines as [|q lines]; [now apply L|].
  rewrite join_cons. intro H. apply in_app_or in H as [H|H].
  - now apply (L l).
  - simpl in H. destruct H as [H|H]; [discriminate|]. now apply IH.
Qed.

(** Slicing a list ten by ten loses nothing. *)
Lemma chunks_concat {A : Type} (l : list A) m :
  (length l <= m * 10)%nat ->
  concat (map (fun j => firstn 10 (skipn (j * 10) l)) (seq 0 m)) = l.
Proof.
  revert l. induction m as [|m IH]; intros l H.
  - destruct l; [reflexivity | simpl in H; lia].
  - cbn [seq]. rewrite <- seq_shift. cbn [map concat]. rewrite map_map.
    change (skipn (0 * 10) l) with l.
    transitivity (firstn 10 l ++ skipn 10 l); [|apply firstn_skipn].
    f_equal. etransitivity; [|apply (IH (skipn 10 l))].
    + f_equal. apply map_ext. intro j.
      rewrite skipn_skipn. do 2 f_equal. lia.
    + rewrite length_skipn. lia.
Qed.

Lemma range_step_chunks {A : Type} (l : list A) :
  concat (map (fun i => slice l i (i + words_per_line))
              (range_step (length l) words_per_line)) = l.
Proof.
  unfold range_step, slice, words_per_line. rewrite map_map.
  etransitivity; [|apply (chunks_concat l ((length l + 10 - 1) / 10))].
  - f_equal. apply map_ext. intro j. f_equal. lia.
  - pose proof (Nat.div_mod_eq (length l + 10 - 1) 10) as D.
    pose proof (Nat.mod_upper_bound (length l + 10 - 1) 10) as B. lia.
Qed.

Lemma slice_forall {A : Type} (P : A -> Prop) (l : list A) i j :
  Forall P l -> Forall P (slice l i j).
Proof.
  intro F. unfold slice.
  rewrite <- (firstn_skipn i l) in F. apply Forall_app in F as [_ F].
  rewrite <- (firstn_skipn (j - i) (skipn i l)) in F.
  now apply Forall_app in F as [F _].
Qed.

Section Text.

Context {ucd : UnicodeData} {utd : TitleData}.

(** On ASCII, [capitalize] is the upper case of the first character and
    the lower case of the others. *)
Lemma capitalize_ascii c rest :
  Forall (fun c => c < 128) (c :: rest) ->
  capitalize (c :: rest) = ascii_toupper c :: map ascii_tolower rest.
Proof.
  intro F. inversion F; subst. unfold capitalize.
  rewrite totitle_full_ascii by assumption.
  now rewrite do_lower_ascii.
Qed.

(** A line of the text is ASCII, has no line end, and its lower case is
    its words joined by spaces and a full stop. *)
Lemma format_line_lower ws :
  Forall lower_word ws ->
  Forall (fun c => c < 128) (format_line ws)
  /\ clean (format_line ws)
  /\ map ascii_tolower (format_line ws) = join (lit " ") ws ++ lit ".".
Proof.
  intro F. apply join_plain in F. unfold format_line.
  destruct (join (lit " ") ws) as [|c rest].
  - simpl. repeat split; repeat constructor; discriminate.
  - rewrite capitalize_ascii
      by (revert F; apply Forall_impl; intros x P;
          now apply plain_props in P).
    inversion F as [|? ? Pc Pr]; subst.
    assert (R : Forall (fun c => c < 128 /\ c <> 10 /\ c <> 13
                                 /\ ascii_tolower c = c) rest).
    { revert Pr. apply Forall_impl. intros x P.
      apply plain_props in P. tauto. }
    apply plain_props in Pc.
    destruct Pc as (P1 & P2 & P3 & P4 & P5 & P6 & P7 & P8).
    repeat split.
    + constructor; [assumption|]. apply Forall_app. split.
      * apply Forall_map. revert R. apply Forall_impl.
        intros x (X1 & _ & _ & X4). now rewrite X4.
      * repeat constructor.
    + constructor; [tauto|]. apply Forall_app. split.
      * apply Forall_map. revert R. apply Forall_impl.
        intros x (_ & X2 & X3 & X4). now rewrite X4.
      * repeat constructor; discriminate.
    + simpl. rewrite P3, map_app, map_map. simpl. do 2 f_equal.
      rewrite <- (map_id rest) at 2. apply map_ext_in. intros x Hx.
      rewrite Forall_forall in R. destruct (R x Hx) as (_ & _ & _ & X4).
      now rewrite X4, X4.
Qed.

(** A line feed after a line changes nothing for the tokenizer. *)
Lemma map_line_lf line : Mapper.map_line (line ++ [LF]) = Mapper.map_line line.
Proof.
  rewrite !map_line_spec. unfold findall. rewrite !scan_lower.
  rewrite lower0_app, (@lower0_spaces _ [LF]) by now repeat constructor.
  rewrite scan_app_gap; [reflexivity|]. now repeat constructor.
Qed.

Lemma map_line_format ws :
  Forall lower_word ws -> Mapper.map_line (format_line ws) = map pair_line ws.
Proof.
  intro F. destruct (format_line_lower F) as (A & _ & L).
  rewrite map_line_spec, lower_ascii, L by assumption.
  pose proof (@findall_join ws [] F (Forall_nil _)) as J.
  rewrite app_nil_r in J. now rewrite J.
Qed.

(** The tokenizer on clean lines joined by line feeds and read back. *)
Lemma main_lines_from_join lines :
  Forall clean lines ->
  Mapper.main (lines_from [] (join [LF] lines))
  = flat_map Mapper.map_line lines.
Proof.
  induction 1 as [|l lines Hl F IH]; [reflexivity|].
  destruct lines as [|q lines].
  - simpl join. rewrite <- (app_nil_r l) at 1.
    rewrite lines_from_clean by assumption. simpl.
    destruct l as [|c l]; simpl; [reflexivity|].
    unfold Mapper.main. simpl. reflexivity.
  - rewrite join_cons, lines_from_clean by assumption.
    change (Mapper.main (lines_from ([] ++ l) ([LF] ++ join [LF] (q :: lines))))
      with (Mapper.map_line (l ++ [LF])
              ++ Mapper.main (lines_from [] (join [LF] (q :: lines)))).
    rewrite IH, map_line_lf. reflexivity.
Qed.

Lemma main_readlines_join lines :
  Forall clean lines ->
  Mapper.main (readlines (join [LF] lines)) = flat_map Mapper.map_line lines.
Proof.
  intro F. unfold readlines. now apply main_lines_from_join.
Qed.

(** The tokenizer on the text made of a list of words: the words. *)
Lemma main_text_lines words :
  Forall lower_word words ->
  Mapper.main (readlines (join [LF] (text_lines words)))
  = map pair_line words.
Proof.
  intro F. rewrite main_readlines_join.
  - rewrite <- (range_step_chunks words) at 2.
    unfold text_lines. rewrite flat_map_concat_map, map_map, concat_map, map_map.
    f_equal. apply map_ext. intro i.
    apply map_line_format. now apply slice_forall.
  - unfold text_lines. apply Forall_map. apply Forall_forall. intros i _.
    apply format_line_lower. now apply slice_forall.
Qed.

End Text.

Lemma ascii_lowercase_lower :
  Forall (fun c => is_ascii_lower c = true) ascii_lowercase.
Proof.
  apply Forall_forall. apply forallb_forall. reflexivity.
Qed.

Section Draws.

Variable tape : nat -> N.

Lemma always_random_word :
  always (random_word tape)
         (fun w => Forall (fun c => is_ascii_lower c = true) w
                   /\ (4 <= length w <= 8)%nat).
Proof.
  unfold random_word.
  eapply always_bind; [apply always_randint; lia|].
  intros k Hk. cbv beta in Hk.
  eapply always_bind; [apply always_choices; discriminate|].
  intros w [Hl Hf]. apply always_ret. split; [|lia].
  revert Hf. apply Forall_impl. intros c Hc.
  pose proof ascii_lowercase_lower as L. rewrite Forall_forall in L. auto.
Qed.

Lemma always_additional_words unique_words :
  always (additional_words tape unique_words)
         (fun l =>
            length l
            = Z.to_nat (Z.max 0 (unique_words
                                 - Z.of_nat (length common_words)))
            /\ Forall vocabulary_word l).
Proof.
  unfold additional_words.
  eapply always_weaken; [|apply always_repeatM, always_random_word].
  intros l [Hl Hf]. split; [assumption|].
  revert Hf. apply Forall_impl. intros w H. now right.
Qed.

Lemma always_word_weights i words :
  always (word_weights tape i words)
         (fun ws => length ws = length words
                    /\ Forall (fun w => (1 <= w <= 100)%Z) ws).
Proof.
  revert i. induction words as [|w words IH]; intro i; cbn [word_weights].
  - apply always_ret. split; [reflexivity | constructor].
  - eapply always_bind with (P := fun w => (1 <= w <= 100)%Z).
    + destruct (i <? length common_words)%nat.
      * apply always_ret. lia.
      * eapply always_weaken; [|apply always_randint; lia].
        intros a Ha. cbv beta in Ha. lia.
    + intros weight Hw. eapply always_bind; [apply IH|].
      intros rest [Hl Hf]. apply always_ret.
      split; [simpl; congruence | now constructor].
Qed.

(** The words drawn for a text: as many as asked for (none when the
    number is not positive), each a word of the vocabulary. *)
Lemma always_generate_words word_count unique_words :
  always (generate_words tape word_count unique_words)
         (fun words => length words = Z.to_nat word_count
                       /\ Forall vocabulary_word words).
Proof.
  unfold generate_words.
  eapply always_bind; [apply always_additional_words|].
  intros additional [_ Ha].
  eapply always_bind; [apply always_word_weights|].
  intros weights [Hl Hw].
  eapply always_weaken; [|apply always_choices_weighted].
  - intros words [Hn Hf]. split; [assumption|].
    revert Hf. apply Forall_impl. intros w Hin.
    apply in_app_or in Hin as [Hin|Hin]; [now left|].
    rewrite Forall_forall in Ha. now apply Ha.
  - discriminate.
  - assumption.
  - revert Hw. apply Forall_impl. intros w H. lia.
Qed.

End Draws.




Section Shape.

Context {ucd : UnicodeData} {utd : TitleData}.



End Shape.

(** X15: the vocabulary of a text.  It is the 82 common words followed
    by as many random words as it takes to reach the number of unique
    words asked for, so a number below 82 changes nothing; each random
    word is four to eight lower-case letters; and every word gets a
    weight between 1 and 100, as many weights as words. *)
Theorem vocabulary_and_weights tape unique_words pos :
  exists additional pos1 weights pos2,
    additional_words tape unique_words pos = Done additional pos1
    /\ word_weights tape 0 (common_words ++ additional) pos1
       = Done weights pos2
    /\ length (common_words ++ additional)
       = Z.to_nat (Z.max 82 unique_words)
    /\ Forall (fun w => Forall (fun c => is_ascii_lower c = true) w
                        /\ (4 <= length w <= 8)%nat) additional
    /\ length weights = length (common_words ++ additional)
    /\ Forall (fun w => (1 <= w <= 100)%Z) weights.
Proof.
  assert (A : always (additional_words tape unique_words)
                (fun l =>
                   length l
                   = Z.to_nat (Z.max 0 (unique_words
                                        - Z.of_nat (length common_words)))
                   /\ Forall (fun w =>
                                Forall (fun c => is_ascii_lower c = true) w
                                /\ (4 <= length w <= 8)%nat) l)).
  { apply always_repeatM, always_random_word. }
  destruct (A pos) as (additional & pos1 & E1 & Hl & Hf).
  destruct (always_word_weights tape 0 (common_words ++ additional) pos1)
    as (weights & pos2 & E2 & Hw & Hr).
  exists additional, pos1, weights, pos2. repeat apply conj; try assumption.
  rewrite length_app, Hl.
  change (length common_words) with 82%nat. lia.
Qed.




(** *** A text after a header *)

Lemma lines_from_before_lf z cur s :
  lines_from cur (z ++ LF :: s)
  = lines_from cur (z ++ [LF]) ++ lines_from [] s.
Proof.
  revert cur. induction z as [|c z IH]; intro cur; simpl.
  - reflexivity.
  - destruct (c =? LF); [|apply IH]. simpl. f_equal. apply IH.
Qed.

(** Reading a text that follows a line feed: the lines before, then the
    lines of the text. *)
Lemma readlines_after_lf x t :
  readlines (x ++ LF :: t) = readlines (x ++ [LF]) ++ readlines t.
Proof.
  unfold readlines. apply lines_from_before_lf.
Qed.

Lemma header_ends_lf c : exists x, header c = x ++ [LF].
Proof.
  unfold header.
  exists (lit "# " ++ description c ++ [LF]
          ++ lit "# Generated for Hadoop MapReduce WordCount assignment"
          ++ [LF] ++ lit "# Word count: ~" ++ str_of_int (word_count c)
          ++ lit ", Unique words: ~" ++ str_of_int (unique_words c) ++ [LF]).
  now rewrite <- !app_assoc.
Qed.

(** The elements of a trace that write a file. *)
Definition writes (effects : list effect) : list (str * str) :=
  flat_map (fun e => match e with
                     | Write path content => [(path, content)]
                     | _ => []
                     end) effects.

(** The elements of a trace that print a line. *)
Definition prints (effects : list effect) : list str :=
  flat_map (fun e => match e with
                     | Print line => [line]
                     | _ => []
                     end) effects.

Section Files.

Context {ucd : UnicodeData} {utd : TitleData}.

Variable tape : nat -> N.

Lemma main_header_text c text :
  Mapper.main (readlines (header c ++ text))
  = Mapper.main (readlines (header c)) ++ Mapper.main (readlines text).
Proof.
  destruct (header_ends_lf c) as (x & E). rewrite E, <- app_assoc.
  simpl. now rewrite readlines_after_lf, main_app.
Qed.

Lemma always_generate_sample_text word_count unique_words :
  always (generate_sample_text tape word_count unique_words)
         (fun text => exists words,
              length words = Z.to_nat word_count
              /\ Mapper.main (readlines text) = map pair_line words).
Proof.
  unfold generate_sample_text.
  eapply always_bind; [apply always_generate_words|].
  intros words [Hl Hf]. apply always_ret. exists words.
  split; [assumption|]. apply main_text_lines.
  revert Hf. apply Forall_impl. apply vocabulary_word_lower.
Qed.

Lemma create_sample_file_spec c data_dir pos :
  exists words text effects pos',
    generate_words tape (word_count c) (unique_words c) pos = Done words pos'
    /\ create_sample_file tape data_dir c pos = Done effects pos'
    /\ writes effects = [(path_join data_dir (name c), header c ++ text)]
    /\ Mapper.main (readlines (header c ++ text))
       = Mapper.main (readlines (header c)) ++ map pair_line words
    /\ length (Mapper.main (readlines (header c ++ text)))
       = (length (Mapper.main (readlines (header c)))
          + Z.to_nat (word_count c))%nat.
Proof.
  destruct (always_generate_words tape (word_count c) (unique_words c) pos)
    as (words & pos' & E & Hl & Hf).
  assert (M : Mapper.main (readlines (join [LF] (text_lines words)))
              = map pair_line words).
  { apply main_text_lines. revert Hf. apply Forall_impl.
    apply vocabulary_word_lower. }
  exists words, (join [LF] (text_lines words)).
  eexists _, pos'. repeat apply conj.
  - exact E.
  - unfold create_sample_file, generate_sample_text, bind. rewrite E.
    reflexivity.
  - reflexivity.
  - now rewrite main_header_text, M.
  - now rewrite main_header_text, M, length_app, length_map, Hl.
Qed.

Lemma writes_app a b : writes (a ++ b) = writes a ++ writes b.
Proof. apply flat_map_app. Qed.

(** The loop over the configurations: one file written for each, at its
    path, with as many tokens as its header has and words were asked. *)
Lemma for_each_files data_dir configs pos :
  exists effects pos',
    for_each (create_sample_file tape data_dir) configs pos
    = Done effects pos'
    /\ map fst (writes effects)
       = map (fun c => path_join data_dir (name c)) configs
    /\ map (fun w => length (Mapper.main (readlines (snd w))))
           (writes effects)
       = map (fun c => (length (Mapper.main (readlines (header c)))
                        + Z.to_nat (word_count c))%nat) configs.
Proof.
  revert pos. induction configs as [|c configs IH]; intro pos.
  - exists [], pos. repeat split.
  - destruct (create_sample_file_spec c data_dir pos)
      as (words & text & effs & pos1 & _ & E & W & _ & L).
    destruct (IH pos1) as (effects & pos' & E' & P & C).
    exists (effs ++ effects), pos'. repeat apply conj.
    + cbn [for_each]. unfold bind at 1. rewrite E.
      unfold bind at 1. now rewrite E'.
    + rewrite writes_app, map_app, W, P. reflexivity.
    + rewrite writes_app, map_app, W, C. cbn [map snd]. now rewrite L.
Qed.

(** The tokenizer on ASCII lines, without the character database. *)
Lemma main_ascii lines :
  forallb (forallb (fun c => c <? 128)) lines = true ->
  Mapper.main lines = map pair_line (flat_map MapperMore.ascii_tokens lines).
Proof.
  intro H. rewrite forallb_forall in H. unfold Mapper.main.
  induction lines as [|l lines IH]; [reflexivity|].
  simpl. rewrite map_app, IH by (intros x Hx; apply H; now right).
  f_equal. rewrite map_line_spec, lower_ascii; [reflexivity|].
  apply Forall_forall. intros c Hc. apply N.ltb_lt.
  assert (F : forallb (fun c => c <? 128) l = true) by (apply H; now left).
  rewrite forallb_forall in F. now apply F.
Qed.

End Files.


(** X13: the four sample files.  Whatever the draws, creating the
    sample files cannot fail in generating their texts; it first makes
    the directory, then writes the four files of the configuration, in
    order, under that directory; and the tokenizer finds 517, 2018, 5017
    and 1517 words in them: the 500, 2000, 5000 and 1500 asked for and
    the 17 or 18 of the header. *)
Theorem create_sample_files_word_counts
    (ucd : UnicodeData) (utd : TitleData) tape pos :
  exists effects pos',
    create_sample_files tape pos = Done effects pos'
    /\ hd_error effects = Some (Makedirs (lit "data/sample_texts"))
    /\ map fst (writes effects)
       = [lit "data/sample_texts/small_document.txt";
          lit "data/sample_texts/medium_document.txt";
          lit "data/sample_texts/large_document.txt";
          lit "data/sample_texts/technical_document.txt"]
    /\ map (fun w => Z.of_nat (length (Mapper.main (readlines (snd w)))))
           (writes effects)
       = [517; 2018; 5017; 1517]%Z.
Proof.
  destruct (for_each_files tape (lit "data/sample_texts") files_config pos)
    as (effects & pos' & E & P & C).
  exists (Makedirs (lit "data/sample_texts") :: effects), pos'.
  repeat apply conj.
  - unfold create_sample_files, bind. now rewrite E.
  - reflexivity.
  - exact P.
  - cbn [writes flat_map app]. fold (writes effects).
    rewrite <- (map_map (fun w => length (Mapper.main (readlines (snd w))))
                        Z.of_nat), C.
    unfold files_config. cbn [map word_count].
    rewrite !main_ascii by reflexivity. rewrite !length_map.
    rewrite !Nat2Z.inj_add, !Z2Nat.id by lia.
    reflexivity.
Qed.



End GeneratorFacts.

(** ** More examples and instances *)

Module MoreSamples.

Import Py Spec TextFacts RecordFacts ReducerFacts PipelineFacts Samples.
Import ReducerMore MapperMore Random Generator GeneratorFacts.

Lemma basic_totitle_ascii (c : char) :
  (c < 128)%N -> [ascii_toupper c] = [ascii_toupper c].
Proof. reflexivity. Qed.

(** Title case on ASCII only: enough for the generator, whose lines are
    ASCII. *)
#[export] Instance basic_utd : TitleData :=
  {| totitle_full := fun c => [ascii_toupper c];
     totitle_full_ascii := basic_totitle_ascii |}.

(** A tape to run the generator on. *)
Definition sample_tape (i : nat) : N := (N.of_nat i * 7919 + 13)%N.

Example generate_sample :
  generate_sample_text sample_tape 25 85 0
  = Done (lit "And to of in is you that was for are." ++ [LF]
          ++ lit "With they be one this had but were can their." ++ [LF]
          ++ lit "The and of a is.") 46.
Proof. vm_compute. reflexivity. Qed.

Example generate_nothing :
  generate_sample_text sample_tape 0 85 0 = Done [] 21
  /\ generate_sample_text sample_tape (-3) 0 0 = Done [] 0.
Proof. split; vm_compute; reflexivity. Qed.

Example tokenize_generated :
  match generate_sample_text sample_tape 12 0 0 with
  | Done text _ => Mapper.main (readlines text)
  | Failed _ => []
  end
  = map pair_line
      [lit "the"; lit "and"; lit "of"; lit "in"; lit "it"; lit "that";
       lit "was"; lit "are"; lit "with"; lit "i"; lit "one"; lit "from"].
Proof. vm_compute. reflexivity. Qed.

Example combine_partial_outputs :
  Reducer.main (Reducer.main [record_line "apple" "1"; record_line "apple" "1"]
                ++ Reducer.main [record_line "apple" "1";
                                 record_line "banana" "1"])
  = [record_line "apple" "3"; record_line "banana" "1"].
Proof. reflexivity. Qed.

Lemma forallb_Forall {A : Type} (f : A -> bool) (P : A -> Prop) l :
  (forall x, f x = true -> P x) -> forallb f l = true -> Forall P l.
Proof.
  intros H F. apply Forall_forall. intros x Hx. apply H.
  rewrite forallb_forall in F. auto.
Defined.

(** The sample text through the mapper, the sort and the reducer. *)
Lemma word_count_end_to_end_witness :
  Permutation (Mapper.main sample_text) (sort_barrier (Mapper.main sample_text))
  /\ grouped (map fst (records (sort_barrier (Mapper.main sample_text))))
  /\ forall w n,
       In (w, n) (records (Reducer.main (sort_barrier (Mapper.main sample_text)))) ->
       n = Z.of_nat (count_occ (list_eq_dec N.eq_dec) (tokens_of sample_text) w).
Proof.
  assert (G : grouped (map fst (records (sort_barrier (Mapper.main sample_text)))))
    by (apply groupedb_sound; reflexivity).
  split; [apply sort_barrier_perm|]. split; [exact G|].
  destruct (word_count_end_to_end basic_ucd (list_eq_dec N.eq_dec) sample_text
              (sort_barrier_perm (Mapper.main sample_text)) G)
    as (_ & _ & _ & C).
  exact C.
Defined.


(** An ASCII line in mixed case. *)
Lemma ascii_line_keys_are_lower_case_witness :
  Forall (fun c => (c < 128)%N) (lit "The THE the")
  /\ Mapper.map_line (lit "The THE the")
     = map pair_line (ascii_tokens (lit "The THE the")).
Proof.
  assert (A : Forall (fun c => (c < 128)%N) (lit "The THE the")).
  { apply (forallb_Forall (fun c => (c <? 128)%N)); [|reflexivity].
    intros x H. now apply N.ltb_lt. }
  split; [exact A|].
  exact (proj1 (ascii_line_keys_are_lower_case basic_ucd A)).
Defined.

End MoreSamples.
